(** * Robustness application (applications/robustness.py)

    A shallow embedding of the CIFAR-10 experiment driver that trains a
    classifier under an epsilon-adversarial loss constraint, together with
    the properties of its glue code: batching, accuracy, preprocessing,
    label-stratified subset selection, the constrained learning problem,
    the adversarial loss, the validation hook and the test sweep.

    Conventions of the embedding:
    - Python floats and tensor entries are exact rationals ([Q]); rounding
      is not modelled.
    - Tensors are nested lists: an image is [C][H][W], a batch [N][C][H][W],
      a matrix of logits [N][K].
    - A Python exception is a value of [exn]; code that may raise returns a
      [result]. *)

From Stdlib Require Import QArith String.
From stdpp Require Import gmap list.

Local Open Scope nat_scope.

(* ===================================================================== *)
(** * Exceptions and results *)
(* ===================================================================== *)

Inductive exn : Type :=
| ZeroDivisionError
| IndexError
| ValueError
| RuntimeError (what : string).

Inductive result (A : Type) : Type :=
| Ok (a : A)
| Raise (e : exn).
Arguments Ok {A} a.
Arguments Raise {A} e.

Definition result_bind {A B} (r : result A) (k : A -> result B) : result B :=
  match r with
  | Ok a => k a
  | Raise e => Raise e
  end.

(* ===================================================================== *)
(** * Batch boundaries (validation_hook, lines 148-150; test, lines 218-220) *)
(* ===================================================================== *)

(** [np.arange(start, stop, step)] on non-negative integers: the values
    [start + i*step] for [i < ceil((stop - start)/step)].  A zero step
    raises. *)
Definition ceil_div (a b : nat) : nat := (a + b - 1) / b.

Definition np_arange (start stop step : nat) : result (list nat) :=
  if step =? 0 then Raise ZeroDivisionError
  else Ok (map (fun i => start + i * step) (seq 0 (ceil_div (stop - start) step))).

(** [batch_idx = np.arange(0, n+1, b)], then [n] is appended when the
    last boundary is below [n].  [batch_idx[-1]] raises on an empty
    array. *)
Definition batch_idx (n b : nat) : result (list nat) :=
  result_bind (np_arange 0 (n + 1) b) (fun idx =>
    match last idx with
    | None => Raise IndexError
    | Some l => if l <? n then Ok (idx ++ [n]) else Ok idx
    end).

(** [zip(batch_idx, batch_idx[1:])] *)
Definition batches (idx : list nat) : list (nat * nat) := zip idx (tail idx).

(** The indices visited by the loop over [batches]: the slice
    [batch_start:batch_end] of each pair, in order. *)
Definition visited (idx : list nat) : list nat :=
  concat (map (fun p => seq p.1 (p.2 - p.1)) (batches idx)).

(** The total size of a list of batches *)
Definition batch_sizes_sum (l : list (nat * nat)) : nat :=
  foldr (fun p acc => (p.2 - p.1) + acc) 0 l.

(** A list of boundaries whose consecutive steps are positive and at
    most [b]. *)
Fixpoint stepped (b : nat) (idx : list nat) : Prop :=
  match idx with
  | x :: ((y :: _) as tl) => x < y /\ y - x <= b /\ stepped b tl
  | _ => True
  end.

(* ===================================================================== *)
(** * accuracy (lines 36-39) *)
(* ===================================================================== *)

Abbreviation Logits := (list (list Q)) (only parsing).   (* [N][K] *)
Abbreviation Labels := (list nat) (only parsing).        (* [N], class indices *)

Definition Qlt_bool (a b : Q) : bool := negb (Qle_bool b a).

Fixpoint result_mapM {A B} (f : A -> result B) (l : list A) : result (list B) :=
  match l with
  | [] => Ok []
  | a :: tl =>
      result_bind (f a) (fun b =>
      result_bind (result_mapM f tl) (fun bs => Ok (b :: bs)))
  end.

(** One row of [torch.max(yhat, 1)]: the maximal value and the index of
    its first occurrence.  [max_scan i best row] scans [row], whose first
    entry has index [i], keeping the best (value, index) seen so far; a
    later entry replaces it only when strictly larger. *)
Fixpoint max_scan (i : nat) (best : Q * nat) (row : list Q) : Q * nat :=
  match row with
  | [] => best
  | v :: tl => max_scan (S i) (if Qlt_bool best.1 v then (v, i) else best) tl
  end.

Definition row_max (row : list Q) : result (Q * nat) :=
  match row with
  | [] => Raise (RuntimeError "max over an empty dimension")
  | v :: tl => Ok (max_scan 1 (v, 0) tl)
  end.

(** [_, predicted = torch.max(yhat, 1)] *)
Definition torch_max_dim1 (yhat : Logits) : result (list Q * list nat) :=
  result_bind (result_mapM row_max yhat) (fun vi => Ok (vi.*1, vi.*2)).

(** [predicted == y] on one-dimensional tensors: element-wise when the
    sizes agree, broadcast when one side has a single element, an error
    otherwise. *)
Definition tensor_eq (predicted y : list nat) : result (list bool) :=
  if length predicted =? length y then Ok (zip_with Nat.eqb predicted y)
  else if length y =? 1 then Ok (map (fun p => p =? hd 0 y) predicted)
  else if length predicted =? 1 then Ok (map (fun l => hd 0 predicted =? l) y)
  else Raise (RuntimeError "tensor sizes must match").

(** [.sum().item()] of a boolean tensor *)
Definition tensor_sum (l : list bool) : nat :=
  foldr (fun (b : bool) n => (if b then 1 else 0) + n) 0 l.

(** Python's true division of two non-negative integers *)
Definition py_div (a b : nat) : result Q :=
  if b =? 0 then Raise ZeroDivisionError
  else Ok (inject_Z (Z.of_nat a) / inject_Z (Z.of_nat b))%Q.

Definition accuracy (yhat : Logits) (y : Labels) : result Q :=
  result_bind (torch_max_dim1 yhat) (fun m =>
  let predicted := m.2 in
  result_bind (tensor_eq predicted y) (fun hits =>
  let correct := tensor_sum hits in
  py_div correct (length yhat))).

(** The claim's reading of "argmax": [j] is the index of the first maximal
    entry of [row]. *)
Definition first_argmax (row : list Q) (j : nat) : Prop :=
  exists v, row !! j = Some v /\
    (forall k w, row !! k = Some w -> (w <= v)%Q) /\
    (forall k w, k < j -> row !! k = Some w -> (w < v)%Q).

(** What the scan knows about the entries it has already seen. *)
Definition scan_inv (seen : list Q) (best : Q * nat) : Prop :=
  seen !! best.2 = Some best.1 /\
  (forall k w, seen !! k = Some w -> (w <= best.1)%Q) /\
  (forall k w, k < best.2 -> seen !! k = Some w -> (w < best.1)%Q).

(** The number of true entries of an indicator list *)
Definition count_hits (hits : list bool) : nat :=
  length (filter (fun b : bool => b = true) hits).

(* ===================================================================== *)
(** * preprocess (lines 41-44) *)
(* ===================================================================== *)

Abbreviation Image := (list (list (list Q))) (only parsing).   (* [C][H][W] *)
Abbreviation Batch := (list (list (list (list Q)))) (only parsing).   (* [N][C][H][W] *)

Definition mean : list Q := [0.4914; 0.4822; 0.4465]%Q.
Definition std : list Q := [0.2023; 0.1994; 0.2010]%Q.

(** [img op c] for an image [C][H][W] and a tensor [c] reshaped to
    (K,1,1): the channel axes must have the same size, or one of them
    size one (which is then repeated); the trailing axes of [c] have size
    one and always broadcast. *)
Definition broadcast_channels (op : Q -> Q -> Q) (img : Image) (c : list Q)
  : result Image :=
  let on_channel ch m := map (map (fun v => op v m)) ch in
  if length img =? length c then Ok (zip_with on_channel img c)
  else if length img =? 1 then Ok (map (on_channel (hd [] img)) c)
  else if length c =? 1 then Ok (map (fun ch => on_channel ch (hd 0%Q c)) img)
  else Raise (RuntimeError "tensor sizes must match").

Definition tensor_sub (img : Batch) (c : list Q) : result Batch :=
  result_mapM (fun im => broadcast_channels Qminus im c) img.

Definition tensor_div (img : Batch) (c : list Q) : result Batch :=
  result_mapM (fun im => broadcast_channels Qdiv im c) img.

(** [return (img - mean) / std] *)
Definition preprocess (img : Batch) : result Batch :=
  result_bind (tensor_sub img mean) (fun d => tensor_div d std).

(** Entry [n, c, h, w] of a batch *)
Definition pixel (b : Batch) (n c h w : nat) : option Q :=
  im ← b !! n; ch ← im !! c; row ← ch !! h; row !! w.

(* ===================================================================== *)
(** * Label-stratified subsets (lines 50-71) *)
(* ===================================================================== *)

Definition n_train : nat := 4900.
Definition n_valid : nat := 100.

(** [np.flatnonzero(mask)]: the positions of the true entries, ascending *)
Fixpoint flatnonzero_from (i : nat) (mask : list bool) : list nat :=
  match mask with
  | [] => []
  | b :: tl => (if b then [i] else []) ++ flatnonzero_from (S i) tl
  end.

Definition flatnonzero (mask : list bool) : list nat := flatnonzero_from 0 mask.

(** [target == label] *)
Definition target_eq (target : list nat) (label : nat) : list bool :=
  map (fun t => t =? label) target.

(** Python's [l[a:b]] for non-negative bounds *)
Definition slice {A} (a b : nat) (l : list A) : list A := take (b - a) (drop a l).

(** [np.array(rows).flatten()]: the rows must have one common length
    (otherwise the array is inhomogeneous and NumPy raises); the result is
    their concatenation. *)
Definition np_array_flatten (rows : list (list nat)) : result (list nat) :=
  if forallb (fun r => length r =? length (hd [] rows)) rows
  then Ok (concat rows)
  else Raise ValueError.

Section DataSelection.

(** NumPy's generator: [np.random.RandomState(seed)] builds a generator
    state from the seed alone, and [.permutation(idx)] returns a
    shuffled copy of [idx] and advances the generator. *)
Variable Gen : Type.
Variable RandomState : Z -> Gen.
Variable permutation : Gen -> list nat -> list nat * Gen.

(** [label_idx = [np.flatnonzero(target == label) for label in range(0,10)]] *)
Definition label_idx_sorted (target : list nat) : list (list nat) :=
  map (fun label => flatnonzero (target_eq target label)) (seq 0 10).

(** [label_idx = [np.random.RandomState(seed=42).permutation(idx) for idx in label_idx]] *)
Definition label_idx (target : list nat) : list (list nat) :=
  map (fun idx => (permutation (RandomState 42) idx).1) (label_idx_sorted target).

(** [[idx[:n_train] for idx in label_idx]] *)
Definition train_rows (target : list nat) : list (list nat) :=
  map (fun idx => slice 0 n_train idx) (label_idx target).

Definition train_subset (target : list nat) : result (list nat) :=
  np_array_flatten (train_rows target).

(** [[idx[n_train:n_train+n_valid] for idx in label_idx]] *)
Definition valid_rows (target : list nat) : list (list nat) :=
  map (fun idx => slice n_train (n_train + n_valid) idx) (label_idx target).

Definition valid_subset (target : list nat) : result (list nat) :=
  np_array_flatten (valid_rows target).

End DataSelection.

Arguments label_idx_sorted target : simpl never.
Arguments label_idx {Gen} RandomState permutation target.
Arguments train_rows {Gen} RandomState permutation target.
Arguments train_subset {Gen} RandomState permutation target.
Arguments valid_rows {Gen} RandomState permutation target.
Arguments valid_subset {Gen} RandomState permutation target.

(* ===================================================================== *)
(** * The world the script runs in *)
(* ===================================================================== *)

(** The three dataset objects of the script *)
Inductive Dataset : Type := trainset | validset | testset.

(** [data[batch_idx]] with an index array, or [data[a:b]] *)
Inductive Index : Type :=
| IdxList (idx : list nat)
| IdxSlice (batch_start batch_end : nat).

(** [foolbox.attacks.LinfPGD(...)] *)
Record LinfPGD : Type := {
  rel_stepsize : Q;
  abs_stepsize : option Q;
  steps : nat;
  random_start : bool
}.

(** [foolbox.PyTorchModel(model, bounds=..., preprocessing=dict(...))] *)
Record FoolboxModel : Type := {
  bounds : Q * Q;
  preprocessing_mean : list Q;
  preprocessing_std : list Q;
  preprocessing_axis : Z
}.

(** [csl.PytorchModel(ResNet18().to(theDevice))]: the handle of the one
    network of the script; its weights live in the library state. *)
Inductive Model : Type := PytorchModel_ResNet18.

(** The [epsilons] argument of an attack call: a number or an array *)
Inductive Epsilons : Type :=
| EpsScalar (e : Q)
| EpsArray (es : list Q).

(** Library objects built by the script *)
Inductive Ctor : Type :=
| NewModel
| NewFoolboxModel (fm : FoolboxModel)
| NewAttack (a : LinfPGD)
| NewTestset.

(** Lines written to standard output; a formatted number is represented
    by the number. *)
Inductive OutputLine : Type :=
| LineValidationDual (acc_pct : Q) (duals : list Q)
| LineValidationAdversarial (acc_pct acc_adv_pct : Q)
| LineTestHeader
| LineTestAccuracy (acc_pct : Q)
| LineAdversarialAccuracy (acc_adv_pct : list Q)
| LineAdversarialSuccess (success_adv_pct : list Q).

(** What a run does that is visible outside the script: the library
    calls it makes, the lines it prints, and the exception it dies of. *)
Inductive Event : Type :=
| EvConstruct (c : Ctor)
| EvBaseInit
| EvGetItem (d : Dataset) (i : Index)
| EvModelEval
| EvModelTrain
| EvAttack (a : LinfPGD) (fm : FoolboxModel) (x : Batch) (y : Labels) (epsilons : Epsilons)
| EvForward (training grad : bool) (input : Batch)
| EvCrossEntropy (yhat : Logits) (y : Labels)
| EvPrint (line : OutputLine)
| EvRaised (e : exn).

(** A tensor together with its autograd flag *)
Record Tracked (A : Type) : Type := {
  value : A;
  requires_grad : bool
}.
Arguments value {A} t.
Arguments requires_grad {A} t.

(** Gradient tensors are objects on a heap; a parameter's [.grad] field is
    [None] or a reference to one of them. *)
Abbreviation loc := positive (only parsing).
Abbreviation Grad := (list Q) (only parsing).

Record World (Lib : Type) : Type := {
  lib : Lib;                         (* weights, buffers, generators, device *)
  training : bool;                   (* set by model.train() / model.eval() *)
  grad_enabled : bool;               (* torch.is_grad_enabled() *)
  param_grads : list (option loc);   (* [p.grad for p in model.parameters] *)
  heap : gmap loc Grad;              (* the gradient tensor objects *)
  lambdas : list Q                   (* problem.lambdas *)
}.
Arguments lib {Lib} w.
Arguments training {Lib} w.
Arguments grad_enabled {Lib} w.
Arguments param_grads {Lib} w.
Arguments heap {Lib} w.
Arguments lambdas {Lib} w.

(** What an attack may do to one parameter's gradient: leave it, overwrite
    the tensor object in place (accumulation by [backward], [zero_]), or
    bind the field to a new tensor or to [None]. *)
Inductive GradEffect : Type :=
| GradKeep
| GradInPlace (g : Grad)
| GradAssign (g : option Grad).

(** The libraries the script calls (PyTorch, foolbox, the csl datasets and
    model wrapper), as functions of the library state.  Every call may
    raise. *)
Record Library (Lib : Type) : Type := {
  construct : Ctor -> Lib -> result unit * Lib;
  dual_init : Q;
  dataset_len : Dataset -> nat;
  dataset_getitem : Dataset -> Index -> Lib -> result (Batch * Labels) * Lib;
  model_forward : bool -> bool -> Batch -> Lib -> result Logits * Lib;
  cross_entropy : Logits -> Labels -> result Q;
  attack_scalar :
    LinfPGD -> FoolboxModel -> Batch -> Labels -> Q -> World Lib ->
    result (Batch * Batch * list bool) * Lib * list GradEffect;
  attack_array :
    LinfPGD -> FoolboxModel -> Batch -> Labels -> list Q -> World Lib ->
    result (list Batch * list Batch * list (list bool)) * Lib * list GradEffect
}.
Arguments construct {Lib} l.
Arguments dual_init {Lib} l.
Arguments dataset_len {Lib} l.
Arguments dataset_getitem {Lib} l.
Arguments model_forward {Lib} l.
Arguments cross_entropy {Lib} l.
Arguments attack_scalar {Lib} l.
Arguments attack_array {Lib} l.

(* ===================================================================== *)
(** * Runs: state, log and exceptions *)
(* ===================================================================== *)

Record Outcome (Lib A : Type) : Type := {
  out_res : result A;
  out_world : World Lib;
  out_log : list Event
}.
Arguments out_res {Lib A} o.
Arguments out_world {Lib A} o.
Arguments out_log {Lib A} o.
Arguments Build_Outcome {Lib A} out_res out_world out_log.

Definition M (Lib A : Type) : Type := World Lib -> Outcome Lib A.

Definition ret {Lib A} (a : A) : M Lib A :=
  fun w => Build_Outcome (Ok a) w [].

Definition bind {Lib A B} (m : M Lib A) (k : A -> M Lib B) : M Lib B :=
  fun w =>
    let o := m w in
    match out_res o with
    | Ok a =>
        let o' := k a (out_world o) in
        Build_Outcome (out_res o') (out_world o') (out_log o ++ out_log o')
    | Raise e => Build_Outcome (Raise e) (out_world o) (out_log o)
    end.

Notation "'let*' x ':=' m 'in' k" := (bind m (fun x => k))
  (at level 10, x name, m at level 100, k at level 200).
Notation "'let*' ' p ':=' m 'in' k" := (bind m (fun x => match x with p => k end))
  (at level 10, p pattern, m at level 100, k at level 200).

(** An exception raised by the script's own expression or by a call *)
Definition raise {Lib A} (e : exn) : M Lib A :=
  fun w => Build_Outcome (Raise e) w [EvRaised e].

Definition lift_result {Lib A} (r : result A) : M Lib A :=
  match r with
  | Ok a => ret a
  | Raise e => raise e
  end.

Definition emit {Lib} (ev : Event) : M Lib unit :=
  fun w => Build_Outcome (Ok tt) w [ev].

Definition set_lib {Lib} (l : Lib) (w : World Lib) : World Lib :=
  {| lib := l; training := training w; grad_enabled := grad_enabled w;
     param_grads := param_grads w; heap := heap w; lambdas := lambdas w |}.

Definition set_training {Lib} (b : bool) (w : World Lib) : World Lib :=
  {| lib := lib w; training := b; grad_enabled := grad_enabled w;
     param_grads := param_grads w; heap := heap w; lambdas := lambdas w |}.

Definition set_grad_enabled {Lib} (b : bool) (w : World Lib) : World Lib :=
  {| lib := lib w; training := training w; grad_enabled := b;
     param_grads := param_grads w; heap := heap w; lambdas := lambdas w |}.

Definition set_grads {Lib} (gs : list (option loc)) (h : gmap loc Grad)
    (w : World Lib) : World Lib :=
  {| lib := lib w; training := training w; grad_enabled := grad_enabled w;
     param_grads := gs; heap := h; lambdas := lambdas w |}.

Definition set_lambdas {Lib} (ls : list Q) (w : World Lib) : World Lib :=
  {| lib := lib w; training := training w; grad_enabled := grad_enabled w;
     param_grads := param_grads w; heap := heap w; lambdas := ls |}.

Definition get {Lib} : M Lib (World Lib) :=
  fun w => Build_Outcome (Ok w) w [].

Definition modify {Lib} (f : World Lib -> World Lib) : M Lib unit :=
  fun w => Build_Outcome (Ok tt) (f w) [].

(** A library call: logged, then its exception, if any, is raised. *)
Definition lib_call {Lib A} (ev : Event) (f : Lib -> result A * Lib) : M Lib A :=
  fun w =>
    let r := f (lib w) in
    match r.1 with
    | Ok a => Build_Outcome (Ok a) (set_lib r.2 w) [ev]
    | Raise e => Build_Outcome (Raise e) (set_lib r.2 w) [ev; EvRaised e]
    end.

(** [with torch.no_grad(): body] disables gradient tracking for [body]
    and puts the previous mode back when the block is left, normally or
    by an exception. *)
Definition no_grad {Lib A} (body : M Lib A) : M Lib A :=
  fun w =>
    let o := body (set_grad_enabled false w) in
    Build_Outcome (out_res o) (set_grad_enabled (grad_enabled w) (out_world o)) (out_log o).

(** [for a in l: s = body a s] *)
Fixpoint for_each {Lib A S} (l : list A) (s : S) (body : A -> S -> M Lib S) : M Lib S :=
  match l with
  | [] => ret s
  | a :: tl => let* s' := body a s in for_each tl s' body
  end.

(* ===================================================================== *)
(** * Gradient objects: deepcopy, restore, and what an attack may do *)
(* ===================================================================== *)

(** The value a [.grad] field denotes *)
Definition deref (h : gmap loc Grad) (g : option loc) : option Grad :=
  l ← g; h !! l.

Definition grad_values {Lib} (w : World Lib) : list (option Grad) :=
  map (deref (heap w)) (param_grads w).

(** [copy.deepcopy(p.grad)]: [None] stays [None]; a tensor is copied into
    a new object.  (A reference to no object does not occur in a running
    program; it is copied as [None].) *)
Definition deepcopy (g : option loc) (h : gmap loc Grad) : option loc * gmap loc Grad :=
  match g with
  | None => (None, h)
  | Some l =>
      match h !! l with
      | Some t => let l' := fresh (dom h) in (Some l', <[l' := t]> h)
      | None => (None, h)
      end
  end.

(** [[copy.deepcopy(p.grad) for p in self.model.parameters]] *)
Fixpoint deepcopy_all (gs : list (option loc)) (h : gmap loc Grad)
  : list (option loc) * gmap loc Grad :=
  match gs with
  | [] => ([], h)
  | g :: tl =>
      let c := deepcopy g h in
      let r := deepcopy_all tl c.2 in
      (c.1 :: r.1, r.2)
  end.

(** [for p, g in zip(self.model.parameters, saved_grad): p.grad = g] *)
Fixpoint restore_grads (gs saved : list (option loc)) : list (option loc) :=
  match gs, saved with
  | _ :: gs', s :: saved' => s :: restore_grads gs' saved'
  | _, _ => gs
  end.

Definition apply_effect (g : option loc) (e : GradEffect) (h : gmap loc Grad)
  : option loc * gmap loc Grad :=
  match e with
  | GradKeep => (g, h)
  | GradInPlace t =>
      match g with
      | Some l => (g, <[l := t]> h)
      | None => (g, h)
      end
  | GradAssign None => (None, h)
  | GradAssign (Some t) => let l := fresh (dom h) in (Some l, <[l := t]> h)
  end.

(** The effects of an attack, parameter by parameter *)
Fixpoint apply_effects (gs : list (option loc)) (effs : list GradEffect)
    (h : gmap loc Grad) : list (option loc) * gmap loc Grad :=
  match gs, effs with
  | g :: gs', e :: effs' =>
      let c := apply_effect g e h in
      let r := apply_effects gs' effs' c.2 in
      (c.1 :: r.1, r.2)
  | _, _ => (gs, h)
  end.

(** A [.grad] field that refers to an object of the heap, or to none *)
Definition allocated_in (h : gmap loc Grad) (g : option loc) : Prop :=
  match g with
  | Some l => is_Some (h !! l)
  | None => True
  end.

(** No [.grad] field refers to a missing object. *)
Definition grads_wf {Lib} (w : World Lib) : Prop :=
  Forall (allocated_in (heap w)) (param_grads w).

(* ===================================================================== *)
(** * The script *)
(* ===================================================================== *)

(** Perturbation magnitude (line 27) *)
Definition eps : Q := 0.02%Q.

(** NumPy and Python helpers used by the script *)

(** [np.linspace(start, stop, num)]: [num] samples [start + i*step] with
    [step = (stop - start)/(num - 1)]; the last one is set to [stop]. *)
Definition np_linspace (start stop : Q) (num : nat) : list Q :=
  let step := ((stop - start) / inject_Z (Z.of_nat (num - 1)))%Q in
  let y := map (fun i => (start + inject_Z (Z.of_nat i) * step)%Q) (seq 0 num) in
  if 1 <? num then <[num - 1 := stop]> y else y.

Definition np_zeros (n : nat) : list Q := replicate n 0%Q.

(** [a[i]] *)
Definition list_index {A} (a : list A) (i : nat) : result A :=
  match a !! i with
  | Some x => Ok x
  | None => Raise IndexError
  end.

(** [enumerate(l)] *)
Definition enumerate {A} (l : list A) : list (nat * A) := zip (seq 0 (length l)) l.

(** [a / n] for a float [a] and a Python integer [n] *)
Definition float_div_int (a : Q) (n : nat) : result Q :=
  if n =? 0 then Raise ZeroDivisionError
  else Ok (a / inject_Z (Z.of_nat n))%Q.

Definition of_nat (n : nat) : Q := inject_Z (Z.of_nat n).

(** Bound methods of the problem object, by name *)
Inductive ObjectiveMethod : Type := Method_obj_fun.
Inductive ConstraintMethod : Type := Method_adversarialLoss.

(** The attributes of a [robustLoss] object (lines 81-100) *)
Record robustLoss : Type := {
  model : Model;
  data : Dataset;
  batch_size : nat;
  obj_function : ObjectiveMethod;
  constraints : list ConstraintMethod;
  rhs : list Q;
  foolbox_model : FoolboxModel;
  attack : LinfPGD
}.

(** What the test phase reports (lines 243-250) *)
Record TestReport : Type := {
  report_acc_test : Q;
  report_acc_adv : list Q;
  report_success_adv : list Q
}.

Section Script.

Context {Lib : Type} (L : Library Lib).

(** [self.model.eval()] and [self.model.train()] *)
Definition model_eval : M Lib unit :=
  let* _ := emit EvModelEval in modify (set_training false).

Definition model_train : M Lib unit :=
  let* _ := emit EvModelTrain in modify (set_training true).

(** [self.model(input)]: a forward pass in the current mode; its output
    is tracked by autograd when gradients are enabled. *)
Definition model_call (input : Batch) : M Lib (Tracked Logits) :=
  let* w := get in
  let* yhat := lib_call (EvForward (training w) (grad_enabled w) input)
                 (model_forward L (training w) (grad_enabled w) input) in
  ret {| value := yhat; requires_grad := grad_enabled w |}.

(** [_loss(yhat, y) = F.cross_entropy(yhat, y)] (lines 137-139) *)
Definition _loss (yhat : Tracked Logits) (y : Labels) : M Lib (Tracked Q) :=
  let* w := get in
  let* v := lib_call (EvCrossEntropy (value yhat) y)
              (fun l => (cross_entropy L (value yhat) y, l)) in
  ret {| value := v; requires_grad := requires_grad yhat && grad_enabled w |}.

(** [d[i]] *)
Definition getitem (d : Dataset) (i : Index) : M Lib (Batch * Labels) :=
  lib_call (EvGetItem d i) (dataset_getitem L d i).

Definition new (c : Ctor) : M Lib unit :=
  lib_call (EvConstruct c) (construct L c).

(** [attack(fmodel, x, y, epsilons = e)] with a number [e]: the library
    runs, what it did to the gradients is applied to the world, and the
    triple (raw, clipped, success) is returned or the exception raised. *)
Definition run_attack_scalar (a : LinfPGD) (fm : FoolboxModel) (x : Batch) (y : Labels)
    (e : Q) : M Lib (Batch * Batch * list bool) :=
  fun w =>
    let r := attack_scalar L a fm x y e w in
    let g := apply_effects (param_grads w) r.2 (heap w) in
    let w' := set_grads g.1 g.2 (set_lib r.1.2 w) in
    match r.1.1 with
    | Ok v => Build_Outcome (Ok v) w' [EvAttack a fm x y (EpsScalar e)]
    | Raise e' => Build_Outcome (Raise e') w' [EvAttack a fm x y (EpsScalar e); EvRaised e']
    end.

(** The same call with an array of magnitudes: one result per magnitude *)
Definition run_attack_array (a : LinfPGD) (fm : FoolboxModel) (x : Batch) (y : Labels)
    (es : list Q) : M Lib (list Batch * list Batch * list (list bool)) :=
  fun w =>
    let r := attack_array L a fm x y es w in
    let g := apply_effects (param_grads w) r.2 (heap w) in
    let w' := set_grads g.1 g.2 (set_lib r.1.2 w) in
    match r.1.1 with
    | Ok v => Build_Outcome (Ok v) w' [EvAttack a fm x y (EpsArray es)]
    | Raise e' => Build_Outcome (Raise e') w' [EvAttack a fm x y (EpsArray es); EvRaised e']
    end.

(** Modelled from the spec: [csl.ConstrainedLearningProblem.__init__] is
    not part of the source at hand.  The spec keeps "a scalar dual
    variable per constraint"; accordingly the base initialiser creates one
    dual variable for every constraint of the problem, with the library's
    initial value, and leaves the attributes set by the subclass alone. *)
Definition ConstrainedLearningProblem_init (self : robustLoss) : M Lib unit :=
  let* _ := emit EvBaseInit in
  modify (set_lambdas (map (fun _ => dual_init L) (constraints self))).

(** [robustLoss.__init__(self, rhs)] (lines 81-100) *)
Definition robustLoss_init (rhs : Q) : M Lib robustLoss :=
  let* _ := new NewModel in
  let model := PytorchModel_ResNet18 in
  let data := trainset in
  let batch_size := 256 in
  let obj_function := Method_obj_fun in
  let constraints := [Method_adversarialLoss] in
  let rhs := [rhs] in
  let foolbox_model :=
    {| bounds := (0, 1)%Q;
       preprocessing_mean := [0.4914; 0.4822; 0.4465]%Q;
       preprocessing_std := [0.2023; 0.1994; 0.2010]%Q;
       preprocessing_axis := (-3)%Z |} in
  let* _ := new (NewFoolboxModel foolbox_model) in
  let attack :=
    {| rel_stepsize := (1 / 3)%Q; abs_stepsize := None;
       steps := 5; random_start := true |} in
  let* _ := new (NewAttack attack) in
  let self :=
    {| model := model; data := data; batch_size := batch_size;
       obj_function := obj_function; constraints := constraints; rhs := rhs;
       foolbox_model := foolbox_model; attack := attack |} in
  let* _ := ConstrainedLearningProblem_init self in
  ret self.

(** [problem = robustLoss(rhs=0.7)] (line 180) *)
Definition problem : M Lib robustLoss := robustLoss_init 0.7%Q.

(** [obj_fun(self, batch_idx)] (lines 102-107) *)
Definition obj_fun (self : robustLoss) (batch_idx : list nat) : M Lib (Tracked Q) :=
  let* '(x, y) := getitem (data self) (IdxList batch_idx) in
  let* input := lift_result (preprocess x) in
  let* yhat := model_call input in
  let* loss := _loss yhat y in
  ret {| value := (0.1 * value loss)%Q; requires_grad := requires_grad loss |}.

(** [adversarialLoss(self, batch_idx, primal)] (lines 109-135) *)
Definition adversarialLoss (self : robustLoss) (batch_idx : list nat) (primal : bool)
  : M Lib (Tracked Q) :=
  let* '(x, y) := getitem (data self) (IdxList batch_idx) in
  (* Attack *)
  let* _ := model_eval in
  (* Save gradients before adversarial runs *)
  let* w := get in
  let copies := deepcopy_all (param_grads w) (heap w) in
  let saved_grad := copies.1 in
  let* _ := modify (set_grads (param_grads w) copies.2) in
  let* '(x_processed, _, _) :=
    run_attack_scalar (attack self) (foolbox_model self) x y eps in
  (* Reload gradients *)
  let* _ := modify (fun w => set_grads (restore_grads (param_grads w) saved_grad) (heap w) w) in
  if primal then
    let* _ := model_train in
    let* input := lift_result (preprocess x_processed) in
    let* yhat := model_call input in
    let* loss := _loss yhat y in
    ret loss
  else
    let* loss := no_grad (
      let* input := lift_result (preprocess x_processed) in
      let* yhat := model_call input in
      _loss yhat y) in
    let* _ := model_train in
    ret loss.

(** Calling the bound methods stored in the problem *)
Definition call_objective (self : robustLoss) (m : ObjectiveMethod)
  : list nat -> M Lib (Tracked Q) :=
  match m with Method_obj_fun => obj_fun self end.

Definition call_constraint (self : robustLoss) (m : ConstraintMethod)
  : list nat -> bool -> M Lib (Tracked Q) :=
  match m with Method_adversarialLoss => adversarialLoss self end.

(** [validation_hook(problem, solver_state)] (lines 144-178) *)
Definition validation_hook {S : Type} (problem : robustLoss) (solver_state : S)
  : M Lib bool :=
  let adv_epoch := 10 in
  let _adv_epoch := adv_epoch in
  let n := dataset_len L validset in
  let* batch_idx := lift_result (batch_idx n (batch_size problem)) in
  (* Validate *)
  let acc := 0%Q in
  let acc_adv := 0%Q in
  let* _ := model_eval in
  let* '(acc, acc_adv) :=
    for_each (batches batch_idx) (acc, acc_adv)
      (fun '(batch_start, batch_end) '(acc, acc_adv) =>
         let* '(x, y) := getitem validset (IdxSlice batch_start batch_end) in
         let* acc := no_grad (
           let* input := lift_result (preprocess x) in
           let* yhat := model_call input in
           let* a := lift_result (accuracy (value yhat) y) in
           ret (acc + a * of_nat (batch_end - batch_start) / of_nat n)%Q) in
         (* Attack *)
         if _adv_epoch =? 1 then
           let* '(adversarial, _, _) :=
             run_attack_scalar (attack problem) (foolbox_model problem) x y eps in
           let* acc_adv := no_grad (
             let* input := lift_result (preprocess adversarial) in
             let* yhat_adv := model_call input in
             let* a := lift_result (accuracy (value yhat_adv) y) in
             ret (acc_adv + a * of_nat (batch_end - batch_start) / of_nat n)%Q) in
           ret (acc, acc_adv)
         else ret (acc, acc_adv)) in
  let* _ := model_train in
  (* Results *)
  if 1 <? _adv_epoch then
    let* w := get in
    let* _ := emit (EvPrint (LineValidationDual (acc * 100)%Q (lambdas w))) in
    let _adv_epoch := _adv_epoch - 1 in
    ret false
  else
    let* _ := emit (EvPrint (LineValidationAdversarial (acc * 100)%Q (acc_adv * 100)%Q)) in
    let _adv_epoch := adv_epoch in
    ret false.

(** The test phase (lines 202-250) *)
Definition epsilon_test : list Q := np_linspace 0.01%Q 0.06%Q 7.

(** Lines 202-241: the test set, the attack, and the accumulation over the
    batches of the number of samples, the weighted clean accuracy, and per
    magnitude the weighted adversarial accuracy and the success count *)
Definition test_sums (problem : robustLoss) : M Lib (nat * Q * list Q * list Q) :=
  (* Test data *)
  let* _ := new NewTestset in
  (* Adversarial attack *)
  let* _ := model_eval in
  let foolbox_model :=
    {| bounds := (0, 1)%Q;
       preprocessing_mean := [0.4914; 0.4822; 0.4465]%Q;
       preprocessing_std := [0.2023; 0.1994; 0.2010]%Q;
       preprocessing_axis := (-3)%Z |} in
  let* _ := new (NewFoolboxModel foolbox_model) in
  let attack :=
    {| rel_stepsize := (1 / 30)%Q; abs_stepsize := None;
       steps := 50; random_start := true |} in
  let* _ := new (NewAttack attack) in
  let epsilon_test := epsilon_test in
  (* Prepare batches *)
  let n := dataset_len L testset in
  let* batch_idx := lift_result (batch_idx n (batch_size problem)) in
  let n_total := 0 in
  let acc_test := 0%Q in
  let acc_adv := np_zeros (length epsilon_test) in
  let success_adv := np_zeros (length acc_adv) in
  for_each (batches batch_idx) (n_total, acc_test, acc_adv, success_adv)
    (fun '(batch_start, batch_end) '(n_total, acc_test, acc_adv, success_adv) =>
       let* '(x_test, y_test) := getitem testset (IdxSlice batch_start batch_end) in
       (* Nominal accuracy *)
       let* input := lift_result (preprocess x_test) in
       let* yhat := model_call input in
       let* a := lift_result (accuracy (value yhat) y_test) in
       let acc_test := (acc_test + a * of_nat (batch_end - batch_start))%Q in
       (* Adversarials accuracy *)
       let* '(adversarials, _, success) :=
         run_attack_array attack foolbox_model x_test y_test epsilon_test in
       let* '(acc_adv, success_adv) :=
         for_each (enumerate adversarials) (acc_adv, success_adv)
           (fun '(ii, adv) '(acc_adv, success_adv) =>
              let* input := lift_result (preprocess adv) in
              let* yhat_adv := model_call input in
              let* old := lift_result (list_index acc_adv ii) in
              let* a := lift_result (accuracy (value yhat_adv) y_test) in
              let acc_adv :=
                <[ii := (old + a * of_nat (batch_end - batch_start))%Q]> acc_adv in
              let* old := lift_result (list_index success_adv ii) in
              let* s := lift_result (list_index success ii) in
              let success_adv := <[ii := (old + of_nat (tensor_sum s))%Q]> success_adv in
              ret (acc_adv, success_adv)) in
       let n_total := n_total + (batch_end - batch_start) in
       ret (n_total, acc_test, acc_adv, success_adv)).

(** Lines 243-250: the averages and the report *)
Definition test (problem : robustLoss) : M Lib TestReport :=
  let* '(n_total, acc_test, acc_adv, success_adv) := test_sums problem in
  let* acc_test := lift_result (float_div_int acc_test n_total) in
  let acc_adv := map (fun v => (v / of_nat n_total)%Q) acc_adv in
  let success_adv := map (fun v => (v / of_nat n_total)%Q) success_adv in
  let* _ := emit (EvPrint LineTestHeader) in
  let* _ := emit (EvPrint (LineTestAccuracy (100 * acc_test)%Q)) in
  let* _ := emit (EvPrint (LineAdversarialAccuracy (map (fun v => (100 * v)%Q) acc_adv))) in
  let* _ := emit (EvPrint (LineAdversarialSuccess (map (fun v => (100 * v)%Q) success_adv))) in
  ret {| report_acc_test := acc_test;
         report_acc_adv := acc_adv;
         report_success_adv := success_adv |}.

End Script.

(* ===================================================================== *)
(** * Specification vocabulary *)
(* ===================================================================== *)

(** A result without its payload *)
Definition erase {A} (r : result A) : result unit :=
  match r with
  | Ok _ => Ok tt
  | Raise e => Raise e
  end.

(** [sat Phi m Q]: in every world, the way [m] ends and what it logs
    satisfy [Phi], and a value it returns satisfies [Q]. *)
Definition sat {Lib A} (Phi : result unit -> list Event -> Prop)
    (m : M Lib A) (Q : A -> Prop) : Prop :=
  forall w,
    Phi (erase (out_res (m w))) (out_log (m w)) /\
    forall a, out_res (m w) = Ok a -> Q a.

(** [runs m w r w' log]: started in [w], [m] ends with [r] in world [w'],
    having logged [log]. *)
Definition runs {Lib A} (m : M Lib A) (w : World Lib) (r : result A)
    (w' : World Lib) (log : list Event) : Prop :=
  m w = Build_Outcome r w' log.

(** Every logged event satisfies [P]. *)
Definition always (P : Event -> Prop) : result unit -> list Event -> Prop :=
  fun _ log => Forall P log.



(** [m] leaves the gradient fields and the gradient objects alone. *)
Definition keeps_grads {Lib A} (m : M Lib A) : Prop :=
  forall w,
    param_grads (out_world (m w)) = param_grads w /\
    heap (out_world (m w)) = heap w.

(** Does the log record an attack call that raised? *)
Fixpoint attack_raised (log : list Event) : bool :=
  match log with
  | EvAttack _ _ _ _ _ :: ((EvRaised _ :: _) as tl) => true
  | _ :: tl => attack_raised tl
  | [] => false
  end.

(** The events of a log that are model calls, attacks, prints *)
Definition is_forward (ev : Event) : bool :=
  match ev with EvForward _ _ _ => true | _ => false end.

Definition is_attack (ev : Event) : bool :=
  match ev with EvAttack _ _ _ _ _ => true | _ => false end.

Definition is_print (ev : Event) : bool :=
  match ev with EvPrint _ => true | _ => false end.

Definition is_raised (ev : Event) : bool :=
  match ev with EvRaised _ => true | _ => false end.



(** The events of the adversarial branch of the validation hook: the
    attack and the adversarial-accuracy line *)
Definition adversarial_branch (ev : Event) : bool :=
  match ev with
  | EvAttack _ _ _ _ _ => true
  | EvPrint (LineValidationAdversarial _ _) => true
  | _ => false
  end.

(** [k] consecutive calls of the validation hook *)
Fixpoint validation_hook_calls {Lib S} (L : Library Lib) (problem : robustLoss)
    (solver_state : S) (k : nat) : M Lib unit :=
  match k with
  | 0 => ret tt
  | S k' =>
      let* _ := validation_hook L problem solver_state in
      validation_hook_calls L problem solver_state k'
  end.

(** What the test phase may log: attacks sweep [epsilon_test],
    and the two printed arrays have one entry per magnitude. *)
Definition sweep_event (ev : Event) : Prop :=
  match ev with
  | EvAttack _ _ _ _ es => es = EpsArray epsilon_test
  | EvPrint (LineAdversarialAccuracy l) => length l = length epsilon_test
  | EvPrint (LineAdversarialSuccess l) => length l = length epsilon_test
  | _ => True
  end.

(** The lines a run printed, in order *)
Definition prints (log : list Event) : list OutputLine :=
  omap (fun ev => match ev with EvPrint line => Some line | _ => None end) log.

(* ===================================================================== *)
(** * A small library to run the script on *)
(* ===================================================================== *)

(** The library state is the number of calls that will still succeed;
    after that every call raises.  Images are 3 x 1 x 1. *)
Module Toy.

Definition device_error : exn := RuntimeError "CUDA error".

(** A generator without state, whose shuffle reverses *)
Definition RandomState (seed : Z) : unit := tt.

Definition permutation (g : unit) (idx : list nat) : list nat * unit := (rev idx, g).

Definition call {A} (a : A) (l : nat) : result A * nat :=
  match l with
  | 0 => (Raise device_error, 0)
  | S l' => (Ok a, l')
  end.

Definition image (i : nat) : Image :=
  [[[of_nat i]]; [[1%Q]]; [[0.5%Q]]].

Definition sample_indices (i : Index) : list nat :=
  match i with
  | IdxList idx => idx
  | IdxSlice a b => seq a (b - a)
  end.

Definition samples (d : Dataset) (i : Index) : nat -> result (Batch * Labels) * nat :=
  call (map image (sample_indices i), map (fun k => k mod 2) (sample_indices i)).

Definition len (d : Dataset) : nat :=
  match d with
  | trainset => 4
  | validset => 3
  | testset => 3
  end.

Definition first_pixel (ch : list (list Q)) : Q := hd 0%Q (hd [] ch).

Definition net (training grad : bool) (x : Batch) : nat -> result Logits * nat :=
  call (map (fun im => map first_pixel (take 2 im)) x).

Definition shift (e : Q) (x : Batch) : Batch :=
  map (map (map (map (fun v => (v + e)%Q)))) x.

Definition effects : list GradEffect :=
  [GradInPlace [7%Q]; GradAssign None; GradAssign (Some [8%Q]); GradKeep].

Definition pgd_scalar (a : LinfPGD) (fm : FoolboxModel) (x : Batch) (y : Labels)
    (e : Q) (w : World nat) : result (Batch * Batch * list bool) * nat * list GradEffect :=
  (call (shift e x, shift e x, map (fun _ => true) y) (lib w), effects).

Definition pgd_array (a : LinfPGD) (fm : FoolboxModel) (x : Batch) (y : Labels)
    (es : list Q) (w : World nat)
  : result (list Batch * list Batch * list (list bool)) * nat * list GradEffect :=
  (call (map (fun e => shift e x) es, map (fun e => shift e x) es,
         map (fun _ => map (fun k => k =? 0) y) es) (lib w), effects).

Definition library : Library nat :=
  {| construct := fun _ => call tt;
     dual_init := 0%Q;
     dataset_len := len;
     dataset_getitem := samples;
     model_forward := net;
     cross_entropy := fun yhat y => Ok (of_nat (length yhat));
     attack_scalar := pgd_scalar;
     attack_array := pgd_array |}.

(** A world with four parameters, one of them without gradient, in which
    the next [fuel] library calls succeed *)
Definition world (fuel : nat) : World nat :=
  {| lib := fuel; training := true; grad_enabled := true;
     param_grads := [Some 1%positive; Some 2%positive; None; Some 3%positive];
     heap := <[1%positive := [1%Q]]> (<[2%positive := [2%Q]]> (<[3%positive := [3%Q]]> ∅));
     lambdas := [0%Q] |}.

Definition problem : robustLoss :=
  {| model := PytorchModel_ResNet18; data := trainset; batch_size := 2;
     obj_function := Method_obj_fun; constraints := [Method_adversarialLoss];
     rhs := [0.7%Q];
     foolbox_model :=
       {| bounds := (0, 1)%Q; preprocessing_mean := mean; preprocessing_std := std;
          preprocessing_axis := (-3)%Z |};
     attack :=
       {| rel_stepsize := (1 / 3)%Q; abs_stepsize := None; steps := 5;
          random_start := true |} |}.

End Toy.

(* ===================================================================== *)
(** * Vocabulary for the further properties *)
(* ===================================================================== *)

(** [m] leaves the component [f] of the world as it found it, however it
    ends. *)
Definition keeps_field {Lib A X} (f : World Lib -> X) (m : M Lib A) : Prop :=
  forall w, f (out_world (m w)) = f w.

(** Everything of the world but the library state and the model mode *)
Definition outside_lib_and_mode {Lib} (w : World Lib)
  : bool * list (option loc) * gmap loc Grad * list Q :=
  (grad_enabled w, param_grads w, heap w, lambdas w).

(** A forward pass made in mode [tr] with gradient mode [gr] *)
Definition forward_flags (tr gr : bool) (ev : Event) : Prop :=
  match ev with
  | EvForward t g _ => t = tr /\ g = gr
  | _ => True
  end.

(** The model mode and the gradient mode of a world *)
Definition mode {Lib} (w : World Lib) : bool * bool := (training w, grad_enabled w).

(** Started in mode [pre], [m] logs only events that satisfy [P], and
    when it returns the mode is [post]. *)
Definition modal {Lib A} (pre post : bool * bool) (P : Event -> Prop) (m : M Lib A)
  : Prop :=
  forall w, mode w = pre ->
    Forall P (out_log (m w)) /\
    forall a, out_res (m w) = Ok a -> mode (out_world (m w)) = post.

(** The data reads of a log, in order *)
Definition reads (log : list Event) : list (Dataset * Index) :=
  omap (fun ev => match ev with EvGetItem d i => Some (d, i) | _ => None end) log.

(** When [m] returns, it has read [g], and its value satisfies [Q]. *)
Definition reads_on_return {Lib A} (m : M Lib A) (g : list (Dataset * Index))
    (Q : A -> Prop) : Prop :=
  forall w a, out_res (m w) = Ok a -> reads (out_log (m w)) = g /\ Q a.

(** The slices of dataset [d] between consecutive boundaries of [idx] *)
Definition batch_slices (d : Dataset) (idx : list nat) : list (Dataset * Index) :=
  map (fun p => (d, IdxSlice p.1 p.2)) (batches idx).

(** * A library without data *)

(** Constructors always succeed and every dataset is empty. *)
Module NoData.

Definition library : Library nat :=
  {| construct := fun _ l => (Ok tt, l);
     dual_init := 0%Q;
     dataset_len := fun _ => 0;
     dataset_getitem := Toy.samples;
     model_forward := Toy.net;
     cross_entropy := fun yhat y => Ok (of_nat (length yhat));
     attack_scalar := Toy.pgd_scalar;
     attack_array := Toy.pgd_array |}.

End NoData.

(** * Ten balanced classes *)

(** Labels shaped like those of the CIFAR-10 training set, 5000 samples
    of each of the ten classes, and a generator whose shuffle reverses. *)
Module Balanced.

Definition RandomState (seed : Z) : unit := tt.

Definition permutation (g : unit) (idx : list nat) : list nat * unit :=
  (rev_append idx [], g).

Definition target : list nat := concat (repeat (seq 0 10) 5000).

End Balanced.

(* ===================================================================== *)
(** * A library with a recorder *)
(* ===================================================================== *)

(** How a call ended: [None] for a return, [Some e] for the exception *)
Definition outcome_of {A} (r : result A) : option exn :=
  match r with
  | Ok _ => None
  | Raise e => Some e
  end.

(** A library function that also records how each of its calls ended *)
Definition watched {Lib A} (g : Lib -> result A * Lib)
  : Lib * list (option exn) -> result A * (Lib * list (option exn)) :=
  fun s => let r := g s.1 in (r.1, (r.2, s.2 ++ [outcome_of r.1])).

(** The world the recorded library runs in, without the record *)
Definition unwatch {Lib} (w : World (Lib * list (option exn))) : World Lib :=
  {| lib := (lib w).1; training := training w; grad_enabled := grad_enabled w;
     param_grads := param_grads w; heap := heap w; lambdas := lambdas w |}.

(** [watch L] is [L] with a recorder: its state is the state of [L]
    together with the outcomes, in order, of the calls made so far to the
    constructors, the datasets, the model and the attacks.  The values it
    returns, the exceptions it raises and what it does to the gradients
    are those of [L]; [cross_entropy], a function of its arguments, is
    that of [L]. *)
Definition watch {Lib} (L : Library Lib) : Library (Lib * list (option exn)) :=
  {| construct := fun c => watched (construct L c);
     dual_init := dual_init L;
     dataset_len := dataset_len L;
     dataset_getitem := fun d i => watched (dataset_getitem L d i);
     model_forward := fun t g x => watched (model_forward L t g x);
     cross_entropy := cross_entropy L;
     attack_scalar := fun a fm x y e w =>
       let r := attack_scalar L a fm x y e (unwatch w) in
       (r.1.1, (r.1.2, (lib w).2 ++ [outcome_of r.1.1]), r.2);
     attack_array := fun a fm x y es w =>
       let r := attack_array L a fm x y es (unwatch w) in
       (r.1.1, (r.1.2, (lib w).2 ++ [outcome_of r.1.1]), r.2) |}.

(** The record kept by the library of a world *)
Definition history {Lib} (w : World (Lib * list (option exn))) : list (option exn) :=
  (lib w).2.

(** The events of the calls the recorder sees *)
Definition is_recorded_call (ev : Event) : bool :=
  match ev with
  | EvConstruct _ | EvGetItem _ _ | EvForward _ _ _ | EvAttack _ _ _ _ _ => true
  | _ => false
  end.

Definition calls (log : list Event) : nat := length (List.filter is_recorded_call log).

(** [fail_stop L m]: in every run of [m] against the recorded library,
    every call event of the log is one recorded call; a recorded call that
    raised [e] is the last call the run made, the run ends right there,
    with the call's event and [e] as the last two entries of its log, and
    its result is [e]; and likewise a cross-entropy call of the log that
    raises [e] in the library ends the run with [e]. *)
Definition fail_stop {Lib A} (L : Library Lib) (m : M (Lib * list (option exn)) A) : Prop :=
  forall w,
    (exists new,
       history (out_world (m w)) = history w ++ new /\
       length new = calls (out_log (m w)) /\
       (Forall (fun o => o = None) new \/
        exists oks e pre ev,
          new = oks ++ [Some e] /\ Forall (fun o => o = None) oks /\
          out_res (m w) = Raise e /\
          out_log (m w) = pre ++ [ev; EvRaised e] /\
          is_recorded_call ev = true)) /\
    (forall yhat y e,
       EvCrossEntropy yhat y ∈ out_log (m w) ->
       cross_entropy L yhat y = Raise e ->
       out_res (m w) = Raise e /\
       exists pre, out_log (m w) = pre ++ [EvCrossEntropy yhat y; EvRaised e]).


(* ===================================================================== *)
(** * The test phase, as measurements followed by averages *)
(* ===================================================================== *)

(** What is measured on one batch of the test set: its size, the accuracy
    of the model on it, the accuracy of the model on its adversarial
    versions, one per magnitude of the sweep, and for each of these the
    number of samples on which the attack succeeded. *)
Record BatchStats : Type := {
  bs_size : nat;
  bs_clean : Q;
  bs_adv : list Q;
  bs_success : list nat
}.

(** [[f a for a in l]] for an effectful [f] *)
Fixpoint mapM {Lib A B} (f : A -> M Lib B) (l : list A) : M Lib (list B) :=
  match l with
  | [] => ret []
  | a :: tl =>
      let* b := f a in
      let* bs := mapM f tl in
      ret (b :: bs)
  end.

Section TestSpecification.

Context {Lib : Type} (L : Library Lib).

(** The accuracy of the model on the batch [x] with labels [y] *)
Definition measure_accuracy (x : Batch) (y : Labels) : M Lib Q :=
  let* input := lift_result (preprocess x) in
  let* yhat := model_call L input in
  lift_result (accuracy (value yhat) y).

(** One batch: read it, measure the clean accuracy, attack it over the
    sweep, and measure the accuracy on every adversarial batch returned.
    Success is counted for the magnitudes for which an adversarial batch
    was returned. *)
Definition measure_batch (a : LinfPGD) (fm : FoolboxModel) (p : nat * nat)
  : M Lib BatchStats :=
  let* '(x, y) := getitem L testset (IdxSlice p.1 p.2) in
  let* acc := measure_accuracy x y in
  let* '(adversarials, _, success) := run_attack_array L a fm x y epsilon_test in
  let* accs := mapM (fun adv => measure_accuracy adv y) adversarials in
  ret {| bs_size := p.2 - p.1;
         bs_clean := acc;
         bs_adv := accs;
         bs_success := map tensor_sum (take (length adversarials) success) |}.

(** The objects of the test phase are built, the model is put in
    evaluation mode, and every batch of the test set is measured. *)
Definition measure (problem : robustLoss) : M Lib (list BatchStats) :=
  let* _ := new L NewTestset in
  let* _ := model_eval in
  let fm :=
    {| bounds := (0, 1)%Q;
       preprocessing_mean := [0.4914; 0.4822; 0.4465]%Q;
       preprocessing_std := [0.2023; 0.1994; 0.2010]%Q;
       preprocessing_axis := (-3)%Z |} in
  let* _ := new L (NewFoolboxModel fm) in
  let a :=
    {| rel_stepsize := (1 / 30)%Q; abs_stepsize := None;
       steps := 50; random_start := true |} in
  let* _ := new L (NewAttack a) in
  let* idx := lift_result (batch_idx (dataset_len L testset) (batch_size problem)) in
  mapM (measure_batch a fm) (batches idx).

End TestSpecification.

(** The number of samples measured *)
Definition stats_total (stats : list BatchStats) : nat :=
  foldl (fun n st => n + bs_size st) 0 stats.

(** The sum over the batches of the clean accuracy, weighted by the size
    of the batch *)
Definition clean_sum (stats : list BatchStats) : Q :=
  foldl (fun s st => (s + bs_clean st * of_nat (bs_size st))%Q) 0%Q stats.

(** For the magnitude of index [ii]: the sum over the batches of the
    adversarial accuracy, weighted by the size of the batch *)
Definition adv_sum (ii : nat) (stats : list BatchStats) : Q :=
  foldl (fun s st =>
           match bs_adv st !! ii with
           | Some a => (s + a * of_nat (bs_size st))%Q
           | None => s
           end) 0%Q stats.

(** For the magnitude of index [ii]: the number of samples on which the
    attack succeeded *)
Definition success_sum (ii : nat) (stats : list BatchStats) : Q :=
  foldl (fun s st =>
           match bs_success st !! ii with
           | Some c => (s + of_nat c)%Q
           | None => s
           end) 0%Q stats.

(** The report: every sum divided by the number of samples, one entry
    per magnitude of the sweep *)
Definition report_of (stats : list BatchStats) : TestReport :=
  let n := stats_total stats in
  {| report_acc_test := (clean_sum stats / of_nat n)%Q;
     report_acc_adv :=
       map (fun ii => (adv_sum ii stats / of_nat n)%Q) (seq 0 (length epsilon_test));
     report_success_adv :=
       map (fun ii => (success_sum ii stats / of_nat n)%Q) (seq 0 (length epsilon_test)) |}.

(** In-place updates [acc[i] += d] for the indices from [i0] on, one per
    increment; an index out of range is skipped. *)
Fixpoint update_sums (acc : list Q) (i0 : nat) (incs : list Q) : list Q :=
  match incs with
  | [] => acc
  | d :: tl =>
      update_sums
        (match acc !! i0 with
         | Some old => <[i0 := (old + d)%Q]> acc
         | None => acc
         end) (S i0) tl
  end.

(** The four accumulators of the test loop after one more batch *)
Definition accumulate (st : nat * Q * list Q * list Q) (b : BatchStats)
  : nat * Q * list Q * list Q :=
  (st.1.1.1 + bs_size b,
   (st.1.1.2 + bs_clean b * of_nat (bs_size b))%Q,
   update_sums st.1.2 0 (map (fun a => (a * of_nat (bs_size b))%Q) (bs_adv b)),
   update_sums st.2 0 (map of_nat (bs_success b))).

(** [agree m1 m2 R]: whenever [m1] returns, [m2] returns too, in the same
    world and with the same log, a value related by [R]. *)
Definition agree {Lib A B} (m1 : M Lib A) (m2 : M Lib B) (R : A -> B -> Prop) : Prop :=
  forall w v1,
    out_res (m1 w) = Ok v1 ->
    exists v2,
      m2 w = Build_Outcome (Ok v2) (out_world (m1 w)) (out_log (m1 w)) /\ R v1 v2.


(* ===================================================================== *)
(** * Properties *)
(* ===================================================================== *)

Lemma ceil_div_succ n b : 0 < b -> ceil_div (n + 1) b = n / b + 1.
Proof.
  intros Hb. unfold ceil_div.
  replace (n + 1 + b - 1) with (n + 1 * b) by lia.
  rewrite Nat.div_add by lia. reflexivity.
Qed.

Lemma multiples_stepped b k : 0 < b -> stepped b (map (fun i => 0 + i * b) (seq 0 k)).
Proof.
  intros Hb. generalize 0 at 2. induction k as [|k IH]; intros s; simpl; [exact I|].
  destruct k as [|k]; simpl; [exact I|].
  split; [lia|]. split; [lia|]. apply (IH (S s)).
Qed.

Lemma multiples_last b k :
  last (map (fun i => 0 + i * b) (seq 0 (S k))) = Some (k * b).
Proof.
  rewrite seq_S, map_app. cbn [map]. apply last_snoc.
Qed.

Lemma multiples_head b k :
  head (map (fun i => 0 + i * b) (seq 0 (S k))) = Some 0.
Proof. reflexivity. Qed.

Lemma stepped_snoc b idx l n :
  stepped b idx -> last idx = Some l -> l < n -> n - l <= b ->
  stepped b (idx ++ [n]).
Proof.
  induction idx as [|x [|y tl] IH]; simpl; intros Hs Hl Hlt Hle.
  - discriminate.
  - injection Hl as ->. auto.
  - destruct Hs as (? & ? & Hs). split; [assumption|]. split; [assumption|].
    apply IH; auto.
Qed.

(** Consecutive slices of a stepped boundary list tile the whole range
    between its first and its last boundary. *)
Lemma visited_stepped b idx a c :
  stepped b idx -> head idx = Some a -> last idx = Some c ->
  visited idx = seq a (c - a) /\ a <= c.
Proof.
  revert a. induction idx as [|x [|y tl] IH]; intros a Hs Hh Hl.
  - discriminate.
  - simpl in *. injection Hh as ->. injection Hl as ->.
    rewrite Nat.sub_diag. split; [reflexivity | lia].
  - injection Hh as ->. destruct Hs as (Hxy & _ & Hs).
    destruct (IH y Hs eq_refl Hl) as [IHv IHle].
    split; [|lia].
    unfold visited, batches in *. simpl. simpl in IHv. rewrite IHv.
    replace (c - a) with ((y - a) + (c - y)) by lia.
    rewrite seq_app. do 2 f_equal. lia.
Qed.

Lemma stepped_batches b idx s e :
  stepped b idx -> (s, e) ∈ batches idx -> s < e /\ e - s <= b.
Proof.
  induction idx as [|x [|y tl] IH]; intros Hs Hin.
  - inversion Hin.
  - inversion Hin.
  - destruct Hs as (Hxy & Hle & Hs).
    unfold batches in *. cbn [tail zip zip_with] in *.
    apply elem_of_cons in Hin as [Heq | Hin].
    + injection Heq as -> ->. split; assumption.
    + apply IH; assumption.
Qed.


Lemma stepped_lookup_lt b idx i j x y :
  stepped b idx -> i < j -> idx !! i = Some x -> idx !! j = Some y -> x < y.
Proof.
  revert i j x. induction idx as [|a [|a' tl] IH]; intros i j x Hs Hij Hi Hj.
  - discriminate.
  - destruct j as [|j]; [lia|]. destruct j; discriminate.
  - destruct Hs as (Hlt & _ & Hs).
    destruct j as [|j]; [lia|]. cbn [lookup list_lookup] in Hj.
    destruct i as [|i].
    + injection Hi as <-. destruct j as [|j].
      * injection Hj as <-. assumption.
      * specialize (IH 0 (S j) a' Hs ltac:(lia) eq_refl Hj). lia.
    + cbn [lookup list_lookup] in Hi. apply (IH i j x Hs); [lia | assumption..].
Qed.

Lemma batch_idx_unfold n b :
  0 < b ->
  batch_idx n b =
    let idx := map (fun i => 0 + i * b) (seq 0 (S (n / b))) in
    if n / b * b <? n then Ok (idx ++ [n]) else Ok idx.
Proof.
  intros Hb. unfold batch_idx, np_arange.
  destruct (Nat.eqb_spec b 0) as [->|_]; [lia|].
  rewrite Nat.sub_0_r, ceil_div_succ by assumption.
  replace (n / b + 1) with (S (n / b)) by lia.
  cbn [result_bind]. rewrite multiples_last. reflexivity.
Qed.

Lemma batch_idx_stepped (n b : nat) :
  1 <= n -> 1 <= b ->
  exists idx,
    batch_idx n b = Ok idx /\ stepped b idx /\ head idx = Some 0 /\ last idx = Some n.
Proof.
  intros Hn Hb.
  assert (Hmul : n / b * b <= n) by (rewrite Nat.mul_comm; apply Nat.Div0.mul_div_le).
  assert (Hmod : n - n / b * b < b).
  { rewrite (Nat.div_mod_eq n b) at 1.
    pose proof (Nat.mod_upper_bound n b ltac:(lia)). lia. }
  pose proof (multiples_stepped b (S (n / b)) ltac:(lia)) as Hst.
  pose proof (multiples_last b (n / b)) as Hlast.
  pose proof (multiples_head b (n / b)) as Hhead.
  rewrite batch_idx_unfold by lia. cbv zeta.
  set (idx0 := map (fun i => 0 + i * b) (seq 0 (S (n / b)))) in *.
  destruct (Nat.ltb_spec (n / b * b) n) as [Hlt | Hge].
  - exists (idx0 ++ [n]). split; [reflexivity|]. split.
    + apply (stepped_snoc b idx0 (n / b * b) n); [assumption.. | lia].
    + split; [|apply last_snoc].
      destruct idx0; [discriminate | exact Hhead].
  - exists idx0. split; [reflexivity|]. split; [assumption|]. split; [assumption|].
    rewrite Hlast. f_equal. lia.
Qed.

Lemma batch_sizes_sum_stepped b idx a c :
  stepped b idx -> head idx = Some a -> last idx = Some c ->
  batch_sizes_sum (batches idx) = c - a /\ a <= c.
Proof.
  revert a. induction idx as [|x [|y tl] IH]; intros a Hs Hh Hl.
  - discriminate.
  - simpl in *. injection Hh as ->. injection Hl as ->. split; [cbn; lia | lia].
  - injection Hh as ->. destruct Hs as (Hxy & _ & Hs).
    destruct (IH y Hs eq_refl Hl) as [IHv IHle]. split; [|lia].
    unfold batches in *. unfold batch_sizes_sum in *. simpl. simpl in IHv.
    rewrite IHv. lia.
Qed.

(** Whenever the boundaries are built at all, the batch sizes add up to
    the size of the dataset. *)
Lemma batch_sizes_sum_batch_idx n b idx :
  batch_idx n b = Ok idx -> batch_sizes_sum (batches idx) = n.
Proof.
  intros H. destruct (Nat.eq_dec b 0) as [->|Hb].
  { unfold batch_idx, np_arange in H. cbn in H. discriminate. }
  destruct (Nat.eq_dec n 0) as [->|Hn].
  - rewrite batch_idx_unfold in H by lia. rewrite Nat.Div0.div_0_l in H.
    cbn in H. injection H as <-. reflexivity.
  - destruct (batch_idx_stepped n b) as (idx' & Heq & Hs & Hh & Hl); [lia..|].
    rewrite H in Heq. injection Heq as <-.
    destruct (batch_sizes_sum_stepped b idx 0 n Hs Hh Hl) as [-> _]. lia.
Qed.

(** C10: for a dataset of [n >= 1] samples and a batch size [b >= 1], the
    boundary list built by [np.arange(0, n+1, b)] and the conditional
    append of [n] starts at 0, is strictly increasing, ends at [n], has
    steps of at most [b], and its consecutive pairs visit every index of
    [0, n) exactly once, in order. *)
Theorem batch_idx_partitions_range (n b : nat) :
  1 <= n -> 1 <= b ->
  exists idx,
    batch_idx n b = Ok idx /\
    head idx = Some 0 /\
    last idx = Some n /\
    (forall i j x y, i < j -> idx !! i = Some x -> idx !! j = Some y -> x < y) /\
    (forall s e, (s, e) ∈ batches idx -> s < e /\ e - s <= b) /\
    visited idx = seq 0 n.
Proof.
  intros Hn Hb.
  destruct (batch_idx_stepped n b Hn Hb) as (idx & Heq & Hs & Hh & Hl).
  exists idx. split; [exact Heq|]. split; [exact Hh|]. split; [exact Hl|].
  split; [|split].
  - intros i j x y. apply (stepped_lookup_lt b); assumption.
  - intros s e. apply stepped_batches; assumption.
  - destruct (visited_stepped b idx 0 n Hs Hh Hl) as [Hv _].
    rewrite Hv. f_equal. lia.
Qed.

Lemma batch_idx_partitions_range_witness :
  exists idx,
    batch_idx 10 4 = Ok idx /\
    head idx = Some 0 /\
    last idx = Some 10 /\
    (forall i j x y, i < j -> idx !! i = Some x -> idx !! j = Some y -> x < y) /\
    (forall s e, (s, e) ∈ batches idx -> s < e /\ e - s <= 4) /\
    visited idx = seq 0 10.
Proof. apply (batch_idx_partitions_range 10 4); lia. Defined.

(* --------------------------------------------------------------------- *)
(** ** accuracy *)
(* --------------------------------------------------------------------- *)

Lemma Qlt_bool_true a b : Qlt_bool a b = true <-> (a < b)%Q.
Proof.
  unfold Qlt_bool. rewrite negb_true_iff. split.
  - intros H. apply Qnot_le_lt. intros Hle. apply Qle_bool_iff in Hle. congruence.
  - intros H. destruct (Qle_bool b a) eqn:E; [|reflexivity].
    apply Qle_bool_iff in E. exfalso. apply (Qlt_not_le _ _ H E).
Qed.

Lemma Qlt_bool_false a b : Qlt_bool a b = false <-> (b <= a)%Q.
Proof.
  unfold Qlt_bool. rewrite negb_false_iff. apply Qle_bool_iff.
Qed.

Lemma max_scan_inv row : forall seen best,
  scan_inv seen best ->
  scan_inv (seen ++ row) (max_scan (length seen) best row).
Proof.
  induction row as [|v tl IH]; intros seen best Hinv.
  - rewrite app_nil_r. exact Hinv.
  - cbn [max_scan].
    replace (seen ++ v :: tl) with ((seen ++ [v]) ++ tl) by (rewrite <- app_assoc; reflexivity).
    replace (S (length seen)) with (length (seen ++ [v])) by (rewrite length_app; simpl; lia).
    apply IH. destruct Hinv as (Hat & Hmax & Hfirst).
    assert (Hlook : forall k w, (seen ++ [v]) !! k = Some w ->
                      (k < length seen /\ seen !! k = Some w) \/ (k = length seen /\ w = v)).
    { intros k w Hk. destruct (Nat.lt_ge_cases k (length seen)) as [Hlt | Hge].
      - left. rewrite lookup_app_l in Hk by assumption. auto.
      - right. rewrite lookup_app_r in Hk by assumption.
        destruct (k - length seen) as [|d] eqn:Ed; [|destruct d; discriminate].
        injection Hk as <-. split; [lia | reflexivity]. }
    destruct (Qlt_bool best.1 v) eqn:E.
    + apply Qlt_bool_true in E. unfold scan_inv. cbn [fst snd]. split; [|split].
      * rewrite lookup_app_r by lia. rewrite Nat.sub_diag. reflexivity.
      * intros k w Hk. destruct (Hlook k w Hk) as [[_ Hs] | [_ ->]].
        -- apply Qlt_le_weak. eapply Qle_lt_trans; [apply (Hmax k w Hs) | exact E].
        -- apply Qle_refl.
      * intros k w Hlt Hk. rewrite lookup_app_l in Hk by assumption.
        eapply Qle_lt_trans; [apply (Hmax k w Hk) | exact E].
    + apply Qlt_bool_false in E. unfold scan_inv. split; [|split].
      * apply lookup_lt_Some in Hat as Hlt. rewrite lookup_app_l by assumption. exact Hat.
      * intros k w Hk. destruct (Hlook k w Hk) as [[_ Hs] | [_ ->]].
        -- apply (Hmax k w Hs).
        -- exact E.
      * intros k w Hlt Hk. apply lookup_lt_Some in Hat as Hb.
        rewrite lookup_app_l in Hk by lia. apply (Hfirst k w Hlt Hk).
Qed.

Lemma row_max_first_argmax row :
  row <> [] -> exists v j, row_max row = Ok (v, j) /\ first_argmax row j.
Proof.
  destruct row as [|v tl]; [congruence|]. intros _.
  pose proof (max_scan_inv tl [v] (v, 0)) as H.
  destruct (max_scan 1 (v, 0) tl) as [bv bj] eqn:E.
  exists bv, bj. split; [cbn [row_max]; rewrite E; reflexivity|].
  cbn [length] in H. rewrite E in H.
  destruct H as (Hat & Hmax & Hfirst).
  - unfold scan_inv. cbn [fst snd]. split; [reflexivity|]. split.
    + intros [|k] w Hk; [injection Hk as <-; apply Qle_refl | destruct k; discriminate].
    + intros k w Hk. lia.
  - exists bv. auto.
Qed.

Lemma first_argmax_unique row i j : first_argmax row i -> first_argmax row j -> i = j.
Proof.
  intros (v & Hv & Hmaxv & Hfv) (w & Hw & Hmaxw & Hfw).
  destruct (Nat.lt_trichotomy i j) as [Hlt | [Heq | Hgt]]; [exfalso | exact Heq | exfalso].
  - pose proof (Hfw i v Hlt Hv) as H1. pose proof (Hmaxv j w Hw) as H2.
    apply (Qlt_not_le _ _ H1 H2).
  - pose proof (Hfv j w Hgt Hw) as H1. pose proof (Hmaxw i v Hv) as H2.
    apply (Qlt_not_le _ _ H1 H2).
Qed.

Lemma torch_max_dim1_rows (yhat : Logits) :
  Forall (fun row => row <> []) yhat ->
  exists values predicted,
    torch_max_dim1 yhat = Ok (values, predicted) /\
    length predicted = length yhat /\
    (forall i row j, yhat !! i = Some row -> predicted !! i = Some j -> first_argmax row j).
Proof.
  unfold torch_max_dim1. induction 1 as [|row tl Hrow _ IH].
  - exists [], []. split; [reflexivity|]. split; [reflexivity|]. intros i ? ? Hi. discriminate.
  - destruct (row_max_first_argmax row Hrow) as (v & j & Hrm & Harg).
    destruct IH as (vs & ps & Heq & Hlen & Hall).
    cbn [result_mapM]. rewrite Hrm. cbn [result_bind].
    destruct (result_mapM row_max tl) as [vi|e]; [|discriminate].
    cbn [result_bind] in Heq |- *. injection Heq as <- <-.
    exists (v :: vi.*1), (j :: vi.*2). split; [reflexivity|]. split; [simpl; lia|].
    intros [|i] row' j' Hi Hj.
    + injection Hi as <-. injection Hj as <-. exact Harg.
    + apply (Hall i); assumption.
Qed.

Lemma tensor_sum_count hits : tensor_sum hits = count_hits hits.
Proof.
  unfold count_hits. induction hits as [|[|] tl IH]; [reflexivity | |].
  - cbn [tensor_sum foldr]. rewrite filter_cons_True by reflexivity.
    cbn [length]. unfold tensor_sum in IH. rewrite IH. reflexivity.
  - cbn [tensor_sum foldr]. rewrite filter_cons_False by discriminate.
    unfold tensor_sum in IH. rewrite IH. reflexivity.
Qed.

Lemma count_hits_le hits : count_hits hits <= length hits.
Proof. unfold count_hits. apply length_filter. Qed.

Lemma fraction_in_unit_interval c n :
  c <= n -> 0 < n ->
  (0 <= inject_Z (Z.of_nat c) / inject_Z (Z.of_nat n) <= 1)%Q.
Proof.
  intros Hc Hn.
  assert (Hpos : (0 < inject_Z (Z.of_nat n))%Q).
  { unfold Qlt, inject_Z. simpl. lia. }
  split.
  - apply Qle_shift_div_l; [exact Hpos|]. rewrite Qmult_0_l.
    unfold Qle, inject_Z. simpl. lia.
  - apply Qle_shift_div_r; [exact Hpos|]. rewrite Qmult_1_l.
    unfold Qle, inject_Z. simpl. lia.
Qed.

(** C9: for a non-empty prediction matrix with non-empty rows and a label
    vector of matching length, [accuracy] returns the number of rows whose
    (first) argmax equals the label, divided by the number of rows; the
    value lies in [0, 1]. *)
Theorem accuracy_counts_argmax_hits (yhat : Logits) (y : Labels) :
  yhat <> [] ->
  Forall (fun row => row <> []) yhat ->
  length y = length yhat ->
  exists (hits : list bool) (q : Q),
    accuracy yhat y = Ok q /\
    length hits = length yhat /\
    (forall i row lbl, yhat !! i = Some row -> y !! i = Some lbl ->
       (hits !! i = Some true <-> first_argmax row lbl)) /\
    q = (inject_Z (Z.of_nat (count_hits hits)) / inject_Z (Z.of_nat (length yhat)))%Q /\
    (0 <= q <= 1)%Q.
Proof.
  intros Hne Hrows Hlen.
  destruct (torch_max_dim1_rows yhat Hrows) as (vs & ps & Hmax & Hplen & Hps).
  unfold accuracy. rewrite Hmax. cbn [result_bind snd].
  unfold tensor_eq. rewrite Hplen, Hlen, Nat.eqb_refl. cbn [result_bind].
  unfold py_div. destruct (Nat.eqb_spec (length yhat) 0) as [H0|Hn0].
  { destruct yhat; [congruence | discriminate]. }
  set (hits := zip_with Nat.eqb ps y).
  assert (Hhl : length hits = length yhat).
  { unfold hits. rewrite length_zip_with. lia. }
  exists hits. eexists. split; [reflexivity|]. split; [exact Hhl|]. split; [|split].
  - intros i row lbl Hi Hy.
    assert (exists j, ps !! i = Some j) as [j Hj].
    { apply lookup_lt_is_Some. rewrite Hplen. eapply lookup_lt_Some; eassumption. }
    pose proof (Hps i row j Hi Hj) as Harg.
    unfold hits. rewrite lookup_zip_with, Hj, Hy. cbn. split.
    + intros [= Heq]. apply Nat.eqb_eq in Heq. subst. exact Harg.
    + intros Hl. rewrite (first_argmax_unique row j lbl Harg Hl), Nat.eqb_refl. reflexivity.
  - rewrite tensor_sum_count. reflexivity.
  - rewrite tensor_sum_count. apply fraction_in_unit_interval; [|lia].
    rewrite <- Hhl. apply count_hits_le.
Qed.

Lemma accuracy_counts_argmax_hits_witness :
  exists (hits : list bool) (q : Q),
    accuracy [[1; 2; 3]; [3; 3; 1]; [0; 0; 0]]%Q [2; 0; 1] = Ok q /\
    length hits = 3 /\
    (forall i row lbl,
       ([[1; 2; 3]; [3; 3; 1]; [0; 0; 0]]%Q : Logits) !! i = Some row ->
       ([2; 0; 1] : Labels) !! i = Some lbl ->
       (hits !! i = Some true <-> first_argmax row lbl)) /\
    q = (inject_Z (Z.of_nat (count_hits hits)) / inject_Z (Z.of_nat 3))%Q /\
    (0 <= q <= 1)%Q.
Proof.
  apply (accuracy_counts_argmax_hits [[1; 2; 3]; [3; 3; 1]; [0; 0; 0]]%Q [2; 0; 1]).
  - discriminate.
  - repeat constructor; discriminate.
  - reflexivity.
Defined.

(* --------------------------------------------------------------------- *)
(** ** Label-stratified subsets *)
(* --------------------------------------------------------------------- *)

Lemma elem_of_flatnonzero_from mask : forall i x,
  x ∈ flatnonzero_from i mask <-> i <= x /\ mask !! (x - i) = Some true.
Proof.
  induction mask as [|b tl IH]; intros i x; cbn [flatnonzero_from].
  - split; [intros H; inversion H | intros [_ H]; discriminate].
  - rewrite elem_of_app, IH. split.
    + intros [Hhd | [Hle Htl]].
      * destruct b; [|inversion Hhd]. apply list_elem_of_singleton in Hhd as ->.
        rewrite Nat.sub_diag. split; [lia | reflexivity].
      * split; [lia|]. replace (x - i) with (S (x - S i)) by lia. exact Htl.
    + intros [Hle Hx]. destruct (decide (x = i)) as [->|Hne].
      * rewrite Nat.sub_diag in Hx. injection Hx as ->. left. apply list_elem_of_singleton. reflexivity.
      * right. split; [lia|]. replace (x - i) with (S (x - S i)) in Hx by lia. exact Hx.
Qed.

Lemma NoDup_flatnonzero_from mask : forall i, NoDup (flatnonzero_from i mask).
Proof.
  induction mask as [|b tl IH]; intros i; cbn [flatnonzero_from]; [constructor|].
  apply NoDup_app. split; [|split].
  - destruct b; [apply NoDup_singleton | constructor].
  - intros x Hx Htl. apply elem_of_flatnonzero_from in Htl as [Hle _].
    destruct b; [|inversion Hx]. apply list_elem_of_singleton in Hx. lia.
  - apply IH.
Qed.

Lemma elem_of_class_indices target label i :
  i ∈ flatnonzero (target_eq target label) <-> target !! i = Some label.
Proof.
  unfold flatnonzero, target_eq. rewrite elem_of_flatnonzero_from, Nat.sub_0_r.
  rewrite list_lookup_fmap. split.
  - intros [_ H]. destruct (target !! i) as [t|]; [|discriminate].
    cbn in H. injection H as H. apply Nat.eqb_eq in H. congruence.
  - intros ->. split; [lia|]. cbn. rewrite Nat.eqb_refl. reflexivity.
Qed.

Lemma in_take {A} (x : A) n l : x ∈ take n l -> x ∈ l.
Proof. apply subseteq_take. Qed.

Lemma in_drop {A} (x : A) n l : x ∈ drop n l -> x ∈ l.
Proof. apply subseteq_drop. Qed.

Lemma elem_of_concat {A} (x : A) (ls : list (list A)) :
  x ∈ concat ls <-> exists l, x ∈ l /\ l ∈ ls.
Proof.
  induction ls as [|l ls IH]; cbn [concat].
  - split; [intros H; inversion H | intros (l & _ & H); inversion H].
  - rewrite elem_of_app, IH. split.
    + intros [H | (l' & H & Hl')]; [exists l | exists l']; split; auto; constructor; auto.
    + intros (l' & H & Hl'). apply elem_of_cons in Hl' as [-> | Hl']; eauto.
Qed.

Lemma take_drop_disjoint {A} (l : list A) n m :
  NoDup l -> forall x, x ∈ take n l -> x ∉ take m (drop n l).
Proof.
  intros Hnd x Hin Hin'.
  rewrite <- (take_drop n l) in Hnd. apply NoDup_app in Hnd as (_ & Hdisj & _).
  apply (Hdisj x Hin). eapply in_take; eassumption.
Qed.

Lemma np_array_flatten_Ok rows out :
  np_array_flatten rows = Ok out -> out = concat rows.
Proof.
  unfold np_array_flatten. destruct (forallb _ rows); congruence.
Qed.

Lemma slice_from_start {A} n (l : list A) : slice 0 n l = take n l.
Proof. unfold slice. rewrite Nat.sub_0_r, drop_0. reflexivity. Qed.

Lemma slice_next {A} a b (l : list A) : slice a (a + b) l = take b (drop a l).
Proof. unfold slice. replace (a + b - a) with b by lia. reflexivity. Qed.

Section DataSelectionFacts.

Context {Gen : Type} (RandomState : Z -> Gen)
        (permutation : Gen -> list nat -> list nat * Gen).

(** What is assumed of NumPy: the shuffled copy is a rearrangement of
    its argument. *)
Hypothesis permutation_shuffles : forall g idx, (permutation g idx).1 ≡ₚ idx.

Lemma label_idx_lookup target label :
  label < 10 ->
  label_idx RandomState permutation target !! label =
    Some (permutation (RandomState 42) (flatnonzero (target_eq target label))).1.
Proof.
  intros Hl. unfold label_idx, label_idx_sorted.
  rewrite !list_lookup_fmap, lookup_seq_lt by assumption. reflexivity.
Qed.

Lemma elem_of_label_idx target label idx i :
  label_idx RandomState permutation target !! label = Some idx ->
  i ∈ idx -> target !! i = Some label.
Proof.
  unfold label_idx, label_idx_sorted. rewrite !list_lookup_fmap.
  intros H Hi. destruct (seq 0 10 !! label) as [l|] eqn:E; [|discriminate].
  apply lookup_seq in E as [-> _]. cbn in H. injection H as <-.
  rewrite permutation_shuffles in Hi. apply elem_of_class_indices in Hi. exact Hi.
Qed.

Lemma elem_of_rows_class (f : list nat -> list nat) target i :
  (forall idx x, x ∈ f idx -> x ∈ idx) ->
  i ∈ concat (map f (label_idx RandomState permutation target)) ->
  exists label idx, label_idx RandomState permutation target !! label = Some idx /\ i ∈ f idx.
Proof.
  intros Hsub Hin. apply elem_of_concat in Hin as (row & Hi & Hrow).
  apply list_elem_of_fmap in Hrow as (idx & -> & Hidx).
  apply list_elem_of_lookup in Hidx as [label Hlabel]. eauto.
Qed.

Lemma label_idx_NoDup target label idx :
  label_idx RandomState permutation target !! label = Some idx -> NoDup idx.
Proof.
  unfold label_idx, label_idx_sorted. rewrite !list_lookup_fmap.
  destruct (seq 0 10 !! label) as [l'|]; [|discriminate]. cbn. intros [= <-].
  rewrite permutation_shuffles. apply NoDup_flatnonzero_from.
Qed.

Lemma train_subset_Ok target tr :
  train_subset RandomState permutation target = Ok tr ->
  tr = concat (train_rows RandomState permutation target).
Proof. unfold train_subset. apply np_array_flatten_Ok. Qed.

Lemma valid_subset_Ok target va :
  valid_subset RandomState permutation target = Ok va ->
  va = concat (valid_rows RandomState permutation target).
Proof. unfold valid_subset. apply np_array_flatten_Ok. Qed.

(** The rows of one class, for any sizes [n] and [m] of the two pools *)
Lemma class_rows_disjoint n m target label idx :
  label_idx RandomState permutation target !! label = Some idx ->
  map (fun idx => slice 0 n idx) (label_idx RandomState permutation target) !! label =
    Some (take n idx) /\
  map (fun idx => slice n (n + m) idx) (label_idx RandomState permutation target) !! label =
    Some (take m (drop n idx)) /\
  (forall i, i ∈ take n idx -> i ∉ take m (drop n idx)).
Proof.
  intros Hidx. split; [|split].
  - rewrite list_lookup_fmap, Hidx. cbn. rewrite slice_from_start. reflexivity.
  - rewrite list_lookup_fmap, Hidx. cbn. rewrite slice_next. reflexivity.
  - apply take_drop_disjoint. eapply label_idx_NoDup. exact Hidx.
Qed.

(** The flattened pools, for any sizes [n] and [m] *)
Lemma pools_disjoint n m target i :
  i ∈ concat (map (fun idx => slice 0 n idx) (label_idx RandomState permutation target)) ->
  i ∉ concat (map (fun idx => slice n (n + m) idx)
                (label_idx RandomState permutation target)).
Proof.
  intros Hi Hi'.
  apply elem_of_rows_class in Hi as (l1 & c1 & Hc1 & Hi1);
    [|intros ? ?; rewrite slice_from_start; apply in_take].
  apply elem_of_rows_class in Hi' as (l2 & c2 & Hc2 & Hi2);
    [|intros ? ? Hx; rewrite slice_next in Hx; apply in_take in Hx;
      eapply in_drop; exact Hx].
  rewrite slice_from_start in Hi1. rewrite slice_next in Hi2.
  assert (l1 = l2).
  { pose proof (elem_of_label_idx target l1 c1 i Hc1 (in_take _ _ _ Hi1)) as H1.
    pose proof (elem_of_label_idx target l2 c2 i Hc2 (in_drop _ _ _ (in_take _ _ _ Hi2))) as H2.
    congruence. }
  subst l2. assert (c2 = c1) by congruence. subst c2.
  exact (take_drop_disjoint c1 n m (label_idx_NoDup target l1 c1 Hc1) i Hi1 Hi2).
Qed.

End DataSelectionFacts.



(* --------------------------------------------------------------------- *)
(** ** preprocess *)
(* --------------------------------------------------------------------- *)

Lemma result_mapM_Ok {A B} (f : A -> result B) (g : A -> B) (l : list A) :
  Forall (fun a => f a = Ok (g a)) l -> result_mapM f l = Ok (map g l).
Proof.
  induction 1 as [|a tl Ha _ IH]; [reflexivity|].
  cbn [result_mapM map]. rewrite Ha, IH. reflexivity.
Qed.




(* --------------------------------------------------------------------- *)
(** ** Reasoning about runs *)
(* --------------------------------------------------------------------- *)

Lemma bind_Ok_inv {Lib A B} (m : M Lib A) (k : A -> M Lib B) w b :
  out_res (bind m k w) = Ok b ->
  exists a,
    out_res (m w) = Ok a /\
    out_res (k a (out_world (m w))) = Ok b /\
    out_world (bind m k w) = out_world (k a (out_world (m w))) /\
    out_log (bind m k w) = out_log (m w) ++ out_log (k a (out_world (m w))).
Proof.
  unfold bind. destruct (out_res (m w)) as [a|e] eqn:E; cbn; [|discriminate].
  intros H. exists a. auto.
Qed.

Lemma bind_Ok {Lib A B} (m : M Lib A) (k : A -> M Lib B) w a :
  out_res (m w) = Ok a ->
  bind m k w =
    Build_Outcome (out_res (k a (out_world (m w))))
                  (out_world (k a (out_world (m w))))
                  (out_log (m w) ++ out_log (k a (out_world (m w)))).
Proof. intros H. unfold bind. rewrite H. reflexivity. Qed.

Lemma bind_Raise {Lib A B} (m : M Lib A) (k : A -> M Lib B) w e :
  out_res (m w) = Raise e ->
  bind m k w = Build_Outcome (Raise e) (out_world (m w)) (out_log (m w)).
Proof. intros H. unfold bind. rewrite H. reflexivity. Qed.

Section Sat.

Context {Lib : Type}.
Variable Phi : result unit -> list Event -> Prop.
Variable allowed : Event -> Prop.

Hypothesis Phi_nil : Phi (Ok tt) [].
Hypothesis Phi_app :
  forall l1 r l2, Phi (Ok tt) l1 -> Phi r l2 -> Phi r (l1 ++ l2).
Hypothesis Phi_event : forall ev, allowed ev -> Phi (Ok tt) [ev].
Hypothesis Phi_raise : forall e, Phi (Raise e) [EvRaised e].

Lemma sat_ret {A} (a : A) (Q : A -> Prop) : Q a -> sat (Lib:=Lib) Phi (ret a) Q.
Proof. intros HQ w. split; [exact Phi_nil|]. cbn. intros ? [= <-]. exact HQ. Qed.

Lemma sat_bind {A B} (m : M Lib A) (k : A -> M Lib B) (Q : A -> Prop) (R : B -> Prop) :
  sat Phi m Q -> (forall a, Q a -> sat Phi (k a) R) -> sat Phi (bind m k) R.
Proof.
  intros Hm Hk w. destruct (Hm w) as [Hphi HQ].
  destruct (out_res (m w)) as [a|e] eqn:E.
  - rewrite (bind_Ok m k w a E). cbn.
    destruct (Hk a (HQ a eq_refl) (out_world (m w))) as [Hphi' HR].
    split; [|exact HR]. apply Phi_app; assumption.
  - rewrite (bind_Raise m k w e E). cbn. split; [exact Hphi | discriminate].
Qed.

Lemma sat_weaken {A} (m : M Lib A) (Q R : A -> Prop) :
  sat Phi m Q -> (forall a, Q a -> R a) -> sat Phi m R.
Proof. intros Hm HQR w. destruct (Hm w) as [H1 H2]. split; auto. Qed.

Lemma sat_raise {A} e (Q : A -> Prop) : sat (Lib:=Lib) Phi (raise e) Q.
Proof. intros w. cbn. split; [apply Phi_raise | discriminate]. Qed.

Lemma sat_lift_result {A} (r : result A) (Q : A -> Prop) :
  (forall a, r = Ok a -> Q a) -> sat (Lib:=Lib) Phi (lift_result r) Q.
Proof.
  intros H. destruct r as [a|e]; cbn.
  - apply sat_ret. auto.
  - apply sat_raise.
Qed.

Lemma sat_emit ev (Q : unit -> Prop) :
  allowed ev -> Q tt -> sat (Lib:=Lib) Phi (emit ev) Q.
Proof.
  intros Hev HQ w. cbn. split; [apply Phi_event; exact Hev|]. intros [] _. exact HQ.
Qed.

Lemma sat_get (Q : World Lib -> Prop) : (forall w, Q w) -> sat Phi get Q.
Proof. intros HQ w. cbn. split; [exact Phi_nil|]. intros ? _. apply HQ. Qed.

Lemma sat_modify (f : World Lib -> World Lib) (Q : unit -> Prop) :
  Q tt -> sat Phi (modify f) Q.
Proof. intros HQ w. cbn. split; [exact Phi_nil|]. intros [] _. exact HQ. Qed.

Lemma Phi_event_raise ev e : allowed ev -> Phi (Raise e) [ev; EvRaised e].
Proof.
  intros Hev. change [ev; EvRaised e] with ([ev] ++ [EvRaised e]).
  apply Phi_app; [apply Phi_event; exact Hev | apply Phi_raise].
Qed.

Lemma sat_lib_call {A} ev (f : Lib -> result A * Lib) :
  allowed ev -> sat Phi (lib_call ev f) (fun _ => True).
Proof.
  intros Hev w. unfold lib_call. destruct (f (lib w)).1 as [a|e]; cbn.
  - split; [apply Phi_event; exact Hev | auto].
  - split; [apply Phi_event_raise; exact Hev | discriminate].
Qed.

Lemma sat_no_grad {A} (body : M Lib A) (Q : A -> Prop) :
  sat Phi body Q -> sat Phi (no_grad body) Q.
Proof. intros Hb w. unfold no_grad. cbn. apply Hb. Qed.

Lemma sat_for_each {A S} (body : A -> S -> M Lib S) (I : list A -> S -> Prop) :
  forall (l done : list A) (s : S),
    I done s ->
    (forall pre a s, I pre s -> sat Phi (body a s) (I (pre ++ [a]))) ->
    sat Phi (for_each l s body) (I (done ++ l)).
Proof.
  induction l as [|a tl IH]; intros done s HI Hbody.
  - rewrite app_nil_r. cbn. apply sat_ret. exact HI.
  - cbn [for_each]. eapply sat_bind; [apply Hbody; exact HI|].
    intros s' HI'. replace (done ++ a :: tl) with ((done ++ [a]) ++ tl)
      by (rewrite <- app_assoc; reflexivity).
    apply IH; assumption.
Qed.

Lemma sat_model_eval : allowed EvModelEval -> sat (Lib:=Lib) Phi model_eval (fun _ => True).
Proof.
  intros H. unfold model_eval. apply sat_bind with (Q := fun _ => True); [apply sat_emit; [exact H | exact I]|].
  intros _ _. apply sat_modify. exact I.
Qed.

Lemma sat_model_train : allowed EvModelTrain -> sat (Lib:=Lib) Phi model_train (fun _ => True).
Proof.
  intros H. unfold model_train. apply sat_bind with (Q := fun _ => True); [apply sat_emit; [exact H | exact I]|].
  intros _ _. apply sat_modify. exact I.
Qed.

Lemma sat_model_call (L : Library Lib) input :
  (forall tr gr, allowed (EvForward tr gr input)) ->
  sat Phi (model_call L input) (fun _ => True).
Proof.
  intros H. unfold model_call. apply sat_bind with (Q := fun _ => True); [apply sat_get; intros; exact I|].
  intros w _. apply sat_bind with (Q := fun _ => True); [apply sat_lib_call; apply H|].
  intros yhat _. apply sat_ret. exact I.
Qed.

Lemma sat_loss (L : Library Lib) yhat y :
  allowed (EvCrossEntropy (value yhat) y) ->
  sat Phi (_loss L yhat y) (fun _ => True).
Proof.
  intros H. unfold _loss. apply sat_bind with (Q := fun _ => True); [apply sat_get; intros; exact I|].
  intros w _. apply sat_bind with (Q := fun _ => True); [apply sat_lib_call; exact H|].
  intros v _. apply sat_ret. exact I.
Qed.

Lemma sat_getitem (L : Library Lib) d i :
  allowed (EvGetItem d i) -> sat Phi (getitem L d i) (fun _ => True).
Proof. intros H. apply sat_lib_call. exact H. Qed.

Lemma sat_new (L : Library Lib) c :
  allowed (EvConstruct c) -> sat Phi (new L c) (fun _ => True).
Proof. intros H. apply sat_lib_call. exact H. Qed.

Lemma sat_run_attack_scalar (L : Library Lib) a fm x y e :
  allowed (EvAttack a fm x y (EpsScalar e)) ->
  sat Phi (run_attack_scalar L a fm x y e) (fun _ => True).
Proof.
  intros H w. unfold run_attack_scalar.
  destruct (attack_scalar L a fm x y e w).1.1 as [v|e']; cbn.
  - split; [apply Phi_event; exact H | auto].
  - split; [apply Phi_event_raise; exact H | discriminate].
Qed.

Lemma sat_run_attack_array (L : Library Lib) a fm x y es :
  allowed (EvAttack a fm x y (EpsArray es)) ->
  sat Phi (run_attack_array L a fm x y es) (fun _ => True).
Proof.
  intros H w. unfold run_attack_array.
  destruct (attack_array L a fm x y es w).1.1 as [v|e']; cbn.
  - split; [apply Phi_event; exact H | auto].
  - split; [apply Phi_event_raise; exact H | discriminate].
Qed.

(** Which events the property at hand accepts.  Each lemma below uses only
    the assumptions it needs. *)
Hypothesis allowed_construct : forall c, allowed (EvConstruct c).
Hypothesis allowed_base_init : allowed EvBaseInit.
Hypothesis allowed_getitem : forall d i, allowed (EvGetItem d i).
Hypothesis allowed_eval : allowed EvModelEval.
Hypothesis allowed_train : allowed EvModelTrain.
Hypothesis allowed_attack_scalar :
  forall a fm x y e, allowed (EvAttack a fm x y (EpsScalar e)).
Hypothesis allowed_attack_sweep :
  forall a fm x y, allowed (EvAttack a fm x y (EpsArray epsilon_test)).
Hypothesis allowed_forward :
  forall tr gr x input, preprocess x = Ok input -> allowed (EvForward tr gr input).
Hypothesis allowed_cross_entropy : forall yhat y, allowed (EvCrossEntropy yhat y).
Hypothesis allowed_print_dual :
  forall acc duals, allowed (EvPrint (LineValidationDual acc duals)).
Hypothesis allowed_print_header : allowed (EvPrint LineTestHeader).
Hypothesis allowed_print_accuracy : forall acc, allowed (EvPrint (LineTestAccuracy acc)).
Hypothesis allowed_print_adv_accuracy :
  forall l, length l = length epsilon_test -> allowed (EvPrint (LineAdversarialAccuracy l)).
Hypothesis allowed_print_adv_success :
  forall l, length l = length epsilon_test -> allowed (EvPrint (LineAdversarialSuccess l)).

Variable L : Library Lib.

(** [self.model(preprocess(x))] *)
Lemma sat_model_on_preprocessed {B} x (k : Tracked (list (list Q)) -> M Lib B) (R : B -> Prop) :
  (forall yhat, sat Phi (k yhat) R) ->
  sat Phi (let* input := lift_result (preprocess x) in
           let* yhat := model_call L input in k yhat) R.
Proof.
  intros Hk.
  apply sat_bind with (Q := fun input => preprocess x = Ok input);
    [apply sat_lift_result; auto|].
  intros input Hin.
  apply sat_bind with (Q := fun _ => True);
    [apply sat_model_call; intros; eapply allowed_forward; exact Hin|].
  intros yhat _. apply Hk.
Qed.

Ltac sat_simple :=
  first
    [ apply sat_ret; exact I
    | apply sat_getitem; apply allowed_getitem
    | apply sat_new; apply allowed_construct
    | apply sat_model_eval; exact allowed_eval
    | apply sat_model_train; exact allowed_train
    | apply sat_loss; apply allowed_cross_entropy
    | apply sat_run_attack_scalar; apply allowed_attack_scalar
    | apply sat_get; intros; exact I
    | apply sat_modify; exact I
    | apply sat_lift_result; intros; exact I
    | apply sat_emit; [solve [auto] | exact I] ].

Ltac sat_seq :=
  apply sat_bind with (Q := fun _ => True); [sat_simple|]; intros ? _.




Lemma validation_hook_sat {S} problem (solver_state : S) :
  sat Phi (validation_hook L problem solver_state) (fun _ => True).
Proof.
  unfold validation_hook. cbv zeta.
  change (10 =? 1) with false. change (1 <? 10) with true. cbv iota.
  sat_seq. sat_seq.
  apply sat_bind with (Q := fun _ => True).
  - apply (sat_for_each _ (fun _ _ => True) _ []); [exact I|].
    intros _ [batch_start batch_end] [acc acc_adv] _.
    sat_seq. destruct a1 as [x y].
    apply sat_bind with (Q := fun _ => True).
    + apply sat_no_grad. apply sat_model_on_preprocessed. intros yhat.
      sat_seq. sat_simple.
    + intros acc' _. sat_simple.
  - intros [acc acc_adv] _. sat_seq. sat_seq. sat_seq. sat_simple.
Qed.


Lemma batch_sizes_sum_snoc pre a :
  batch_sizes_sum (pre ++ [a]) = batch_sizes_sum pre + (a.2 - a.1).
Proof.
  unfold batch_sizes_sum. induction pre as [|p pre IH]; cbn; [lia|].
  cbn in IH. rewrite IH. lia.
Qed.

Lemma float_div_int_Ok a n q :
  float_div_int a n = Ok q -> n <> 0 /\ q = (a / of_nat n)%Q.
Proof.
  unfold float_div_int. destruct (Nat.eqb_spec n 0); [discriminate|].
  intros [= <-]. auto.
Qed.

Lemma list_index_Ok {A} (l : list A) i x : list_index l i = Ok x -> l !! i = Some x.
Proof. unfold list_index. destruct (l !! i); congruence. Qed.

(** The accumulation: the sweep is always [epsilon_test]; the sample count
    ends at the size of the test set, and the two arrays keep one entry per
    magnitude. *)
Lemma test_sums_sat problem :
  sat Phi (test_sums L problem)
    (fun st =>
       st.1.1.1 = dataset_len L testset /\
       length st.1.2 = length epsilon_test /\
       length st.2 = length epsilon_test).
Proof.
  unfold test_sums. cbv zeta. sat_seq. sat_seq. sat_seq. sat_seq.
  set (n := dataset_len L testset).
  apply sat_bind with (Q := fun idx => batch_idx n (batch_size problem) = Ok idx);
    [apply sat_lift_result; auto|].
  intros idx Hidx.
  set (Inv := fun (done : list (nat * nat)) (st : nat * Q * list Q * list Q) =>
                st.1.1.1 = batch_sizes_sum done /\
                length st.1.2 = length epsilon_test /\
                length st.2 = length epsilon_test).
  apply sat_weaken with (Q := Inv (batches idx)).
  - apply (sat_for_each _ Inv _ []).
    + unfold Inv, np_zeros. cbn [fst snd]. rewrite !length_replicate. auto.
    + intros pre [batch_start batch_end] [[[n_total acc_test] acc_adv] success_adv]
             (Hn & Ha & Hs). cbn [fst snd] in Hn, Ha, Hs.
      sat_seq. destruct a3 as [x_test y_test].
      apply sat_model_on_preprocessed. intros yhat. sat_seq.
      apply sat_bind with (Q := fun _ => True);
        [apply sat_run_attack_array; apply allowed_attack_sweep|].
      intros [[adversarials ?] success] _.
      apply sat_bind with
        (Q := fun st : list Q * list Q =>
                length st.1 = length epsilon_test /\ length st.2 = length epsilon_test).
      * apply (sat_for_each _
                 (fun _ (st : list Q * list Q) =>
                    length st.1 = length epsilon_test /\ length st.2 = length epsilon_test)
                 _ []); [cbn; auto|].
        intros _ [ii adv] [acc_adv' success_adv'] [Ha' Hs']. cbn [fst snd] in Ha', Hs'.
        apply sat_model_on_preprocessed. intros yhat_adv.
        sat_seq. sat_seq. sat_seq. sat_seq.
        apply sat_ret. cbn [fst snd]. rewrite !length_insert. auto.
      * intros [acc_adv' success_adv'] [Ha' Hs']. cbn [fst snd] in Ha', Hs'.
        apply sat_ret. unfold Inv. cbn [fst snd].
        rewrite batch_sizes_sum_snoc, Hn. auto.
  - intros st (Hn & Ha & Hs).
    rewrite (batch_sizes_sum_batch_idx _ _ _ Hidx) in Hn. auto.
Qed.

(** The test phase: a report is made of sums over the batches divided by
    the size of the test set, with one entry per magnitude. *)
Lemma test_sat problem :
  sat Phi (test L problem)
    (fun report =>
       exists total sums_acc sums_succ,
         length sums_acc = length epsilon_test /\
         length sums_succ = length epsilon_test /\
         1 <= dataset_len L testset /\
         report =
           {| report_acc_test := (total / of_nat (dataset_len L testset))%Q;
              report_acc_adv :=
                map (fun v => (v / of_nat (dataset_len L testset))%Q) sums_acc;
              report_success_adv :=
                map (fun v => (v / of_nat (dataset_len L testset))%Q) sums_succ |}).
Proof.
  unfold test.
  eapply sat_bind; [apply test_sums_sat|].
  intros [[[n_total acc_test] acc_adv] success_adv] (Hn & Ha & Hs).
  cbn [fst snd] in Hn, Ha, Hs. subst n_total.
  apply sat_bind with
    (Q := fun q => float_div_int acc_test (dataset_len L testset) = Ok q);
    [apply sat_lift_result; auto|].
  intros q Hq. apply float_div_int_Ok in Hq as [Hn0 ->].
  sat_seq. sat_seq.
  apply sat_bind with (Q := fun _ => True).
  { apply sat_emit; [|exact I]. apply allowed_print_adv_accuracy.
    rewrite !length_map. exact Ha. }
  intros _ _.
  apply sat_bind with (Q := fun _ => True).
  { apply sat_emit; [|exact I]. apply allowed_print_adv_success.
    rewrite !length_map. exact Hs. }
  intros _ _. apply sat_ret.
  exists acc_test, acc_adv, success_adv. split; [exact Ha|]. split; [exact Hs|].
  split; [lia | reflexivity].
Qed.

End Sat.

(* --------------------------------------------------------------------- *)
(** ** Two families of log properties *)
(* --------------------------------------------------------------------- *)

Lemma always_nil P : always P (Ok tt) [].
Proof. constructor. Qed.

Lemma always_app P l1 r l2 : always P (Ok tt) l1 -> always P r l2 -> always P r (l1 ++ l2).
Proof. unfold always. intros H1 H2. apply Forall_app. auto. Qed.

Lemma always_event (P : Event -> Prop) ev : P ev -> always P (Ok tt) [ev].
Proof. intros H. constructor; [exact H | constructor]. Qed.

Lemma always_raise (P : Event -> Prop) :
  (forall e, P (EvRaised e)) -> forall e, always P (Raise e) [EvRaised e].
Proof. intros H e. constructor; [apply H | constructor]. Qed.






Ltac not_raised := intros; discriminate.

(* --------------------------------------------------------------------- *)
(** ** The validation hook never reaches its adversarial branch *)
(* --------------------------------------------------------------------- *)

Lemma validation_hook_no_adversarial {Lib S} (L : Library Lib) problem (solver_state : S) :
  sat (always (fun ev => adversarial_branch ev = false))
      (validation_hook L problem solver_state) (fun _ => True).
Proof.
  apply (validation_hook_sat _ (fun ev => adversarial_branch ev = false));
    try reflexivity.
  - apply always_nil.
  - apply always_app.
  - apply always_event.
  - apply always_raise. reflexivity.
Qed.

(** C1 (as the code behaves): the counter [_adv_epoch] is a local
    variable set to 10 at the start of every call, so the test
    [_adv_epoch == 1] never succeeds: no call of [validation_hook], in
    whatever world, and no sequence of consecutive calls, runs the attack
    or prints the adversarial accuracy; a call that returns has printed the
    clean accuracy with the dual variables. *)
Theorem validation_hook_never_runs_adversarial_branch
    {Lib S} (L : Library Lib) problem (solver_state : S) :
  (forall w,
     Forall (fun ev => adversarial_branch ev = false)
            (out_log (validation_hook L problem solver_state w))) /\
  (forall k w,
     Forall (fun ev => adversarial_branch ev = false)
            (out_log (validation_hook_calls L problem solver_state k w))) /\
  (forall w b,
     out_res (validation_hook L problem solver_state w) = Ok b ->
     b = false /\
     exists acc duals,
       last (out_log (validation_hook L problem solver_state w)) =
         Some (EvPrint (LineValidationDual acc duals))).
Proof.
  split; [|split].
  - intros w. apply (validation_hook_no_adversarial L problem solver_state w).
  - intros k. assert (H : sat (always (fun ev => adversarial_branch ev = false))
                            (validation_hook_calls L problem solver_state k)
                            (fun _ => True)).
    { induction k as [|k IH]; cbn [validation_hook_calls].
      - apply sat_ret; [apply always_nil | exact I].
      - apply sat_bind with (Q := fun _ => True);
          [apply always_app | apply validation_hook_no_adversarial | intros _ _; exact IH]. }
    intros w. apply (H w).
  - intros w b. unfold validation_hook. cbv zeta.
    change (10 =? 1) with false. change (1 <? 10) with true. cbv iota.
    intros H.
    apply bind_Ok_inv in H as (idx & _ & H & _ & ->).
    apply bind_Ok_inv in H as ([] & _ & H & _ & ->).
    apply bind_Ok_inv in H as ([acc acc_adv] & _ & H & _ & ->).
    apply bind_Ok_inv in H as ([] & _ & H & _ & ->).
    cbn in H. injection H as <-. split; [reflexivity|].
    eexists _, _. rewrite !app_assoc. cbn. apply last_snoc.
Qed.

(* --------------------------------------------------------------------- *)
(** ** Model inputs *)
(* --------------------------------------------------------------------- *)

Section ForwardInputs.

Context {Lib : Type} (L : Library Lib).







End ForwardInputs.


(* --------------------------------------------------------------------- *)
(** ** Exceptions *)
(* --------------------------------------------------------------------- *)

Section Exceptions.

Context {Lib : Type} (L : Library Lib).







Lemma lib_call_failure {A} ev (f : Lib -> result A * Lib) w e :
  (f (lib w)).1 = Raise e ->
  out_res (lib_call ev f w) = Raise e /\ out_log (lib_call ev f w) = [ev; EvRaised e].
Proof. intros H. unfold lib_call. rewrite H. auto. Qed.

Lemma run_attack_scalar_failure a fm x y eps0 w e :
  (attack_scalar L a fm x y eps0 w).1.1 = Raise e ->
  out_res (run_attack_scalar L a fm x y eps0 w) = Raise e /\
  out_log (run_attack_scalar L a fm x y eps0 w) =
    [EvAttack a fm x y (EpsScalar eps0); EvRaised e].
Proof. intros H. unfold run_attack_scalar. rewrite H. auto. Qed.

Lemma run_attack_array_failure a fm x y es w e :
  (attack_array L a fm x y es w).1.1 = Raise e ->
  out_res (run_attack_array L a fm x y es w) = Raise e /\
  out_log (run_attack_array L a fm x y es w) =
    [EvAttack a fm x y (EpsArray es); EvRaised e].
Proof. intros H. unfold run_attack_array. rewrite H. auto. Qed.

End Exceptions.


(* --------------------------------------------------------------------- *)
(** ** The test sweep *)
(* --------------------------------------------------------------------- *)

Lemma epsilon_test_length : length epsilon_test = 7.
Proof. reflexivity. Qed.

Lemma epsilon_test_evenly_spaced i e :
  epsilon_test !! i = Some e ->
  (e == 0.01 + of_nat i * ((0.06 - 0.01) / 6))%Q.
Proof.
  intros H.
  do 7 (destruct i as [|i]; [injection H as <-; vm_compute; reflexivity|]).
  discriminate.
Qed.

Lemma prints_app l1 l2 : prints (l1 ++ l2) = prints l1 ++ prints l2.
Proof. unfold prints. apply omap_app. Qed.

Lemma prints_silent log : Forall (fun ev => is_print ev = false) log -> prints log = [].
Proof.
  induction 1 as [|ev log Hev _ IH]; [reflexivity|].
  unfold prints in *. cbn. destruct ev; try discriminate; exact IH.
Qed.

Lemma test_sums_silent {Lib} (L : Library Lib) problem w :
  prints (out_log (test_sums L problem w)) = [].
Proof.
  apply prints_silent.
  apply (test_sums_sat (always (fun ev => is_print ev = false))
           (fun ev => is_print ev = false));
    first [ apply always_nil | apply always_app | apply always_event
          | apply always_raise; reflexivity | reflexivity ].
Qed.

Lemma test_sweeps {Lib} (L : Library Lib) problem :
  sat (always sweep_event) (test L problem)
    (fun report =>
       exists total sums_acc sums_succ,
         length sums_acc = length epsilon_test /\
         length sums_succ = length epsilon_test /\
         1 <= dataset_len L testset /\
         report =
           {| report_acc_test := (total / of_nat (dataset_len L testset))%Q;
              report_acc_adv :=
                map (fun v => (v / of_nat (dataset_len L testset))%Q) sums_acc;
              report_success_adv :=
                map (fun v => (v / of_nat (dataset_len L testset))%Q) sums_succ |}).
Proof.
  apply (test_sat (always sweep_event) sweep_event);
    first [ apply always_nil | apply always_app | apply always_event
          | apply always_raise; intros; exact I
          | intros; exact I | intros; reflexivity | intros; assumption ].
Qed.


(* --------------------------------------------------------------------- *)
(** ** The constrained learning problem *)
(* --------------------------------------------------------------------- *)

Lemma lib_call_Ok {Lib A} ev (f : Lib -> result A * Lib) w a l' :
  f (lib w) = (Ok a, l') ->
  lib_call ev f w = Build_Outcome (Ok a) (set_lib l' w) [ev].
Proof. intros H. unfold lib_call. rewrite H. reflexivity. Qed.

(** C4: when the library objects can be built, [robustLoss(rhs)] is a
    problem with the network as model, [obj_fun] as objective, the single
    constraint [adversarialLoss], the single right-hand side [rhs], and
    one dual variable; the script instantiates it with 0.7. *)
Theorem problem_bundles_one_constraint_and_one_rhs
    {Lib} (L : Library Lib) (rhs0 : Q) (w : World Lib) (l1 l2 l3 : Lib) :
  let fmodel :=
    {| bounds := (0, 1)%Q;
       preprocessing_mean := [0.4914; 0.4822; 0.4465]%Q;
       preprocessing_std := [0.2023; 0.1994; 0.2010]%Q;
       preprocessing_axis := (-3)%Z |} in
  let pgd :=
    {| rel_stepsize := (1 / 3)%Q; abs_stepsize := None;
       steps := 5; random_start := true |} in
  construct L NewModel (lib w) = (Ok tt, l1) ->
  construct L (NewFoolboxModel fmodel) l1 = (Ok tt, l2) ->
  construct L (NewAttack pgd) l2 = (Ok tt, l3) ->
  exists self,
    out_res (robustLoss_init L rhs0 w) = Ok self /\
    model self = PytorchModel_ResNet18 /\
    call_objective L self (obj_function self) = obj_fun L self /\
    map (call_constraint L self) (constraints self) = [adversarialLoss L self] /\
    rhs self = [rhs0] /\
    length (constraints self) = 1 /\
    length (rhs self) = 1 /\
    length (lambdas (out_world (robustLoss_init L rhs0 w))) = 1 /\
    foolbox_model self = fmodel /\
    attack self = pgd /\
    problem L = robustLoss_init L 0.7%Q.
Proof.
  intros fmodel pgd H1 H2 H3.
  unfold robustLoss_init. cbv zeta. unfold new.
  rewrite (bind_Ok _ _ w tt); rewrite (lib_call_Ok _ _ w tt l1 H1); [|reflexivity].
  cbn [out_res out_world out_log].
  rewrite (bind_Ok _ _ _ tt); rewrite (lib_call_Ok _ _ (set_lib l1 w) tt l2 H2);
    [|reflexivity].
  cbn [out_res out_world out_log].
  rewrite (bind_Ok _ _ _ tt);
    rewrite (lib_call_Ok _ _ (set_lib l2 (set_lib l1 w)) tt l3 H3); [|reflexivity].
  cbn. eexists. split; [reflexivity|]. cbn. repeat split; reflexivity.
Qed.

Lemma problem_bundles_one_constraint_and_one_rhs_witness :
  exists self,
    out_res (robustLoss_init Toy.library 0.7%Q (Toy.world 3)) = Ok self /\
    model self = PytorchModel_ResNet18 /\
    call_objective Toy.library self (obj_function self) = obj_fun Toy.library self /\
    map (call_constraint Toy.library self) (constraints self) =
      [adversarialLoss Toy.library self] /\
    rhs self = [0.7%Q] /\
    length (constraints self) = 1 /\
    length (rhs self) = 1 /\
    length (lambdas (out_world (robustLoss_init Toy.library 0.7%Q (Toy.world 3)))) = 1 /\
    foolbox_model self =
      {| bounds := (0, 1)%Q;
         preprocessing_mean := [0.4914; 0.4822; 0.4465]%Q;
         preprocessing_std := [0.2023; 0.1994; 0.2010]%Q;
         preprocessing_axis := (-3)%Z |} /\
    attack self =
      {| rel_stepsize := (1 / 3)%Q; abs_stepsize := None;
         steps := 5; random_start := true |} /\
    problem Toy.library = robustLoss_init Toy.library 0.7%Q.
Proof.
  apply (problem_bundles_one_constraint_and_one_rhs
           Toy.library 0.7%Q (Toy.world 3) 2 1 0); reflexivity.
Defined.

(* --------------------------------------------------------------------- *)
(** ** The adversarial loss *)
(* --------------------------------------------------------------------- *)

Section Runs.

Context {Lib : Type} (L : Library Lib).

Lemma runs_ret {A} (a : A) (w : World Lib) : runs (ret a) w (Ok a) w [].
Proof. reflexivity. Qed.

Lemma runs_bind_Ok {A B} (m : M Lib A) (k : A -> M Lib B) w a w1 l1 r w2 l2 :
  runs m w (Ok a) w1 l1 -> runs (k a) w1 r w2 l2 ->
  runs (bind m k) w r w2 (l1 ++ l2).
Proof. unfold runs, bind. intros -> . cbn. intros ->. reflexivity. Qed.

Lemma runs_bind_Raise {A B} (m : M Lib A) (k : A -> M Lib B) w e w1 l1 :
  runs m w (Raise e) w1 l1 -> runs (bind m k) w (Raise e) w1 l1.
Proof. unfold runs, bind. intros ->. reflexivity. Qed.

Lemma runs_emit ev (w : World Lib) : runs (emit ev) w (Ok tt) w [ev].
Proof. reflexivity. Qed.

Lemma runs_get (w : World Lib) : runs get w (Ok w) w [].
Proof. reflexivity. Qed.

Lemma runs_modify f (w : World Lib) : runs (modify f) w (Ok tt) (f w) [].
Proof. reflexivity. Qed.

Lemma runs_lift_result_Ok {A} (r : result A) a (w : World Lib) :
  r = Ok a -> runs (lift_result r) w (Ok a) w [].
Proof. intros ->. reflexivity. Qed.

Lemma runs_lift_result_Raise {A} (r : result A) e (w : World Lib) :
  r = Raise e -> runs (lift_result r) w (Raise e) w [EvRaised e].
Proof. intros ->. reflexivity. Qed.

Lemma runs_lib_call_Ok {A} ev (f : Lib -> result A * Lib) w a l' :
  f (lib w) = (Ok a, l') -> runs (lib_call ev f) w (Ok a) (set_lib l' w) [ev].
Proof. intros H. unfold runs, lib_call. rewrite H. reflexivity. Qed.

Lemma runs_lib_call_Raise {A} ev (f : Lib -> result A * Lib) w e l' :
  f (lib w) = (Raise e, l') ->
  runs (lib_call ev f) w (Raise e) (set_lib l' w) [ev; EvRaised e].
Proof. intros H. unfold runs, lib_call. rewrite H. reflexivity. Qed.

Lemma runs_no_grad {A} (body : M Lib A) w r w1 l :
  runs body (set_grad_enabled false w) r w1 l ->
  runs (no_grad body) w r (set_grad_enabled (grad_enabled w) w1) l.
Proof. unfold runs, no_grad. intros ->. reflexivity. Qed.

Lemma runs_model_eval (w : World Lib) :
  runs model_eval w (Ok tt) (set_training false w) [EvModelEval].
Proof. reflexivity. Qed.

Lemma runs_model_train (w : World Lib) :
  runs model_train w (Ok tt) (set_training true w) [EvModelTrain].
Proof. reflexivity. Qed.

Lemma runs_model_call_Ok input w yhat l' :
  model_forward L (training w) (grad_enabled w) input (lib w) = (Ok yhat, l') ->
  runs (model_call L input) w
       (Ok {| value := yhat; requires_grad := grad_enabled w |})
       (set_lib l' w) [EvForward (training w) (grad_enabled w) input].
Proof.
  intros H. unfold model_call.
  change [EvForward (training w) (grad_enabled w) input]
    with ([] ++ [EvForward (training w) (grad_enabled w) input] ++ []).
  eapply runs_bind_Ok; [apply runs_get|].
  eapply runs_bind_Ok; [apply runs_lib_call_Ok; exact H|]. apply runs_ret.
Qed.

Lemma runs_loss_Ok (yhat : Tracked (list (list Q))) y (w : World Lib) v :
  cross_entropy L (value yhat) y = Ok v ->
  runs (_loss L yhat y) w
       (Ok {| value := v; requires_grad := requires_grad yhat && grad_enabled w |})
       w [EvCrossEntropy (value yhat) y].
Proof.
  intros H. unfold _loss.
  change [EvCrossEntropy (value yhat) y]
    with ([] ++ [EvCrossEntropy (value yhat) y] ++ []).
  eapply runs_bind_Ok; [apply runs_get|].
  eapply runs_bind_Ok; [|apply runs_ret].
  unfold runs, lib_call. cbn. rewrite H. destruct w; reflexivity.
Qed.

Lemma runs_attack_scalar_Ok a fm x y e w v l' effs :
  attack_scalar L a fm x y e w = (Ok v, l', effs) ->
  runs (run_attack_scalar L a fm x y e) w (Ok v)
       (set_grads (apply_effects (param_grads w) effs (heap w)).1
                  (apply_effects (param_grads w) effs (heap w)).2 (set_lib l' w))
       [EvAttack a fm x y (EpsScalar e)].
Proof. intros H. unfold runs, run_attack_scalar. rewrite H. reflexivity. Qed.

Lemma runs_attack_scalar_Raise a fm x y e w e' l' effs :
  attack_scalar L a fm x y e w = (Raise e', l', effs) ->
  runs (run_attack_scalar L a fm x y e) w (Raise e')
       (set_grads (apply_effects (param_grads w) effs (heap w)).1
                  (apply_effects (param_grads w) effs (heap w)).2 (set_lib l' w))
       [EvAttack a fm x y (EpsScalar e); EvRaised e'].
Proof. intros H. unfold runs, run_attack_scalar. rewrite H. reflexivity. Qed.

Lemma runs_self {A} (m : M Lib A) w :
  runs m w (out_res (m w)) (out_world (m w)) (out_log (m w)).
Proof. unfold runs. destruct (m w); reflexivity. Qed.

Lemma runs_outcome {A} (m : M Lib A) w r w' l :
  runs m w r w' l -> out_res (m w) = r /\ out_world (m w) = w' /\ out_log (m w) = l.
Proof. unfold runs. intros ->. auto. Qed.

End Runs.

Ltac run_step lem := eapply runs_bind_Ok; [lem|]; cbv beta iota zeta.

(** C3: in a run whose library calls succeed, [adversarialLoss] fetches
    the batch, attacks it against the current model, and returns the
    cross-entropy of the model on the preprocessed adversarial inputs.
    With [primal = False] the forward pass runs with gradients disabled
    (and the result does not require a gradient); with [primal = True] it
    runs in training mode with the gradient mode of the caller, hence with
    tracking when the caller has gradients enabled. *)
Theorem adversarialLoss_attacks_then_evaluates
    {Lib} (L : Library Lib) (self : robustLoss) (batch_idx : list nat)
    (primal : bool) (w : World Lib)
    (x : list (list (list (list Q)))) (y : list nat) (lib1 : Lib)
    (raw clipped : list (list (list (list Q)))) (success : list bool)
    (lib2 : Lib) (effs : list GradEffect)
    (input : list (list (list (list Q)))) (yhat : list (list Q)) (lib3 : Lib) (v : Q) :
  let w_attack :=
    set_grads (param_grads w) (deepcopy_all (param_grads w) (heap w)).2
      (set_training false (set_lib lib1 w)) in
  let tracking := primal && grad_enabled w in
  dataset_getitem L (data self) (IdxList batch_idx) (lib w) = (Ok (x, y), lib1) ->
  attack_scalar L (attack self) (foolbox_model self) x y eps w_attack =
    (Ok (raw, clipped, success), lib2, effs) ->
  preprocess raw = Ok input ->
  model_forward L primal tracking input lib2 = (Ok yhat, lib3) ->
  cross_entropy L yhat y = Ok v ->
  let o := adversarialLoss L self batch_idx primal w in
  out_res o = Ok {| value := v; requires_grad := tracking |} /\
  out_log o =
    [EvGetItem (data self) (IdxList batch_idx); EvModelEval;
     EvAttack (attack self) (foolbox_model self) x y (EpsScalar eps)] ++
    (if primal then [EvModelTrain] else []) ++
    [EvForward primal tracking input; EvCrossEntropy yhat y] ++
    (if primal then [] else [EvModelTrain]) /\
  (primal = false -> tracking = false) /\
  (primal = true -> grad_enabled w = true -> tracking = true) /\
  training (out_world o) = true /\
  grad_enabled (out_world o) = grad_enabled w /\
  lib (out_world o) = lib3.
Proof.
  intros w_attack tracking Hget Hatt Hpre Hfwd Hce o.
  assert (Hrun : exists r w' l,
             runs (adversarialLoss L self batch_idx primal) w r w' l /\
             r = Ok {| value := v; requires_grad := tracking |} /\
             l = [EvGetItem (data self) (IdxList batch_idx); EvModelEval;
                  EvAttack (attack self) (foolbox_model self) x y (EpsScalar eps)] ++
                 (if primal then [EvModelTrain] else []) ++
                 [EvForward primal tracking input; EvCrossEntropy yhat y] ++
                 (if primal then [] else [EvModelTrain]) /\
             training w' = true /\ grad_enabled w' = grad_enabled w /\ lib w' = lib3).
  { subst tracking. unfold adversarialLoss, getitem.
    destruct primal; cbn [andb] in Hfwd |- *.
    - eexists _, _, _. split; [|split; [|split; [|split; [|split]]]].
      + run_step ltac:(apply runs_lib_call_Ok; exact Hget).
        run_step ltac:(apply runs_model_eval).
        run_step ltac:(apply runs_get).
        run_step ltac:(apply runs_modify).
        run_step ltac:(apply runs_attack_scalar_Ok; exact Hatt).
        run_step ltac:(apply runs_modify).
        run_step ltac:(apply runs_model_train).
        run_step ltac:(apply runs_lift_result_Ok; exact Hpre).
        run_step ltac:(apply runs_model_call_Ok; exact Hfwd).
        run_step ltac:(apply runs_loss_Ok; exact Hce).
        apply runs_ret.
      + apply (f_equal (fun b => Ok {| value := v; requires_grad := b |})).
        change (grad_enabled w && grad_enabled w = grad_enabled w). apply andb_diag.
      + reflexivity.
      + reflexivity.
      + reflexivity.
      + reflexivity.
    - eexists _, _, _. split; [|split; [|split; [|split; [|split]]]].
      + run_step ltac:(apply runs_lib_call_Ok; exact Hget).
        run_step ltac:(apply runs_model_eval).
        run_step ltac:(apply runs_get).
        run_step ltac:(apply runs_modify).
        run_step ltac:(apply runs_attack_scalar_Ok; exact Hatt).
        run_step ltac:(apply runs_modify).
        eapply runs_bind_Ok.
        { apply runs_no_grad.
          run_step ltac:(apply runs_lift_result_Ok; exact Hpre).
          run_step ltac:(apply runs_model_call_Ok; exact Hfwd).
          apply runs_loss_Ok. exact Hce. }
        cbv beta.
        run_step ltac:(apply runs_model_train).
        apply runs_ret.
      + reflexivity.
      + reflexivity.
      + reflexivity.
      + reflexivity.
      + reflexivity. }
  destruct Hrun as (r & w' & l & Hrun & -> & -> & Htr & Hgr & Hlib).
  apply runs_outcome in Hrun as (Hres & Hw & Hlog). fold o in Hres, Hw, Hlog.
  rewrite Hres, Hw, Hlog. subst tracking.
  split; [reflexivity|]. split; [reflexivity|].
  split; [intros ->; reflexivity|].
  split; [intros -> ->; reflexivity|]. auto.
Qed.

Lemma adversarialLoss_attacks_then_evaluates_witness :
  out_res (adversarialLoss Toy.library Toy.problem [0; 1] true (Toy.world 10)) =
    Ok {| value := 2%Q; requires_grad := true |} /\
  out_res (adversarialLoss Toy.library Toy.problem [0; 1] false (Toy.world 10)) =
    Ok {| value := 2%Q; requires_grad := false |}.
Proof.
  split.
  - refine (proj1 (adversarialLoss_attacks_then_evaluates
                     Toy.library Toy.problem [0; 1] true (Toy.world 10)
                     _ _ _ _ _ _ _ _ _ _ _ 2%Q _ _ _ _ _)); reflexivity.
  - refine (proj1 (adversarialLoss_attacks_then_evaluates
                     Toy.library Toy.problem [0; 1] false (Toy.world 10)
                     _ _ _ _ _ _ _ _ _ _ _ 2%Q _ _ _ _ _)); reflexivity.
Defined.

(* --------------------------------------------------------------------- *)
(** ** Gradients across the attack *)
(* --------------------------------------------------------------------- *)

Lemma fresh_unallocated (h : gmap positive (list Q)) : h !! fresh (dom h) = None.
Proof. apply not_elem_of_dom. apply is_fresh. Qed.

Lemma deepcopy_all_spec gs : forall h,
  Forall (allocated_in h) gs ->
  length (deepcopy_all gs h).1 = length gs /\
  (forall l t, h !! l = Some t -> (deepcopy_all gs h).2 !! l = Some t) /\
  map (deref (deepcopy_all gs h).2) (deepcopy_all gs h).1 = map (deref h) gs /\
  Forall (fun c => forall l, c = Some l ->
            h !! l = None /\ is_Some ((deepcopy_all gs h).2 !! l))
         (deepcopy_all gs h).1.
Proof.
  induction gs as [|g tl IH]; intros h Hwf.
  - cbn. repeat split; auto.
  - apply Forall_cons in Hwf as [Hg Htl]. cbn [deepcopy_all].
    destruct g as [l|].
    + destruct Hg as [t Ht]. cbn [deepcopy]. rewrite Ht. cbn [fst snd].
      set (l' := fresh (dom h)). set (h1 := <[l' := t]> h).
      assert (Hl' : h !! l' = None) by apply fresh_unallocated.
      assert (Hsub : forall l0 t0, h !! l0 = Some t0 -> h1 !! l0 = Some t0).
      { intros l0 t0 H0. unfold h1. rewrite lookup_insert_ne; [exact H0|].
        intros ->. congruence. }
      assert (Hwf1 : Forall (allocated_in h1) tl).
      { eapply Forall_impl; [exact Htl|]. intros [l0|] H0; [|exact I].
        destruct H0 as [t0 H0]. exists t0. apply Hsub. exact H0. }
      destruct (IH h1 Hwf1) as (Hlen & Hkeep & Hval & Hfresh).
      split; [cbn; lia|]. split; [intros l0 t0 H0; apply Hkeep, Hsub, H0|].
      split; [|apply Forall_cons; split].
      * cbn [map]. f_equal.
        -- cbn. rewrite (Hkeep l' t); [symmetry; exact Ht|].
           unfold h1. apply lookup_insert_eq.
        -- rewrite Hval. apply map_ext_in. intros [l0|] Hin; [|reflexivity].
           cbn. rewrite Forall_forall in Htl. apply list_elem_of_In in Hin.
           destruct (Htl _ Hin) as [t0 H0]. rewrite H0. apply Hsub. exact H0.
      * intros l0 [= <-]. split; [exact Hl'|]. exists t. apply Hkeep.
        unfold h1. apply lookup_insert_eq.
      * eapply Forall_impl; [exact Hfresh|]. intros c Hc l0 ->.
        destruct (Hc l0 eq_refl) as [Hnone Hsome]. split; [|exact Hsome].
        destruct (h !! l0) as [t0|] eqn:E; [|reflexivity].
        rewrite (Hsub l0 t0 E) in Hnone. discriminate.
    + cbn [deepcopy fst snd]. destruct (IH h Htl) as (Hlen & Hkeep & Hval & Hfresh).
      split; [cbn; lia|]. split; [exact Hkeep|]. split.
      * cbn [map]. f_equal. exact Hval.
      * apply Forall_cons. split; [intros l0 [=] | exact Hfresh].
Qed.

Lemma apply_effects_protected (S : positive -> Prop) gs : forall effs h,
  (forall l, S l -> is_Some (h !! l)) ->
  Forall (fun g => forall l, g = Some l -> ~ S l) gs ->
  length (apply_effects gs effs h).1 = length gs /\
  forall l, S l -> (apply_effects gs effs h).2 !! l = h !! l.
Proof.
  induction gs as [|g tl IH]; intros effs h Halloc Hdisj.
  - cbn. auto.
  - destruct effs as [|e effs]; [cbn; auto|].
    apply Forall_cons in Hdisj as [Hg Htl]. cbn [apply_effects].
    assert (Hstep : (forall l, S l -> is_Some ((apply_effect g e h).2 !! l)) /\
                    (forall l, S l -> (apply_effect g e h).2 !! l = h !! l)).
    { destruct e as [|t|[t|]]; cbn [apply_effect].
      - cbn. auto.
      - destruct g as [l0|]; cbn; [|auto].
        assert (forall l, S l -> <[l0:=t]> h !! l = h !! l) as Hne.
        { intros l Hl. apply lookup_insert_ne. intros ->. exact (Hg l eq_refl Hl). }
        split; [intros l Hl; rewrite (Hne l Hl); auto | exact Hne].
      - cbn.
        assert (forall l, S l -> <[fresh (dom h):=t]> h !! l = h !! l) as Hne.
        { intros l Hl. apply lookup_insert_ne. intros <-.
          destruct (Halloc _ Hl) as [t0 H0]. rewrite fresh_unallocated in H0. discriminate. }
        split; [intros l Hl; rewrite (Hne l Hl); auto | exact Hne].
      - cbn. auto. }
    destruct Hstep as [Halloc' Hsame].
    destruct (IH effs (apply_effect g e h).2 Halloc' Htl) as [Hlen Hkeep].
    cbn [fst snd]. split; [cbn; lia|].
    intros l Hl. rewrite (Hkeep l Hl). apply Hsame. exact Hl.
Qed.

Lemma restore_grads_all gs : forall saved,
  length saved = length gs -> restore_grads gs saved = saved.
Proof.
  induction gs as [|g tl IH]; intros [|s saved] Hlen; try discriminate; [reflexivity|].
  cbn. f_equal. apply IH. cbn in Hlen. lia.
Qed.

(** Saving, attacking and restoring leaves every gradient value as it
    was. *)
Lemma save_attack_restore gs h effs :
  Forall (allocated_in h) gs ->
  let copies := deepcopy_all gs h in
  let after := apply_effects gs effs copies.2 in
  map (deref after.2) (restore_grads after.1 copies.1) = map (deref h) gs.
Proof.
  intros Hwf copies after.
  destruct (deepcopy_all_spec gs h Hwf) as (Hlen & Hkeep & Hval & Hfresh).
  fold copies in Hlen, Hkeep, Hval, Hfresh.
  set (S := fun l => h !! l = None /\ is_Some (copies.2 !! l)).
  destruct (apply_effects_protected S gs effs copies.2) as [Hlen' Hprot].
  { intros l [_ Hl]. exact Hl. }
  { eapply Forall_impl; [exact Hwf|]. intros g Hg l -> [Hnone _].
    destruct Hg as [t Ht]. congruence. }
  fold after in Hlen', Hprot.
  rewrite restore_grads_all by lia.
  rewrite <- Hval. apply map_ext_in. intros [l|] Hin; [|reflexivity].
  cbn. apply Hprot. rewrite Forall_forall in Hfresh.
  apply list_elem_of_In in Hin. exact (Hfresh _ Hin l eq_refl).
Qed.

Section KeepsGrads.

Context {Lib : Type} (L : Library Lib).

Lemma keeps_ret {A} (a : A) : keeps_grads (Lib:=Lib) (ret a).
Proof. intros w. auto. Qed.

Lemma keeps_bind {A B} (m : M Lib A) (k : A -> M Lib B) :
  keeps_grads m -> (forall a, keeps_grads (k a)) -> keeps_grads (bind m k).
Proof.
  intros Hm Hk w. destruct (Hm w) as [Hg Hh].
  destruct (out_res (m w)) as [a|e] eqn:E.
  - rewrite (bind_Ok m k w a E). cbn.
    destruct (Hk a (out_world (m w))) as [Hg' Hh']. split; congruence.
  - rewrite (bind_Raise m k w e E). cbn. auto.
Qed.

Lemma keeps_lift_result {A} (r : result A) : keeps_grads (Lib:=Lib) (lift_result r).
Proof. destruct r; intros w; cbn; auto. Qed.

Lemma keeps_emit ev : keeps_grads (Lib:=Lib) (emit ev).
Proof. intros w. auto. Qed.

Lemma keeps_get : keeps_grads (Lib:=Lib) get.
Proof. intros w. auto. Qed.

Lemma keeps_set_training b : keeps_grads (Lib:=Lib) (modify (set_training b)).
Proof. intros w. auto. Qed.

Lemma keeps_lib_call {A} ev (f : Lib -> result A * Lib) : keeps_grads (lib_call ev f).
Proof. intros w. unfold lib_call. destruct (f (lib w)).1; auto. Qed.

Lemma keeps_no_grad {A} (body : M Lib A) : keeps_grads body -> keeps_grads (no_grad body).
Proof. intros Hb w. unfold no_grad. cbn. apply (Hb (set_grad_enabled false w)). Qed.

Lemma keeps_model_train : keeps_grads (Lib:=Lib) model_train.
Proof. apply keeps_bind; [apply keeps_emit | intros; apply keeps_set_training]. Qed.

Lemma keeps_model_call input : keeps_grads (model_call L input).
Proof.
  apply keeps_bind; [apply keeps_get|]. intros w.
  apply keeps_bind; [apply keeps_lib_call | intros; apply keeps_ret].
Qed.

Lemma keeps_loss yhat y : keeps_grads (_loss L yhat y).
Proof.
  apply keeps_bind; [apply keeps_get|]. intros w.
  apply keeps_bind; [apply keeps_lib_call | intros; apply keeps_ret].
Qed.

Lemma keeps_grad_values {A} (m : M Lib A) w :
  keeps_grads m -> grad_values (out_world (m w)) = grad_values w.
Proof. intros H. destruct (H w) as [Hg Hh]. unfold grad_values. congruence. Qed.

End KeepsGrads.

Ltac keeps :=
  repeat first
    [ apply keeps_ret | apply keeps_lift_result | apply keeps_emit | apply keeps_get
    | apply keeps_set_training | apply keeps_lib_call | apply keeps_model_train
    | apply keeps_model_call | apply keeps_loss
    | apply keeps_no_grad
    | apply keeps_bind; [|intros ?] ].

(** C8: in a run of [adversarialLoss] whose attack call does not raise, the
    value of every parameter's [.grad] is at the end what it was at the
    start, whatever the attack did to the gradients in between (in-place
    updates, new tensors, [None]): the values were copied into new objects
    before the attack and the fields bound to the copies after it. *)
Theorem adversarialLoss_restores_gradients
    {Lib} (L : Library Lib) (self : robustLoss) (batch_idx : list nat)
    (primal : bool) (w : World Lib) :
  grads_wf w ->
  attack_raised (out_log (adversarialLoss L self batch_idx primal w)) = false ->
  grad_values (out_world (adversarialLoss L self batch_idx primal w)) = grad_values w.
Proof.
  intros Hwf Hquiet.
  destruct (dataset_getitem L (data self) (IdxList batch_idx) (lib w))
    as [[[x y]|e] lib1] eqn:Hget.
  2:{ assert (Hrun : runs (adversarialLoss L self batch_idx primal) w (Raise e)
                       (set_lib lib1 w)
                       [EvGetItem (data self) (IdxList batch_idx); EvRaised e]).
      { unfold adversarialLoss, getitem. apply runs_bind_Raise.
        apply runs_lib_call_Raise. exact Hget. }
      apply runs_outcome in Hrun as (_ & -> & _). reflexivity. }
  set (w_attack :=
         set_grads (param_grads w) (deepcopy_all (param_grads w) (heap w)).2
           (set_training false (set_lib lib1 w))).
  destruct (attack_scalar L (attack self) (foolbox_model self) x y eps w_attack)
    as [[[[[raw clipped] success]|e] lib2] effs] eqn:Hatt.
  2:{ exfalso.
      assert (Hrun : exists w' l,
                 runs (adversarialLoss L self batch_idx primal) w (Raise e) w' l /\
                 attack_raised l = true).
      { eexists _, _. split.
        - unfold adversarialLoss, getitem.
          run_step ltac:(apply runs_lib_call_Ok; exact Hget).
          run_step ltac:(apply runs_model_eval).
          run_step ltac:(apply runs_get).
          run_step ltac:(apply runs_modify).
          apply runs_bind_Raise. apply runs_attack_scalar_Raise. exact Hatt.
        - reflexivity. }
      destruct Hrun as (w' & l & Hrun & Hl).
      apply runs_outcome in Hrun as (_ & _ & Hlog). congruence. }
  assert (Hrun : exists r w' l (tail : M Lib (Tracked Q)) w_restored,
             runs (adversarialLoss L self batch_idx primal) w r w' l /\
             w' = out_world (tail w_restored) /\
             keeps_grads tail /\
             grad_values w_restored = grad_values w).
  { eexists _, _, _, _, _. split; [|split; [|split]].
    - unfold adversarialLoss, getitem.
      run_step ltac:(apply runs_lib_call_Ok; exact Hget).
      run_step ltac:(apply runs_model_eval).
      run_step ltac:(apply runs_get).
      run_step ltac:(apply runs_modify).
      run_step ltac:(apply runs_attack_scalar_Ok; exact Hatt).
      run_step ltac:(apply runs_modify).
      apply runs_self.
    - reflexivity.
    - destruct primal; keeps.
    - exact (save_attack_restore (param_grads w) (heap w) effs Hwf). }
  destruct Hrun as (r & w' & l & tail & w_restored & Hrun & -> & Hkeeps & Hvalues).
  apply runs_outcome in Hrun as (_ & -> & _).
  rewrite (keeps_grad_values tail w_restored Hkeeps). exact Hvalues.
Qed.

Lemma adversarialLoss_restores_gradients_witness :
  grad_values (out_world (adversarialLoss Toy.library Toy.problem [0; 1] true (Toy.world 10))) =
    [Some [1%Q]; Some [2%Q]; None; Some [3%Q]].
Proof.
  apply (adversarialLoss_restores_gradients
           Toy.library Toy.problem [0; 1] true (Toy.world 10)).
  - repeat constructor; vm_compute; eauto.
  - vm_compute. reflexivity.
Defined.

(* ===================================================================== *)
(** * Further properties of the script *)
(* ===================================================================== *)

(* --------------------------------------------------------------------- *)
(** ** accuracy: perfect and null scores, errors, broadcasting *)
(* --------------------------------------------------------------------- *)

Lemma accuracy_hits (yhat : list (list Q)) (y : list nat) :
  yhat <> [] ->
  Forall (fun row => row <> []) yhat ->
  length y = length yhat ->
  exists hits : list bool,
    accuracy yhat y =
      Ok (inject_Z (Z.of_nat (count_hits hits)) / inject_Z (Z.of_nat (length yhat)))%Q /\
    length hits = length yhat /\
    (forall i row lbl, yhat !! i = Some row -> y !! i = Some lbl ->
       (hits !! i = Some true <-> first_argmax row lbl)).
Proof.
  intros Hne Hrows Hlen.
  destruct (torch_max_dim1_rows yhat Hrows) as (vs & ps & Hmax & Hplen & Hps).
  unfold accuracy. rewrite Hmax. cbn [result_bind snd].
  unfold tensor_eq. rewrite Hplen, Hlen, Nat.eqb_refl. cbn [result_bind].
  unfold py_div. destruct (Nat.eqb_spec (length yhat) 0) as [H0|Hn0].
  { destruct yhat; [congruence | discriminate]. }
  exists (zip_with Nat.eqb ps y). rewrite tensor_sum_count.
  split; [reflexivity|]. split; [rewrite length_zip_with; lia|].
  intros i row lbl Hi Hy.
  assert (exists j, ps !! i = Some j) as [j Hj].
  { apply lookup_lt_is_Some. rewrite Hplen. eapply lookup_lt_Some; eassumption. }
  pose proof (Hps i row j Hi Hj) as Harg.
  rewrite lookup_zip_with, Hj, Hy. cbn. split.
  - intros [= Heq]. apply Nat.eqb_eq in Heq. subst. exact Harg.
  - intros Hl. rewrite (first_argmax_unique row j lbl Harg Hl), Nat.eqb_refl. reflexivity.
Qed.

Lemma count_hits_all hits : count_hits hits = length hits <-> Forall (fun b => b = true) hits.
Proof.
  unfold count_hits. induction hits as [|[|] tl IH].
  - split; [constructor | reflexivity].
  - rewrite filter_cons_True by reflexivity. cbn [length]. rewrite Forall_cons. split.
    + intros [= H]. split; [reflexivity | apply IH; exact H].
    + intros [_ H]. f_equal. apply IH. exact H.
  - rewrite filter_cons_False by discriminate. cbn [length]. split.
    + intros H. pose proof (length_filter (fun b : bool => b = true) tl). lia.
    + intros H. apply Forall_cons in H as [H _]. discriminate.
Qed.

Lemma count_hits_none hits : count_hits hits = 0 <-> Forall (fun b => b = false) hits.
Proof.
  unfold count_hits. induction hits as [|[|] tl IH].
  - split; [constructor | reflexivity].
  - rewrite filter_cons_True by reflexivity. cbn [length]. split; [discriminate|].
    intros H. apply Forall_cons in H as [H _]. discriminate.
  - rewrite filter_cons_False by discriminate. rewrite Forall_cons, IH. tauto.
Qed.

Lemma fraction_eq_one c n :
  0 < n -> (inject_Z (Z.of_nat c) / inject_Z (Z.of_nat n) == 1)%Q <-> c = n.
Proof.
  intros Hn. unfold Qeq, Qdiv, Qmult, Qinv, inject_Z. cbn.
  destruct (Z.of_nat n) as [|p|p] eqn:E; [lia | | lia]. cbn. lia.
Qed.

Lemma fraction_eq_zero c n :
  0 < n -> (inject_Z (Z.of_nat c) / inject_Z (Z.of_nat n) == 0)%Q <-> c = 0.
Proof.
  intros Hn. unfold Qeq, Qdiv, Qmult, Qinv, inject_Z. cbn.
  destruct (Z.of_nat n) as [|p|p] eqn:E; [lia | | lia]. cbn. lia.
Qed.

(** On well-shaped arguments the accuracy is 1 exactly when every row's
    argmax is its label, and 0 exactly when none is. *)
Theorem accuracy_perfect_and_null (yhat : list (list Q)) (y : list nat) :
  yhat <> [] ->
  Forall (fun row => row <> []) yhat ->
  length y = length yhat ->
  exists q,
    accuracy yhat y = Ok q /\
    ((q == 1)%Q <->
       forall i row lbl, yhat !! i = Some row -> y !! i = Some lbl -> first_argmax row lbl) /\
    ((q == 0)%Q <->
       forall i row lbl, yhat !! i = Some row -> y !! i = Some lbl -> ~ first_argmax row lbl).
Proof.
  intros Hne Hrows Hlen.
  destruct (accuracy_hits yhat y Hne Hrows Hlen) as (hits & Hacc & Hhl & Hhits).
  assert (Hpos : 0 < length yhat) by (destruct yhat; [congruence | cbn; lia]).
  eexists. split; [exact Hacc|]. split.
  - rewrite fraction_eq_one by exact Hpos. rewrite <- Hhl, count_hits_all, Forall_lookup.
    split.
    + intros Hall i row lbl Hi Hy. apply (Hhits i row lbl Hi Hy).
      destruct (hits !! i) as [b|] eqn:Eb.
      * rewrite (Hall i b Eb). reflexivity.
      * apply lookup_ge_None in Eb. apply lookup_lt_Some in Hi. lia.
    + intros Hall i b Hb.
      assert (exists row, yhat !! i = Some row) as [row Hi].
      { apply lookup_lt_is_Some. rewrite <- Hhl. eapply lookup_lt_Some; eassumption. }
      assert (exists lbl, y !! i = Some lbl) as [lbl Hy].
      { apply lookup_lt_is_Some. rewrite Hlen. eapply lookup_lt_Some; eassumption. }
      pose proof (proj2 (Hhits i row lbl Hi Hy) (Hall i row lbl Hi Hy)) as Ht. congruence.
  - rewrite fraction_eq_zero by exact Hpos. rewrite count_hits_none, Forall_lookup.
    split.
    + intros Hall i row lbl Hi Hy Harg.
      pose proof (proj2 (Hhits i row lbl Hi Hy) Harg) as Ht.
      pose proof (Hall i true Ht) as Hf. discriminate Hf.
    + intros Hall i b Hb. destruct b; [exfalso | reflexivity].
      assert (exists row, yhat !! i = Some row) as [row Hi].
      { apply lookup_lt_is_Some. rewrite <- Hhl. eapply lookup_lt_Some; eassumption. }
      assert (exists lbl, y !! i = Some lbl) as [lbl Hy].
      { apply lookup_lt_is_Some. rewrite Hlen. eapply lookup_lt_Some; eassumption. }
      exact (Hall i row lbl Hi Hy (proj1 (Hhits i row lbl Hi Hy) Hb)).
Qed.

Lemma accuracy_perfect_and_null_witness :
  exists q,
    accuracy [[1; 2; 3]; [3; 3; 1]]%Q [2; 0] = Ok q /\
    ((q == 1)%Q <->
       forall i row lbl,
         ([[1; 2; 3]; [3; 3; 1]]%Q : list (list Q)) !! i = Some row ->
         ([2; 0] : list nat) !! i = Some lbl -> first_argmax row lbl) /\
    ((q == 0)%Q <->
       forall i row lbl,
         ([[1; 2; 3]; [3; 3; 1]]%Q : list (list Q)) !! i = Some row ->
         ([2; 0] : list nat) !! i = Some lbl -> ~ first_argmax row lbl).
Proof.
  apply (accuracy_perfect_and_null [[1; 2; 3]; [3; 3; 1]]%Q [2; 0]).
  - discriminate.
  - repeat constructor; discriminate.
  - reflexivity.
Defined.

Lemma result_mapM_row_max_empty (yhat : list (list Q)) :
  [] ∈ yhat ->
  result_mapM row_max yhat = Raise (RuntimeError "max over an empty dimension").
Proof.
  induction yhat as [|row tl IH]; intros Hin; [inversion Hin|].
  cbn [result_mapM]. destruct row as [|v row].
  - reflexivity.
  - apply elem_of_cons in Hin as [Hin | Hin]; [discriminate|].
    cbn [row_max result_bind]. rewrite (IH Hin). reflexivity.
Qed.

(** Without rows there is nothing to divide by: [accuracy] raises
    [ZeroDivisionError] (the comparison with at most one label
    broadcasts to an empty tensor). *)
Theorem accuracy_raises_on_no_rows (y : list nat) :
  length y <= 1 -> accuracy [] y = Raise ZeroDivisionError.
Proof.
  intros Hy. destruct y as [|l [|l' y]]; [reflexivity | reflexivity | cbn in Hy; lia].
Qed.

Lemma accuracy_raises_on_no_rows_witness : accuracy [] [3] = Raise ZeroDivisionError.
Proof. apply (accuracy_raises_on_no_rows [3]). cbn. lia. Defined.

(** Row and label counts that differ, neither being one, make the
    comparison [predicted == y] raise. *)
Theorem accuracy_raises_on_size_mismatch (yhat : list (list Q)) (y : list nat) :
  Forall (fun row => row <> []) yhat ->
  length yhat <> length y ->
  length y <> 1 ->
  length yhat <> 1 ->
  accuracy yhat y = Raise (RuntimeError "tensor sizes must match").
Proof.
  intros Hrows Hne Hy1 Hp1.
  destruct (torch_max_dim1_rows yhat Hrows) as (vs & ps & Hmax & Hplen & _).
  unfold accuracy. rewrite Hmax. cbn [result_bind snd]. unfold tensor_eq. rewrite Hplen.
  destruct (Nat.eqb_spec (length yhat) (length y)); [contradiction|].
  destruct (Nat.eqb_spec (length y) 1); [contradiction|].
  destruct (Nat.eqb_spec (length yhat) 1); [contradiction|]. reflexivity.
Qed.

Lemma accuracy_raises_on_size_mismatch_witness :
  accuracy [[1; 2]; [2; 1]]%Q [0; 1; 1] = Raise (RuntimeError "tensor sizes must match").
Proof.
  apply (accuracy_raises_on_size_mismatch [[1; 2]; [2; 1]]%Q [0; 1; 1]).
  - repeat constructor; discriminate.
  - cbn; lia.
  - cbn; lia.
  - cbn; lia.
Defined.

Lemma tensor_sum_all_true (l : list bool) :
  Forall (fun b => b = true) l -> tensor_sum l = length l.
Proof.
  induction 1 as [|b l -> _ IH]; [reflexivity|].
  cbn. unfold tensor_sum in IH. rewrite IH. reflexivity.
Qed.

(** A single prediction compared with several labels is broadcast: when
    they all equal its argmax, every comparison counts and the "accuracy"
    is the number of labels, above 1. *)
Theorem accuracy_broadcast_exceeds_one (row : list Q) (j : nat) (y : list nat) :
  first_argmax row j ->
  Forall (fun lbl => lbl = j) y ->
  2 <= length y ->
  exists q,
    accuracy [row] y = Ok q /\
    (q == inject_Z (Z.of_nat (length y)))%Q /\
    (1 < q)%Q.
Proof.
  intros Harg Hy Hlen.
  assert (Hrow : row <> []).
  { destruct Harg as (v & Hv & _). intros ->. discriminate. }
  destruct (row_max_first_argmax row Hrow) as (v & j' & Hrm & Harg').
  pose proof (first_argmax_unique row j' j Harg' Harg) as ->.
  unfold accuracy, torch_max_dim1. cbn [result_mapM]. rewrite Hrm.
  cbn [result_bind fmap list_fmap map fst snd]. unfold tensor_eq. cbn [length].
  destruct (Nat.eqb_spec 1 (length y)); [lia|].
  destruct (Nat.eqb_spec (length y) 1); [lia|]. cbn [Nat.eqb hd result_bind].
  assert (Hsum : tensor_sum (map (fun l => j =? l) y) = length y).
  { rewrite tensor_sum_all_true; [apply length_map|].
    apply Forall_fmap. eapply Forall_impl; [exact Hy|]. intros l ->. cbn.
    apply Nat.eqb_refl. }
  rewrite Hsum. unfold py_div. cbn [Nat.eqb]. eexists. split; [reflexivity|].
  assert (Heq : (inject_Z (Z.of_nat (length y)) / inject_Z (Z.of_nat 1) ==
                 inject_Z (Z.of_nat (length y)))%Q).
  { unfold Qdiv. change (/ inject_Z (Z.of_nat 1))%Q with 1%Q. apply Qmult_1_r. }
  split; [exact Heq|]. rewrite Heq.
  unfold Qlt, inject_Z. cbn [Qnum Qden]. lia.
Qed.

Lemma accuracy_broadcast_exceeds_one_witness :
  exists q,
    accuracy [[1; 5; 2]]%Q [1; 1; 1] = Ok q /\
    (q == inject_Z (Z.of_nat 3))%Q /\
    (1 < q)%Q.
Proof.
  apply (accuracy_broadcast_exceeds_one [1; 5; 2]%Q 1 [1; 1; 1]).
  - exists 5%Q. split; [reflexivity|]. split.
    + intros [|[|[|k]]] w H; try discriminate; injection H as <-; vm_compute; discriminate.
    + intros [|k] w Hk H; [injection H as <-; vm_compute; reflexivity | lia].
  - repeat constructor.
  - cbn. lia.
Defined.

(* --------------------------------------------------------------------- *)
(** ** Batches in closed form *)
(* --------------------------------------------------------------------- *)

Lemma zip_tail_map_seq {A} (f : nat -> A) k : forall s,
  zip (map f (seq s (S k))) (tail (map f (seq s (S k)))) =
  map (fun i => (f i, f (S i))) (seq s k).
Proof.
  induction k as [|k IH]; intros s; [reflexivity|].
  specialize (IH (S s)). cbn in IH |- *. rewrite IH. reflexivity.
Qed.

Lemma zip_tail_multiples b k :
  zip (map (fun i => 0 + i * b) (seq 0 (S k)))
      (tail (map (fun i => 0 + i * b) (seq 0 (S k)))) =
  map (fun i => (i * b, (i + 1) * b)) (seq 0 k).
Proof.
  rewrite zip_tail_map_seq. apply map_ext. intros i. f_equal. lia.
Qed.

Lemma zip_tail_snoc (l : list nat) x n :
  last l = Some x ->
  zip (l ++ [n]) (tail (l ++ [n])) = zip l (tail l) ++ [(x, n)].
Proof.
  induction l as [|a [|a' tl] IH]; intros Hl.
  - discriminate.
  - injection Hl as ->. reflexivity.
  - specialize (IH Hl). cbn in IH |- *. rewrite IH. reflexivity.
Qed.

Lemma ceil_div_cases n b :
  0 < b ->
  (n mod b = 0 /\ ceil_div n b = n / b) \/ (0 < n mod b /\ ceil_div n b = n / b + 1).
Proof.
  intros Hb. unfold ceil_div.
  pose proof (Nat.div_mod_eq n b) as Hdm.
  pose proof (Nat.mod_upper_bound n b ltac:(lia)) as Hr.
  destruct (Nat.eq_dec (n mod b) 0) as [H0|H0]; [left | right]; (split; [lia|]).
  - symmetry. apply (Nat.div_unique _ _ _ (b - 1)); [lia|]. rewrite H0 in Hdm. lia.
  - symmetry. apply (Nat.div_unique _ _ _ (n mod b - 1)); [lia|]. lia.
Qed.

(** For a batch size of at least one, the loops run over ceil(n/b)
    batches, and the i-th one is the range from i*b to min((i+1)*b, n):
    all batches are full but possibly the last, and a dataset without
    samples gives no batch. *)
Theorem batches_closed_form (n b : nat) :
  1 <= b ->
  exists idx,
    batch_idx n b = Ok idx /\
    batches idx =
      map (fun i => (i * b, Nat.min ((i + 1) * b) n)) (seq 0 (ceil_div n b)).
Proof.
  intros Hb. rewrite batch_idx_unfold by lia. cbv zeta.
  pose proof (Nat.div_mod_eq n b) as Hdm.
  pose proof (Nat.mod_upper_bound n b ltac:(lia)) as Hr.
  assert (Hfull : forall k, k <= n / b ->
            map (fun i => (i * b, (i + 1) * b)) (seq 0 k) =
            map (fun i => (i * b, Nat.min ((i + 1) * b) n)) (seq 0 k)).
  { intros k Hk. apply map_ext_in. intros i Hi. apply in_seq in Hi. f_equal.
    symmetry. apply Nat.min_l. nia. }
  destruct (ceil_div_cases n b ltac:(lia)) as [[H0 ->] | [H0 ->]].
  - destruct (Nat.ltb_spec (n / b * b) n) as [Hlt | _]; [nia|].
    eexists. split; [reflexivity|]. unfold batches.
    rewrite zip_tail_multiples. apply Hfull. lia.
  - destruct (Nat.ltb_spec (n / b * b) n) as [_ | Hge]; [|nia].
    eexists. split; [reflexivity|]. unfold batches.
    rewrite (zip_tail_snoc _ (n / b * b)) by apply multiples_last.
    rewrite zip_tail_multiples.
    replace (n / b + 1) with (S (n / b)) by lia. rewrite seq_S, map_app.
    rewrite (Hfull (n / b)) by lia. cbn [map]. do 3 f_equal.
    symmetry. apply Nat.min_r. nia.
Qed.

Lemma batches_closed_form_witness :
  exists idx,
    batch_idx 10 4 = Ok idx /\
    batches idx =
      map (fun i => (i * 4, Nat.min ((i + 1) * 4) 10)) (seq 0 (ceil_div 10 4)).
Proof. apply (batches_closed_form 10 4). lia. Defined.

(* --------------------------------------------------------------------- *)
(** ** preprocess: wrong channel counts and single-channel images *)
(* --------------------------------------------------------------------- *)

Lemma result_mapM_Raise {A B} (f : A -> result B) (l : list A) e :
  (forall a, a ∈ l -> (exists b, f a = Ok b) \/ f a = Raise e) ->
  (exists a, a ∈ l /\ f a = Raise e) ->
  result_mapM f l = Raise e.
Proof.
  induction l as [|a tl IH]; intros Hall (a0 & Hin & Ha0); [inversion Hin|].
  cbn [result_mapM].
  destruct (Hall a ltac:(left)) as [[b Hb] | Hr]; [|rewrite Hr; reflexivity].
  rewrite Hb. cbn [result_bind].
  apply elem_of_cons in Hin as [-> | Hin]; [congruence|].
  rewrite IH; [reflexivity | | eauto].
  intros a' Ha'. apply Hall. right. exact Ha'.
Qed.

Lemma broadcast_channels_cases op (im : list (list (list Q))) (c : list Q) :
  length c = 3 ->
  (exists out, broadcast_channels op im c = Ok out) \/
  broadcast_channels op im c = Raise (RuntimeError "tensor sizes must match").
Proof.
  intros Hc. unfold broadcast_channels. rewrite Hc.
  destruct (length im =? 3); [eauto|]. destruct (length im =? 1); [eauto|].
  cbn. auto.
Qed.

Lemma broadcast_channels_mismatch op (im : list (list (list Q))) (c : list Q) :
  length c = 3 -> length im <> 3 -> length im <> 1 ->
  broadcast_channels op im c = Raise (RuntimeError "tensor sizes must match").
Proof.
  intros Hc H3 H1. unfold broadcast_channels. rewrite Hc.
  destruct (Nat.eqb_spec (length im) 3); [contradiction|].
  destruct (Nat.eqb_spec (length im) 1); [contradiction|]. reflexivity.
Qed.

(** A batch with an image of neither three channels nor one cannot be
    broadcast against the per-channel constants: [preprocess] raises. *)
Theorem preprocess_raises_on_channel_mismatch (img : list (list (list (list Q)))) :
  (exists im, im ∈ img /\ length im <> 3 /\ length im <> 1) ->
  preprocess img = Raise (RuntimeError "tensor sizes must match").
Proof.
  intros (im & Hin & H3 & H1). unfold preprocess, tensor_sub.
  rewrite (result_mapM_Raise _ img (RuntimeError "tensor sizes must match")).
  - reflexivity.
  - intros a _. apply broadcast_channels_cases. reflexivity.
  - exists im. split; [exact Hin|]. apply broadcast_channels_mismatch; auto.
Qed.

Lemma preprocess_raises_on_channel_mismatch_witness :
  preprocess [[[[1]]; [[2]]; [[3]]]; [[[1]]; [[2]]]]%Q =
    Raise (RuntimeError "tensor sizes must match").
Proof.
  apply (preprocess_raises_on_channel_mismatch [[[[1]]; [[2]]; [[3]]]; [[[1]]; [[2]]]]%Q).
  exists [[[1]]; [[2]]]%Q. split.
  - apply elem_of_cons. right. apply elem_of_cons. left. reflexivity.
  - cbn. lia.
Defined.

Lemma preprocess_one_channel (img : list (list (list (list Q)))) :
  Forall (fun im => length im = 1) img ->
  preprocess img =
    Ok (map (fun im =>
          zip_with (fun ch s => map (map (fun v => v / s)%Q) ch)
            (map (fun m => map (map (fun v => v - m)%Q) (hd [] im)) mean) std) img).
Proof.
  intros Hc. unfold preprocess, tensor_sub, tensor_div.
  rewrite (result_mapM_Ok _
             (fun im => map (fun m => map (map (fun v => v - m)%Q) (hd [] im)) mean)).
  2:{ eapply Forall_impl; [exact Hc|]. intros im Him.
      unfold broadcast_channels. rewrite Him. reflexivity. }
  cbn [result_bind].
  rewrite (result_mapM_Ok _ (fun im => zip_with (fun ch s => map (map (fun v => v / s)%Q) ch) im std)).
  2:{ apply Forall_fmap. apply Forall_forall. intros im _. reflexivity. }
  rewrite map_map. reflexivity.
Qed.

(** Single-channel images are repeated over the three channels: the
    output has the entry [(v - mean_c) / std_c] at channel [c] for the
    entry [v] of the one input channel. *)
Theorem preprocess_broadcasts_single_channel (img : list (list (list (list Q)))) :
  Forall (fun im => length im = 1) img ->
  exists out,
    preprocess img = Ok out /\
    Forall (fun im => length im = 3) out /\
    forall n c h w,
      pixel out n c h w =
        (v ← pixel img n 0 h w;
         m ← [0.4914; 0.4822; 0.4465]%Q !! c;
         s ← [0.2023; 0.1994; 0.2010]%Q !! c;
         Some ((v - m) / s)%Q).
Proof.
  intros Hc. eexists. split; [apply preprocess_one_channel; exact Hc|]. split.
  - apply Forall_fmap. apply Forall_forall. intros im _. reflexivity.
  - intros n c h w. unfold pixel. rewrite list_lookup_fmap.
    destruct (img !! n) as [im|] eqn:En; [|reflexivity].
    cbn [fmap option_fmap option_map mbind option_bind].
    rewrite Forall_lookup in Hc. specialize (Hc n im En).
    destruct im as [|ch [|ch' im]]; try discriminate. cbn [hd lookup list_lookup].
    cbn [mbind option_bind]. rewrite lookup_zip_with, list_lookup_fmap.
    fold mean. fold std.
    destruct (mean !! c) as [m|] eqn:Em.
    2:{ cbn. destruct (ch !! h) as [row|]; [|reflexivity]. cbn. destruct (row !! w); reflexivity. }
    cbn [fmap option_fmap option_map mbind option_bind].
    destruct (std !! c) as [s|] eqn:Es.
    2:{ cbn. destruct (ch !! h) as [row|]; [|reflexivity]. cbn. destruct (row !! w); reflexivity. }
    cbn [mbind option_bind]. rewrite !list_lookup_fmap.
    destruct (ch !! h) as [row|]; [|reflexivity]. cbn. rewrite !list_lookup_fmap.
    destruct (row !! w); reflexivity.
Qed.

Lemma preprocess_broadcasts_single_channel_witness :
  exists out,
    preprocess [[[[1; 2]]]]%Q = Ok out /\
    Forall (fun im => length im = 3) out /\
    forall n c h w,
      pixel out n c h w =
        (v ← pixel [[[[1; 2]]]]%Q n 0 h w;
         m ← [0.4914; 0.4822; 0.4465]%Q !! c;
         s ← [0.2023; 0.1994; 0.2010]%Q !! c;
         Some ((v - m) / s)%Q).
Proof.
  apply (preprocess_broadcasts_single_channel [[[[1; 2]]]]%Q).
  repeat constructor.
Defined.

(* --------------------------------------------------------------------- *)
(** ** The objective, and an attack that fails *)
(* --------------------------------------------------------------------- *)

(** In a run whose library calls succeed, [obj_fun] returns one tenth of
    the cross-entropy of the model on the preprocessed batch; it makes one
    forward pass in the mode it was called in, runs no attack, and changes
    nothing in the world but the library state. *)
Theorem obj_fun_evaluates
    {Lib} (L : Library Lib) (self : robustLoss) (batch_idx : list nat) (w : World Lib)
    (x : list (list (list (list Q)))) (y : list nat) (lib1 : Lib)
    (input : list (list (list (list Q)))) (yhat : list (list Q)) (lib2 : Lib) (v : Q) :
  dataset_getitem L (data self) (IdxList batch_idx) (lib w) = (Ok (x, y), lib1) ->
  preprocess x = Ok input ->
  model_forward L (training w) (grad_enabled w) input lib1 = (Ok yhat, lib2) ->
  cross_entropy L yhat y = Ok v ->
  out_res (obj_fun L self batch_idx w) =
    Ok {| value := (0.1 * v)%Q; requires_grad := grad_enabled w |} /\
  out_log (obj_fun L self batch_idx w) =
    [EvGetItem (data self) (IdxList batch_idx);
     EvForward (training w) (grad_enabled w) input;
     EvCrossEntropy yhat y] /\
  out_world (obj_fun L self batch_idx w) = set_lib lib2 w.
Proof.
  intros Hget Hpre Hfwd Hce.
  assert (Hrun : exists r w' l,
             runs (obj_fun L self batch_idx) w r w' l /\
             r = Ok {| value := (0.1 * v)%Q; requires_grad := grad_enabled w |} /\
             l = [EvGetItem (data self) (IdxList batch_idx);
                  EvForward (training w) (grad_enabled w) input;
                  EvCrossEntropy yhat y] /\
             w' = set_lib lib2 w).
  { eexists _, _, _. split; [|split; [|split]].
    - unfold obj_fun, getitem.
      run_step ltac:(apply runs_lib_call_Ok; exact Hget).
      run_step ltac:(apply runs_lift_result_Ok; exact Hpre).
      run_step ltac:(apply runs_model_call_Ok; exact Hfwd).
      run_step ltac:(apply runs_loss_Ok; exact Hce).
      apply runs_ret.
    - apply (f_equal (fun b => Ok {| value := (0.1 * v)%Q; requires_grad := b |})).
      change (grad_enabled w && grad_enabled w = grad_enabled w). apply andb_diag.
    - reflexivity.
    - reflexivity. }
  destruct Hrun as (r & w' & l & Hrun & -> & -> & ->).
  apply runs_outcome in Hrun as (-> & -> & ->). auto.
Qed.

Lemma obj_fun_evaluates_witness :
  out_res (obj_fun Toy.library Toy.problem [0; 1] (Toy.world 10)) =
    Ok {| value := (0.1 * 2)%Q; requires_grad := true |} /\
  out_world (obj_fun Toy.library Toy.problem [0; 1] (Toy.world 10)) =
    set_lib 8 (Toy.world 10).
Proof.
  refine ((fun H => conj (proj1 H) (proj2 (proj2 H)))
            (obj_fun_evaluates Toy.library Toy.problem [0; 1] (Toy.world 10)
               _ _ _ _ _ 8 2%Q _ _ _ _)); reflexivity.
Defined.

(** When the attack raises, [adversarialLoss] dies of that exception
    right there: the model is left in evaluation mode and the gradient
    fields are left as the attack made them, bound to nothing that was
    saved. *)
Theorem adversarialLoss_attack_failure_is_not_cleaned_up
    {Lib} (L : Library Lib) (self : robustLoss) (batch_idx : list nat)
    (primal : bool) (w : World Lib)
    (x : list (list (list (list Q)))) (y : list nat) (lib1 : Lib)
    (e : exn) (lib2 : Lib) (effs : list GradEffect) :
  let w_attack :=
    set_grads (param_grads w) (deepcopy_all (param_grads w) (heap w)).2
      (set_training false (set_lib lib1 w)) in
  dataset_getitem L (data self) (IdxList batch_idx) (lib w) = (Ok (x, y), lib1) ->
  attack_scalar L (attack self) (foolbox_model self) x y eps w_attack =
    (Raise e, lib2, effs) ->
  let o := adversarialLoss L self batch_idx primal w in
  out_res o = Raise e /\
  out_log o =
    [EvGetItem (data self) (IdxList batch_idx); EvModelEval;
     EvAttack (attack self) (foolbox_model self) x y (EpsScalar eps); EvRaised e] /\
  training (out_world o) = false /\
  param_grads (out_world o) =
    (apply_effects (param_grads w) effs (heap w_attack)).1 /\
  heap (out_world o) = (apply_effects (param_grads w) effs (heap w_attack)).2.
Proof.
  intros w_attack Hget Hatt o.
  assert (Hrun : exists w' l,
             runs (adversarialLoss L self batch_idx primal) w (Raise e) w' l /\
             l = [EvGetItem (data self) (IdxList batch_idx); EvModelEval;
                  EvAttack (attack self) (foolbox_model self) x y (EpsScalar eps);
                  EvRaised e] /\
             training w' = false /\
             param_grads w' = (apply_effects (param_grads w) effs (heap w_attack)).1 /\
             heap w' = (apply_effects (param_grads w) effs (heap w_attack)).2).
  { eexists _, _. split; [|split; [|split; [|split]]].
    - unfold adversarialLoss, getitem.
      run_step ltac:(apply runs_lib_call_Ok; exact Hget).
      run_step ltac:(apply runs_model_eval).
      run_step ltac:(apply runs_get).
      run_step ltac:(apply runs_modify).
      apply runs_bind_Raise. apply runs_attack_scalar_Raise. exact Hatt.
    - reflexivity.
    - reflexivity.
    - reflexivity.
    - reflexivity. }
  destruct Hrun as (w' & l & Hrun & -> & Htr & Hg & Hh).
  apply runs_outcome in Hrun as (Hres & Hw & Hlog). fold o in Hres, Hw, Hlog.
  rewrite Hres, Hw, Hlog. auto.
Qed.

Lemma adversarialLoss_attack_failure_is_not_cleaned_up_witness :
  out_res (adversarialLoss Toy.library Toy.problem [0; 1] true (Toy.world 1)) =
    Raise Toy.device_error /\
  training (out_world (adversarialLoss Toy.library Toy.problem [0; 1] true (Toy.world 1))) =
    false /\
  grad_values (out_world (adversarialLoss Toy.library Toy.problem [0; 1] true (Toy.world 1))) =
    [Some [7%Q]; None; Some [8%Q]; Some [3%Q]].
Proof.
  pose proof (adversarialLoss_attack_failure_is_not_cleaned_up
                Toy.library Toy.problem [0; 1] true (Toy.world 1)
                _ _ _ Toy.device_error _ _ eq_refl eq_refl) as (Hres & _ & Htr & Hg & Hh).
  split; [exact Hres|]. split; [exact Htr|].
  unfold grad_values. rewrite Hg, Hh. vm_compute. reflexivity.
Defined.

(* --------------------------------------------------------------------- *)
(** ** What the procedures leave alone *)
(* --------------------------------------------------------------------- *)

Section Frame.

Context {Lib X : Type} (f : World Lib -> X) (L : Library Lib).

Hypothesis f_lib : forall l w, f (set_lib l w) = f w.
Hypothesis f_training : forall b w, f (set_training b w) = f w.
Hypothesis f_grads : forall gs h w, f (set_grads gs h w) = f w.
Hypothesis f_lambdas : forall ls w, f (set_lambdas ls w) = f w.
Hypothesis f_no_grad :
  forall w w1, f w1 = f (set_grad_enabled false w) ->
               f (set_grad_enabled (grad_enabled w) w1) = f w.

Lemma kf_ret {A} (a : A) : keeps_field f (ret a).
Proof. intros w. reflexivity. Qed.

Lemma kf_bind {A B} (m : M Lib A) (k : A -> M Lib B) :
  keeps_field f m -> (forall a, keeps_field f (k a)) -> keeps_field f (bind m k).
Proof.
  intros Hm Hk w. destruct (out_res (m w)) as [a|e] eqn:E.
  - rewrite (bind_Ok m k w a E). cbn. rewrite (Hk a). apply Hm.
  - rewrite (bind_Raise m k w e E). cbn. apply Hm.
Qed.

Lemma kf_lift_result {A} (r : result A) : keeps_field f (lift_result r).
Proof. destruct r; intros w; reflexivity. Qed.

Lemma kf_emit ev : keeps_field f (emit ev).
Proof. intros w. reflexivity. Qed.

Lemma kf_get : keeps_field f get.
Proof. intros w. reflexivity. Qed.

Lemma kf_lib_call {A} ev (g : Lib -> result A * Lib) : keeps_field f (lib_call ev g).
Proof. intros w. unfold lib_call. destruct (g (lib w)).1; cbn; apply f_lib. Qed.

Lemma kf_set_training b : keeps_field f (modify (set_training b)).
Proof. intros w. cbn. apply f_training. Qed.

Lemma kf_set_lambdas ls : keeps_field f (modify (set_lambdas ls)).
Proof. intros w. cbn. apply f_lambdas. Qed.

Lemma kf_set_grads (g : World Lib -> list (option positive) * gmap positive (list Q)) :
  keeps_field f (modify (fun w => set_grads (g w).1 (g w).2 w)).
Proof. intros w. cbn. apply f_grads. Qed.

Lemma kf_model_eval : keeps_field f model_eval.
Proof. apply kf_bind; [apply kf_emit | intros; apply kf_set_training]. Qed.

Lemma kf_model_train : keeps_field f model_train.
Proof. apply kf_bind; [apply kf_emit | intros; apply kf_set_training]. Qed.

Lemma kf_model_call input : keeps_field f (model_call L input).
Proof.
  apply kf_bind; [apply kf_get|]. intros w.
  apply kf_bind; [apply kf_lib_call | intros; apply kf_ret].
Qed.

Lemma kf_loss yhat y : keeps_field f (_loss L yhat y).
Proof.
  apply kf_bind; [apply kf_get|]. intros w.
  apply kf_bind; [apply kf_lib_call | intros; apply kf_ret].
Qed.

Lemma kf_getitem d i : keeps_field f (getitem L d i).
Proof. apply kf_lib_call. Qed.

Lemma kf_new c : keeps_field f (new L c).
Proof. apply kf_lib_call. Qed.

Lemma kf_no_grad {A} (body : M Lib A) : keeps_field f body -> keeps_field f (no_grad body).
Proof. intros Hb w. unfold no_grad. cbn. apply f_no_grad. apply Hb. Qed.

Lemma kf_run_attack_scalar a fm x y e : keeps_field f (run_attack_scalar L a fm x y e).
Proof.
  intros w. unfold run_attack_scalar.
  destruct (attack_scalar L a fm x y e w).1.1; cbn; rewrite f_grads; apply f_lib.
Qed.

Lemma kf_run_attack_array a fm x y es : keeps_field f (run_attack_array L a fm x y es).
Proof.
  intros w. unfold run_attack_array.
  destruct (attack_array L a fm x y es w).1.1; cbn; rewrite f_grads; apply f_lib.
Qed.

Lemma kf_for_each {A S} (body : A -> S -> M Lib S) (l : list A) :
  (forall a s, keeps_field f (body a s)) -> forall s, keeps_field f (for_each l s body).
Proof.
  intros Hb. induction l as [|a tl IH]; intros s; cbn [for_each].
  - apply kf_ret.
  - apply kf_bind; [apply Hb | intros; apply IH].
Qed.

Ltac frame :=
  repeat first
    [ apply kf_ret | apply kf_lift_result | apply kf_emit | apply kf_get
    | apply kf_getitem | apply kf_new | apply kf_model_eval | apply kf_model_train
    | apply kf_model_call | apply kf_loss | apply kf_set_lambdas
    | apply kf_run_attack_scalar | apply kf_run_attack_array
    | apply kf_no_grad
    | apply kf_for_each; intros ? ?
    | apply kf_bind; [|intros ?]
    | match goal with
      | |- keeps_field _ (match ?a with _ => _ end) => destruct a
      | |- keeps_field _ ((match ?a with _ => _ end) _) => destruct a
      end ].

Lemma obj_fun_keeps self batch_idx : keeps_field f (obj_fun L self batch_idx).
Proof. unfold obj_fun. frame. Qed.

Lemma adversarialLoss_keeps self batch_idx primal :
  keeps_field f (adversarialLoss L self batch_idx primal).
Proof.
  unfold adversarialLoss. apply kf_bind; [apply kf_getitem|]. intros [x y].
  apply kf_bind; [apply kf_model_eval|]. intros _.
  apply kf_bind; [apply kf_get|]. intros w0. cbv zeta.
  apply kf_bind; [intros w; cbn; apply f_grads|]. intros _.
  apply kf_bind; [apply kf_run_attack_scalar|]. intros [[x_processed ?] ?].
  apply kf_bind; [intros w; cbn; apply f_grads|]. intros _.
  frame.
Qed.

Lemma validation_hook_keeps {S} problem (solver_state : S) :
  keeps_field f (validation_hook L problem solver_state).
Proof.
  unfold validation_hook. cbv zeta.
  change (10 =? 1) with false. change (1 <? 10) with true. cbv iota. frame.
Qed.

Lemma test_keeps problem : keeps_field f (test L problem).
Proof. unfold test, test_sums. cbv zeta. frame. Qed.

Lemma robustLoss_init_keeps rhs0 : keeps_field f (robustLoss_init L rhs0).
Proof. unfold robustLoss_init, ConstrainedLearningProblem_init. cbv zeta. frame. Qed.

End Frame.

(** The gradient mode, and the dual variables, are left as found by the
    constraint and by the test phase, however they end: the [no_grad]
    block of the dual evaluation puts the mode back even when an
    exception leaves it. *)
Lemma adversarialLoss_and_test_keep_gradient_mode_and_duals {Lib} (L : Library Lib)
    (self : robustLoss) (batch_idx : list nat) (primal : bool) (w : World Lib) :
  (grad_enabled (out_world (adversarialLoss L self batch_idx primal w)) = grad_enabled w /\
   lambdas (out_world (adversarialLoss L self batch_idx primal w)) = lambdas w) /\
  (grad_enabled (out_world (test L self w)) = grad_enabled w /\
   lambdas (out_world (test L self w)) = lambdas w).
Proof.
  pose proof (adversarialLoss_keeps (@grad_enabled Lib) L) as Hg.
  pose proof (adversarialLoss_keeps (@lambdas Lib) L) as Hl.
  pose proof (test_keeps (@grad_enabled Lib) L) as Tg.
  pose proof (test_keeps (@lambdas Lib) L) as Tl.
  unfold keeps_field in *.
  repeat split.
  - apply Hg; intros; reflexivity.
  - apply Hl; intros; try reflexivity. cbn in *. assumption.
  - apply Tg; intros; reflexivity.
  - apply Tl; intros; reflexivity.
Qed.

(** The validation hook changes nothing but the library state and the
    model mode: the gradients of the parameters, the heap they live in,
    the dual variables and the gradient mode are as before, however the
    hook ends. *)
Lemma validation_hook_keeps_gradients_and_duals {Lib S} (L : Library Lib)
    (problem : robustLoss) (solver_state : S) (w : World Lib) :
  let w' := out_world (validation_hook L problem solver_state w) in
  param_grads w' = param_grads w /\ heap w' = heap w /\
  lambdas w' = lambdas w /\ grad_enabled w' = grad_enabled w.
Proof.
  pose proof (@validation_hook_keeps Lib _ (@outside_lib_and_mode Lib) L) as H.
  unfold keeps_field in H.
  assert (outside_lib_and_mode (out_world (validation_hook L problem solver_state w))
          = outside_lib_and_mode w) as E.
  { apply H.
    - intros; reflexivity.
    - intros; reflexivity.
    - intros w0 w1 E. unfold outside_lib_and_mode in *. cbn in *. congruence. }
  unfold outside_lib_and_mode in E. cbv zeta.
  injection E as E1 E2 E3 E4. auto.
Qed.

(* --------------------------------------------------------------------- *)
(** ** The mode of the forward passes *)
(* --------------------------------------------------------------------- *)

Section Modal.

Context {Lib : Type} (L : Library Lib) (P : Event -> Prop).

Hypothesis P_other : forall ev, is_forward ev = false -> P ev.

Lemma md_ret {A} pre (a : A) : modal pre pre P (ret (Lib := Lib) a).
Proof. intros w Hw. split; [constructor | intros; assumption]. Qed.

Lemma md_bind {A B} pre mid post (m : M Lib A) (k : A -> M Lib B) :
  modal pre mid P m -> (forall a, modal mid post P (k a)) -> modal pre post P (bind m k).
Proof.
  intros Hm Hk w Hw. destruct (Hm w Hw) as [Hl Hp].
  destruct (out_res (m w)) as [a|e] eqn:E.
  - rewrite (bind_Ok m k w a E). cbn.
    destruct (Hk a (out_world (m w)) (Hp a eq_refl)) as [Hl' Hp'].
    split; [apply Forall_app; split; assumption | exact Hp'].
  - rewrite (bind_Raise m k w e E). cbn. split; [assumption | discriminate].
Qed.

Lemma md_lift_result {A} pre (r : result A) : modal pre pre P (lift_result (Lib := Lib) r).
Proof.
  intros w Hw. destruct r; cbn.
  - split; [constructor | intros; assumption].
  - split; [repeat constructor; apply P_other; reflexivity | discriminate].
Qed.

Lemma md_emit pre ev : is_forward ev = false -> modal pre pre P (emit (Lib := Lib) ev).
Proof.
  intros Hev w Hw. cbn. split; [repeat constructor; apply P_other, Hev | intros; assumption].
Qed.

Lemma md_get pre : modal pre pre P (get (Lib := Lib)).
Proof. intros w Hw. split; [constructor | intros; assumption]. Qed.

Lemma md_lib_call {A} pre ev (g : Lib -> result A * Lib) :
  P ev -> modal pre pre P (lib_call ev g).
Proof.
  intros Hev w Hw. unfold lib_call. destruct (g (lib w)).1; cbn.
  - split; [repeat constructor; assumption | intros; assumption].
  - split; [repeat constructor; [assumption | apply P_other; reflexivity] | discriminate].
Qed.

Lemma md_model_eval tr gr : modal (tr, gr) (false, gr) P (model_eval (Lib := Lib)).
Proof.
  intros w Hw. unfold mode in *. injection Hw as <- <-. cbn.
  split; [repeat constructor; apply P_other; reflexivity | reflexivity].
Qed.

Lemma md_model_train tr gr : modal (tr, gr) (true, gr) P (model_train (Lib := Lib)).
Proof.
  intros w Hw. unfold mode in *. injection Hw as <- <-. cbn.
  split; [repeat constructor; apply P_other; reflexivity | reflexivity].
Qed.

Lemma md_model_call tr gr input :
  P (EvForward tr gr input) -> modal (tr, gr) (tr, gr) P (model_call L input).
Proof.
  intros Hev w Hw. unfold mode in Hw. injection Hw as <- <-.
  unfold model_call, bind, get, lib_call, ret. cbn.
  destruct (model_forward L (training w) (grad_enabled w) input (lib w)).1; cbn.
  - split; [repeat constructor; assumption | reflexivity].
  - split; [repeat constructor; [assumption | apply P_other; reflexivity] | discriminate].
Qed.

Lemma md_getitem pre d i : modal pre pre P (getitem L d i).
Proof. apply md_lib_call, P_other. reflexivity. Qed.

Lemma md_new pre c : modal pre pre P (new L c).
Proof. apply md_lib_call, P_other. reflexivity. Qed.

Lemma md_no_grad {A} tr gr tr' gr' (body : M Lib A) :
  modal (tr, false) (tr', gr') P body -> modal (tr, gr) (tr', gr) P (no_grad body).
Proof.
  intros Hb w Hw. unfold mode in Hw. injection Hw as <- <-.
  destruct (Hb (set_grad_enabled false w) eq_refl) as [Hl Hp].
  unfold no_grad. cbn. split; [exact Hl|].
  intros a Ha. specialize (Hp a Ha). unfold mode in *. cbn. congruence.
Qed.

Lemma md_run_attack_array pre a fm x y es : modal pre pre P (run_attack_array L a fm x y es).
Proof.
  intros w Hw. unfold run_attack_array.
  destruct (attack_array L a fm x y es w).1.1; cbn.
  - split; [repeat constructor; apply P_other; reflexivity | intros; exact Hw].
  - split; [repeat constructor; apply P_other; reflexivity | discriminate].
Qed.

Lemma md_for_each {A S} pre (body : A -> S -> M Lib S) (l : list A) :
  (forall a s, modal pre pre P (body a s)) -> forall s, modal pre pre P (for_each l s body).
Proof.
  intros Hb. induction l as [|a tl IH]; intros s; cbn [for_each].
  - apply md_ret.
  - eapply md_bind; [apply Hb | intros; apply IH].
Qed.

End Modal.

Ltac modal_step :=
  first
    [ apply md_ret | apply md_get
    | apply md_lift_result; assumption
    | apply md_getitem; assumption | apply md_new; assumption
    | apply md_model_eval; assumption | apply md_model_train; assumption
    | apply md_run_attack_array; assumption
    | apply md_emit; [assumption | reflexivity]
    | apply md_model_call; [assumption | cbn; auto]
    | eapply md_no_grad
    | apply md_for_each; intros ? ?
    | eapply md_bind; [|intros ?]
    | match goal with
      | |- modal _ _ _ (match ?a with _ => _ end) => destruct a
      | |- modal _ _ _ ((match ?a with _ => _ end) _) => destruct a
      end ].

(** Every forward pass the validation hook makes is made in evaluation
    mode with gradient tracking off, whatever the mode the hook is called
    in; and a hook that returns leaves the model in training mode. *)
Lemma validation_hook_forward_passes_in_eval_mode_without_gradients {Lib S}
    (L : Library Lib) (problem : robustLoss) (solver_state : S) (w : World Lib) :
  Forall (forward_flags false false) (out_log (validation_hook L problem solver_state w)) /\
  forall b, out_res (validation_hook L problem solver_state w) = Ok b ->
            training (out_world (validation_hook L problem solver_state w)) = true.
Proof.
  assert (forall ev, is_forward ev = false -> forward_flags false false ev) as HP.
  { intros [] H; try exact I. discriminate H. }
  assert (modal (training w, grad_enabled w) (true, grad_enabled w)
            (forward_flags false false) (validation_hook L problem solver_state)) as H.
  { unfold validation_hook. cbv zeta.
    change (10 =? 1) with false. change (1 <? 10) with true. cbv iota.
    repeat modal_step. }
  destruct (H w eq_refl) as [Hl Hm]. split; [exact Hl|].
  intros b Hb. specialize (Hm b Hb). unfold mode in Hm. congruence.
Qed.

(** Every forward pass of the test phase is made in evaluation mode and
    in the gradient mode the phase was started in: the test loop has no
    [no_grad] block.  A test phase that returns leaves the model in
    evaluation mode. *)
Lemma test_forward_passes_in_eval_mode_with_ambient_gradient_mode {Lib}
    (L : Library Lib) (problem : robustLoss) (w : World Lib) :
  Forall (forward_flags false (grad_enabled w)) (out_log (test L problem w)) /\
  forall r, out_res (test L problem w) = Ok r ->
            training (out_world (test L problem w)) = false.
Proof.
  assert (forall ev, is_forward ev = false -> forward_flags false (grad_enabled w) ev) as HP.
  { intros [] H; try exact I. discriminate H. }
  assert (modal (training w, grad_enabled w) (false, grad_enabled w)
            (forward_flags false (grad_enabled w)) (test L problem)) as H.
  { unfold test, test_sums. cbv zeta. repeat modal_step. }
  destruct (H w eq_refl) as [Hl Hm]. split; [exact Hl|].
  intros r Hr. specialize (Hm r Hr). unfold mode in Hm. congruence.
Qed.

(* --------------------------------------------------------------------- *)
(** ** Datasets without samples *)
(* --------------------------------------------------------------------- *)

Lemma batch_idx_no_samples b : 1 <= b -> batch_idx 0 b = Ok [0].
Proof.
  intros Hb. rewrite batch_idx_unfold by lia. cbv zeta.
  rewrite Nat.div_small by lia. reflexivity.
Qed.

Lemma runs_new_Ok {Lib} (L : Library Lib) c (w : World Lib) :
  (construct L c (lib w)).1 = Ok tt ->
  runs (new L c) w (Ok tt) (set_lib (construct L c (lib w)).2 w) [EvConstruct c].
Proof.
  intros H. apply runs_lib_call_Ok.
  destruct (construct L c (lib w)) as [r l']. cbn in H. subst r. reflexivity.
Qed.

(** On a test set without samples the loop body never runs, the division
    by the number of samples fails, and nothing is printed: the test phase
    builds its three objects, puts the model in evaluation mode, and dies
    of ZeroDivisionError. *)
Lemma test_raises_on_empty_test_set {Lib} (L : Library Lib) (problem : robustLoss)
    (w : World Lib) :
  (forall c l, (construct L c l).1 = Ok tt) ->
  dataset_len L testset = 0 ->
  1 <= batch_size problem ->
  out_res (test L problem w) = Raise ZeroDivisionError /\
  exists fm a,
    out_log (test L problem w) =
      [EvConstruct NewTestset; EvModelEval; EvConstruct (NewFoolboxModel fm);
       EvConstruct (NewAttack a); EvRaised ZeroDivisionError].
Proof.
  intros Hc Hn Hb.
  assert (exists w' l fm a,
            runs (test L problem) w (Raise ZeroDivisionError) w' l /\
            l = [EvConstruct NewTestset; EvModelEval; EvConstruct (NewFoolboxModel fm);
                 EvConstruct (NewAttack a); EvRaised ZeroDivisionError]) as Hrun.
  { unfold test, test_sums. cbv zeta. rewrite Hn.
    eexists _, _, _, _. split.
    - eapply runs_bind_Ok.
      + run_step ltac:(apply runs_new_Ok, Hc).
        run_step ltac:(apply runs_model_eval).
        run_step ltac:(apply runs_new_Ok, Hc).
        run_step ltac:(apply runs_new_Ok, Hc).
        run_step ltac:(apply runs_lift_result_Ok, batch_idx_no_samples, Hb).
        apply runs_ret.
      + cbv beta iota zeta. apply runs_bind_Raise.
        apply runs_lift_result_Raise. reflexivity.
    - reflexivity. }
  destruct Hrun as (w' & l & fm & a & Hr & ->).
  apply runs_outcome in Hr as (-> & _ & ->). eauto.
Qed.

Lemma test_raises_on_empty_test_set_witness :
  (forall c l, (construct NoData.library c l).1 = Ok tt) /\
  dataset_len NoData.library testset = 0 /\
  1 <= batch_size Toy.problem /\
  out_res (test NoData.library Toy.problem (Toy.world 0)) = Raise ZeroDivisionError /\
  exists fm a,
    out_log (test NoData.library Toy.problem (Toy.world 0)) =
      [EvConstruct NewTestset; EvModelEval; EvConstruct (NewFoolboxModel fm);
       EvConstruct (NewAttack a); EvRaised ZeroDivisionError].
Proof.
  split; [intros; reflexivity|]. split; [reflexivity|]. split; [cbn; lia|].
  apply (test_raises_on_empty_test_set NoData.library Toy.problem (Toy.world 0)).
  - intros; reflexivity.
  - reflexivity.
  - cbn; lia.
Defined.

(** On a validation set without samples the hook calls neither the
    dataset nor the model: it switches the model to evaluation mode and
    back, prints an accuracy of zero beside the dual variables, and
    returns False, leaving the world as it was but for the training
    mode. *)
Lemma validation_hook_on_empty_validation_set {Lib S} (L : Library Lib)
    (problem : robustLoss) (solver_state : S) (w : World Lib) :
  dataset_len L validset = 0 ->
  1 <= batch_size problem ->
  out_res (validation_hook L problem solver_state w) = Ok false /\
  out_log (validation_hook L problem solver_state w) =
    [EvModelEval; EvModelTrain; EvPrint (LineValidationDual (0 * 100)%Q (lambdas w))] /\
  out_world (validation_hook L problem solver_state w) = set_training true w.
Proof.
  intros Hn Hb.
  assert (runs (validation_hook L problem solver_state) w (Ok false) (set_training true w)
            [EvModelEval; EvModelTrain; EvPrint (LineValidationDual (0 * 100)%Q (lambdas w))])
    as Hr.
  { unfold validation_hook. cbv zeta. rewrite Hn.
    change (1 <? 10) with true. cbv iota.
    change [EvModelEval; EvModelTrain; EvPrint (LineValidationDual (0 * 100)%Q (lambdas w))]
      with ([] ++ [EvModelEval] ++ [] ++ [EvModelTrain] ++ [] ++
            [EvPrint (LineValidationDual (0 * 100)%Q (lambdas w))] ++ []).
    run_step ltac:(apply runs_lift_result_Ok, batch_idx_no_samples, Hb).
    run_step ltac:(apply runs_model_eval).
    run_step ltac:(apply runs_ret).
    run_step ltac:(apply runs_model_train).
    run_step ltac:(apply runs_get).
    run_step ltac:(apply runs_emit).
    apply runs_ret. }
  apply runs_outcome in Hr as (Hres & Hw & Hlog). auto.
Qed.

Lemma validation_hook_on_empty_validation_set_witness :
  dataset_len NoData.library validset = 0 /\
  1 <= batch_size Toy.problem /\
  out_res (validation_hook NoData.library Toy.problem tt (Toy.world 0)) = Ok false /\
  out_log (validation_hook NoData.library Toy.problem tt (Toy.world 0)) =
    [EvModelEval; EvModelTrain; EvPrint (LineValidationDual (0 * 100)%Q [0%Q])] /\
  out_world (validation_hook NoData.library Toy.problem tt (Toy.world 0)) =
    set_training true (Toy.world 0).
Proof.
  split; [reflexivity|]. split; [cbn; lia|].
  apply (validation_hook_on_empty_validation_set NoData.library Toy.problem tt (Toy.world 0)).
  - reflexivity.
  - cbn; lia.
Defined.

(* --------------------------------------------------------------------- *)
(** ** What the loops read *)
(* --------------------------------------------------------------------- *)

Section Reads.

Context {Lib : Type} (L : Library Lib).

Lemma ror_bind {A B} (m : M Lib A) (k : A -> M Lib B) g1 g2 g Q Q' :
  reads_on_return m g1 Q ->
  (forall a, Q a -> reads_on_return (k a) g2 Q') ->
  g = g1 ++ g2 ->
  reads_on_return (bind m k) g Q'.
Proof.
  intros Hm Hk -> w b Hb.
  apply bind_Ok_inv in Hb as (a & Ha & Hka & _ & Hlog).
  destruct (Hm w a Ha) as [Hg1 HQ].
  destruct (Hk a HQ _ b Hka) as [Hg2 HQ'].
  split; [|exact HQ'].
  rewrite Hlog. unfold reads in *. rewrite omap_app. congruence.
Qed.

Lemma ror_ret {A} (a : A) : reads_on_return (ret (Lib := Lib) a) [] (fun _ => True).
Proof. intros w b _. split; [reflexivity | exact I]. Qed.

Lemma ror_lift_result {A} (r : result A) :
  reads_on_return (lift_result (Lib := Lib) r) [] (fun a => r = Ok a).
Proof. intros w b H. destruct r; cbn in H; [|discriminate]. split; [reflexivity | exact H]. Qed.

Lemma ror_emit ev : reads_on_return (emit (Lib := Lib) ev) (reads [ev]) (fun _ => True).
Proof. intros w b _. split; [reflexivity | exact I]. Qed.

Lemma ror_get : reads_on_return (get (Lib := Lib)) [] (fun _ => True).
Proof. intros w b _. split; [reflexivity | exact I]. Qed.

Lemma ror_lib_call {A} ev (f : Lib -> result A * Lib) :
  reads_on_return (lib_call ev f) (reads [ev]) (fun _ => True).
Proof.
  intros w b H. unfold lib_call in *.
  destruct (f (lib w)).1; cbn in *; [|discriminate]. split; [reflexivity | exact I].
Qed.

Lemma ror_getitem d i : reads_on_return (getitem L d i) [(d, i)] (fun _ => True).
Proof. apply (ror_lib_call (EvGetItem d i)). Qed.

Lemma ror_new c : reads_on_return (new L c) [] (fun _ => True).
Proof. apply (ror_lib_call (EvConstruct c)). Qed.

Lemma ror_model_eval : reads_on_return (model_eval (Lib := Lib)) [] (fun _ => True).
Proof. intros w b _. split; [reflexivity | exact I]. Qed.

Lemma ror_model_train : reads_on_return (model_train (Lib := Lib)) [] (fun _ => True).
Proof. intros w b _. split; [reflexivity | exact I]. Qed.

Lemma ror_model_call input : reads_on_return (model_call L input) [] (fun _ => True).
Proof.
  unfold model_call.
  eapply ror_bind; [apply ror_get | intros w0 _ | reflexivity].
  eapply ror_bind; [apply ror_lib_call | intros; apply ror_ret | reflexivity].
Qed.

Lemma ror_no_grad {A} (body : M Lib A) g Q :
  reads_on_return body g Q -> reads_on_return (no_grad body) g Q.
Proof. intros Hb w a H. unfold no_grad in *. cbn in *. apply Hb, H. Qed.

Lemma ror_run_attack_array a fm x y es :
  reads_on_return (run_attack_array L a fm x y es) [] (fun _ => True).
Proof.
  intros w b H. unfold run_attack_array in *.
  destruct (attack_array L a fm x y es w).1.1; cbn in *; [|discriminate].
  split; [reflexivity | exact I].
Qed.

Lemma ror_for_each {A S} (body : A -> S -> M Lib S) (g : A -> Dataset * Index) l :
  (forall a s, reads_on_return (body a s) [g a] (fun _ => True)) ->
  forall s, reads_on_return (for_each l s body) (map g l) (fun _ => True).
Proof.
  intros Hb. induction l as [|a tl IH]; intros s; cbn [for_each].
  - apply ror_ret.
  - eapply ror_bind; [apply Hb | intros; apply IH | reflexivity].
Qed.

Lemma ror_for_each_silent {A S} (body : A -> S -> M Lib S) l :
  (forall a s, reads_on_return (body a s) [] (fun _ => True)) ->
  forall s, reads_on_return (for_each l s body) [] (fun _ => True).
Proof.
  intros Hb. induction l as [|a tl IH]; intros s; cbn [for_each].
  - apply ror_ret.
  - eapply ror_bind; [apply Hb | intros; apply IH | reflexivity].
Qed.

Ltac ror :=
  repeat first
    [ apply ror_ret | apply ror_get | apply ror_lift_result | apply ror_emit
    | apply ror_getitem | apply ror_new | apply ror_model_eval | apply ror_model_train
    | apply ror_model_call | apply ror_run_attack_array
    | apply ror_no_grad
    | apply ror_for_each_silent; intros ? ?
    | eapply ror_bind; [|intros ? _|]
    | match goal with
      | |- reads_on_return (match ?a with _ => _ end) _ _ => destruct a
      | |- reads_on_return ((match ?a with _ => _ end) _) _ _ => destruct a
      | |- _ = _ ++ _ => reflexivity
      end ].

Lemma validation_hook_reads {S} problem (solver_state : S) idx :
  batch_idx (dataset_len L validset) (batch_size problem) = Ok idx ->
  reads_on_return (validation_hook L problem solver_state)
    (batch_slices validset idx) (fun _ => True).
Proof.
  intros Hidx. unfold validation_hook. cbv zeta.
  change (10 =? 1) with false. change (1 <? 10) with true. cbv iota.
  eapply ror_bind; [apply ror_lift_result | | reflexivity].
  intros a Ha. rewrite Hidx in Ha. injection Ha as <-.
  eapply ror_bind; [apply ror_model_eval | intros _ _ | reflexivity].
  eapply ror_bind; [apply (ror_for_each _ (fun p => (validset, IdxSlice p.1 p.2))) | |].
  - intros [bs be] [acc acc_adv]. ror.
  - intros [acc acc_adv] _. ror.
  - unfold batch_slices. rewrite app_nil_r. reflexivity.
Qed.

Lemma test_reads problem idx :
  batch_idx (dataset_len L testset) (batch_size problem) = Ok idx ->
  reads_on_return (test L problem) (batch_slices testset idx) (fun _ => True).
Proof.
  intros Hidx. unfold test, test_sums. cbv zeta.
  eapply ror_bind; [| intros [[[n_total acc_test] acc_adv] success_adv] _; ror |].
  - eapply ror_bind; [apply ror_new | intros _ _ | reflexivity].
    eapply ror_bind; [apply ror_model_eval | intros _ _ | reflexivity].
    eapply ror_bind; [apply ror_new | intros _ _ | reflexivity].
    eapply ror_bind; [apply ror_new | intros _ _ | reflexivity].
    eapply ror_bind; [apply ror_lift_result | | reflexivity].
    intros a Ha. rewrite Hidx in Ha. injection Ha as <-.
    apply (ror_for_each _ (fun p => (testset, IdxSlice p.1 p.2))).
    intros [bs be] [[[n_total acc_test] acc_adv] success_adv]. ror.
  - unfold batch_slices. rewrite app_nil_r. reflexivity.
Qed.

End Reads.

Lemma returning_bind_inv {Lib A B} (m : M Lib A) (k : A -> M Lib B) w b :
  out_res (bind m k w) = Ok b -> exists a, out_res (m w) = Ok a.
Proof. intros H. apply bind_Ok_inv in H as (a & Ha & _). eauto. Qed.

(** A validation hook that returns has read the validation set exactly
    in the slices between consecutive batch boundaries, in order, and
    nothing else. *)
Lemma validation_hook_reads_validation_set_batch_by_batch {Lib S} (L : Library Lib)
    (problem : robustLoss) (solver_state : S) (w : World Lib) (b : bool) :
  out_res (validation_hook L problem solver_state w) = Ok b ->
  exists idx,
    batch_idx (dataset_len L validset) (batch_size problem) = Ok idx /\
    reads (out_log (validation_hook L problem solver_state w)) = batch_slices validset idx.
Proof.
  intros Hret.
  destruct (batch_idx (dataset_len L validset) (batch_size problem)) as [idx|e] eqn:Hidx.
  - exists idx. split; [reflexivity|].
    exact (proj1 (validation_hook_reads L problem solver_state idx Hidx w b Hret)).
  - exfalso. unfold validation_hook in Hret. cbv zeta in Hret.
    apply returning_bind_inv in Hret as [a Ha]. rewrite Hidx in Ha. discriminate Ha.
Qed.

Lemma validation_hook_reads_validation_set_batch_by_batch_witness :
  out_res (validation_hook Toy.library Toy.problem tt (Toy.world 100)) = Ok false /\
  exists idx,
    batch_idx (dataset_len Toy.library validset) (batch_size Toy.problem) = Ok idx /\
    reads (out_log (validation_hook Toy.library Toy.problem tt (Toy.world 100))) =
      batch_slices validset idx.
Proof.
  split; [vm_compute; reflexivity|].
  apply (validation_hook_reads_validation_set_batch_by_batch
           Toy.library Toy.problem tt (Toy.world 100) false).
  vm_compute. reflexivity.
Defined.

(** A test phase that returns has read the test set exactly in the slices
    between consecutive batch boundaries, in order, and nothing else. *)
Lemma test_reads_test_set_batch_by_batch {Lib} (L : Library Lib)
    (problem : robustLoss) (w : World Lib) (r : TestReport) :
  out_res (test L problem w) = Ok r ->
  exists idx,
    batch_idx (dataset_len L testset) (batch_size problem) = Ok idx /\
    reads (out_log (test L problem w)) = batch_slices testset idx.
Proof.
  intros Hret.
  destruct (batch_idx (dataset_len L testset) (batch_size problem)) as [idx|e] eqn:Hidx.
  - exists idx. split; [reflexivity|].
    exact (proj1 (test_reads L problem idx Hidx w r Hret)).
  - exfalso. unfold test in Hret.
    apply returning_bind_inv in Hret as [a Ha]. unfold test_sums in Ha. cbv zeta in Ha.
    apply bind_Ok_inv in Ha as (? & _ & Ha & _).
    apply bind_Ok_inv in Ha as (? & _ & Ha & _).
    apply bind_Ok_inv in Ha as (? & _ & Ha & _).
    apply bind_Ok_inv in Ha as (? & _ & Ha & _).
    apply returning_bind_inv in Ha as [a' Ha]. rewrite Hidx in Ha. discriminate Ha.
Qed.

Lemma test_reads_test_set_batch_by_batch_witness :
  exists r,
    out_res (test Toy.library Toy.problem (Toy.world 100)) = Ok r /\
    exists idx,
      batch_idx (dataset_len Toy.library testset) (batch_size Toy.problem) = Ok idx /\
      reads (out_log (test Toy.library Toy.problem (Toy.world 100))) =
        batch_slices testset idx.
Proof.
  eexists. split; [vm_compute; reflexivity|].
  eapply (test_reads_test_set_batch_by_batch Toy.library Toy.problem (Toy.world 100)).
  vm_compute. reflexivity.
Defined.

(* --------------------------------------------------------------------- *)
(** ** The shape of the two subsets *)
(* --------------------------------------------------------------------- *)

Lemma np_array_flatten_uniform rows out :
  np_array_flatten rows = Ok out ->
  out = concat rows /\ Forall (fun r => length r = length (hd [] rows)) rows.
Proof.
  unfold np_array_flatten. generalize (length (hd [] rows)) as k. intros k.
  destruct (forallb _ rows) eqn:E; [|discriminate]. intros [= <-].
  split; [reflexivity|].
  induction rows as [|r tl IH]; [constructor|].
  cbn in E. apply andb_true_iff in E as [Hr Htl].
  constructor; [apply Nat.eqb_eq, Hr | apply IH, Htl].
Qed.

Lemma concat_uniform_length {A} k (rows : list (list A)) :
  Forall (fun r => length r = k) rows -> length (concat rows) = length rows * k.
Proof.
  induction 1 as [|r tl Hr _ IH]; [reflexivity|].
  cbn [concat length]. rewrite length_app, IH, Hr. lia.
Qed.

Lemma concat_uniform_lookup {A} k (rows : list (list A)) j x :
  Forall (fun r => length r = k) rows ->
  concat rows !! j = Some x ->
  exists r, rows !! (j / k) = Some r /\ x ∈ r.
Proof.
  intros H. revert j. induction H as [|r tl Hr Htl IH]; intros j Hj; [discriminate Hj|].
  cbn [concat] in Hj. destruct (decide (j < k)) as [Hlt | Hge].
  - rewrite lookup_app_l in Hj by lia. exists r.
    rewrite Nat.div_small by lia. split; [reflexivity|].
    eapply list_elem_of_lookup_2. exact Hj.
  - rewrite lookup_app_r in Hj by lia. rewrite Hr in Hj.
    destruct (IH _ Hj) as (r' & Hr' & Hx). exists r'. split; [|exact Hx].
    destruct (decide (k = 0)) as [-> | Hk].
    + exfalso. pose proof (Forall_lookup_1 _ _ _ _ Htl Hr') as Hl.
      destruct r'; [inversion Hx | discriminate Hl].
    + replace j with ((j - k) + 1 * k) by lia.
      rewrite Nat.div_add by exact Hk. rewrite Nat.add_1_r. exact Hr'.
Qed.

Lemma NoDup_concat_labelled {A} (lab : A -> option nat) (rows : list (list A)) c0 :
  (forall c r, rows !! c = Some r -> NoDup r) ->
  (forall c r x, rows !! c = Some r -> x ∈ r -> lab x = Some (c0 + c)) ->
  NoDup (concat rows).
Proof.
  revert c0. induction rows as [|r tl IH]; intros c0 Hnd Hlab; [constructor|].
  cbn [concat]. apply NoDup_app. split; [apply (Hnd 0 r eq_refl)|]. split.
  - intros x Hx Hx'. apply elem_of_concat in Hx' as (r' & Hxr' & Hr').
    apply list_elem_of_lookup in Hr' as [c Hc].
    pose proof (Hlab 0 r x eq_refl Hx) as H0.
    pose proof (Hlab (S c) r' x Hc Hxr') as H1.
    rewrite H0 in H1. injection H1 as H1. lia.
  - apply (IH (S c0)).
    + intros c r' H. apply (Hnd (S c) r' H).
    + intros c r' x H Hx. rewrite (Hlab (S c) r' x H Hx). f_equal. lia.
Qed.

Lemma np_array_flatten_of_uniform k rows :
  Forall (fun r => length r = k) rows -> np_array_flatten rows = Ok (concat rows).
Proof.
  intros H. unfold np_array_flatten.
  assert (forallb (fun r => length r =? length (hd [] rows)) rows = true) as ->;
    [|reflexivity].
  destruct H as [|r tl Hr Htl]; [reflexivity|]. cbn [hd].
  assert (forall l, Forall (fun r0 : list nat => length r0 = k) l ->
                    forallb (fun r0 => length r0 =? length r) l = true) as Hall.
  { induction 1 as [|r0 l Hr0 _ IH]; [reflexivity|].
    cbn. rewrite IH, Hr0, Hr, Nat.eqb_refl. reflexivity. }
  cbn [forallb]. rewrite Nat.eqb_refl. apply Hall, Htl.
Qed.

Lemma concat_uniform_block {A} k (rows : list (list A)) c r :
  Forall (fun r => length r = k) rows ->
  rows !! c = Some r ->
  take k (drop (c * k) (concat rows)) = r.
Proof.
  intros H. revert c. induction H as [|r0 tl Hr0 _ IH]; intros c Hc; [discriminate Hc|].
  cbn [concat]. destruct c as [|c].
  - injection Hc as ->. cbn [Nat.mul drop]. rewrite <- Hr0. apply take_app_length.
  - cbn in Hc. rewrite drop_app_ge by (rewrite Hr0; lia).
    replace (S c * k - length r0) with (c * k) by (rewrite Hr0; lia).
    apply IH, Hc.
Qed.

Section SubsetShape.

Context {Gen : Type} (RandomState : Z -> Gen)
        (permutation : Gen -> list nat -> list nat * Gen).

Hypothesis permutation_shuffles : forall g idx, (permutation g idx).1 ≡ₚ idx.

Lemma label_idx_length target : length (label_idx RandomState permutation target) = 10.
Proof. unfold label_idx, label_idx_sorted. rewrite !length_map, length_seq. reflexivity. Qed.

(** A pool cut out of every class by [f], once flattened *)
Lemma pool_shape (f : list nat -> list nat) (bound : nat) target out :
  (forall idx x, x ∈ f idx -> x ∈ idx) ->
  (forall idx, NoDup idx -> NoDup (f idx)) ->
  (forall idx, length (f idx) <= bound) ->
  np_array_flatten (map f (label_idx RandomState permutation target)) = Ok out ->
  NoDup out /\
  exists k, k <= bound /\ length out = 10 * k /\
            forall j i, out !! j = Some i -> target !! i = Some (j / k).
Proof.
  intros Hsub Hnd Hlen Hout.
  apply np_array_flatten_uniform in Hout as [-> Huni].
  set (rows := map f (label_idx RandomState permutation target)) in *.
  assert (Hrow : forall c r, rows !! c = Some r ->
            exists idx, label_idx RandomState permutation target !! c = Some idx /\ r = f idx).
  { intros c r Hc. unfold rows in Hc. rewrite list_lookup_fmap in Hc.
    destruct (label_idx RandomState permutation target !! c) as [idx|]; [|discriminate].
    injection Hc as <-. eauto. }
  assert (Hlab : forall c r x, rows !! c = Some r -> x ∈ r -> target !! x = Some c).
  { intros c r x Hc Hx. destruct (Hrow c r Hc) as (idx & Hidx & ->).
    eapply (elem_of_label_idx RandomState permutation permutation_shuffles); eauto. }
  split.
  - apply (NoDup_concat_labelled (fun i => target !! i) rows 0).
    + intros c r Hc. destruct (Hrow c r Hc) as (idx & Hidx & ->). apply Hnd.
      eapply (label_idx_NoDup RandomState permutation permutation_shuffles). exact Hidx.
    + intros c r x Hc Hx. apply (Hlab c r x Hc Hx).
  - exists (length (hd [] rows)). split; [|split].
    + clear Hrow Hlab Huni. subst rows.
      destruct (label_idx RandomState permutation target) as [|idx0 tl]; cbn; [lia|].
      apply Hlen.
    + rewrite (concat_uniform_length _ _ Huni).
      replace (length rows) with 10; [reflexivity|].
      subst rows. rewrite length_map, label_idx_length. reflexivity.
    + intros j i Hj.
      destruct (concat_uniform_lookup _ _ _ _ Huni Hj) as (r & Hr & Hi).
      apply (Hlab _ r i Hr Hi).
Qed.

Lemma slice_sub {A} a b (l : list A) x : x ∈ slice a b l -> x ∈ l.
Proof. unfold slice. intros H. eapply in_drop, in_take, H. Qed.

Lemma slice_NoDup {A} a b (l : list A) : NoDup l -> NoDup (slice a b l).
Proof.
  unfold slice. intros H. apply (sublist_NoDup _ l H).
  etransitivity; [apply sublist_take | apply sublist_drop].
Qed.

Lemma slice_length {A} a b (l : list A) : length (slice a b l) <= b - a.
Proof. unfold slice. rewrite length_take. lia. Qed.

Lemma label_idx_lookup_lt target c idx :
  label_idx RandomState permutation target !! c = Some idx -> c < 10.
Proof. intros H. apply lookup_lt_Some in H. rewrite label_idx_length in H. exact H. Qed.

Lemma label_idx_class_size target c idx :
  label_idx RandomState permutation target !! c = Some idx ->
  length idx = length (flatnonzero (target_eq target c)).
Proof.
  intros H. pose proof (label_idx_lookup_lt _ _ _ H) as Hc.
  rewrite (label_idx_lookup RandomState permutation target c Hc) in H.
  injection H as <-. apply Permutation_length, permutation_shuffles.
Qed.

Lemma slice_full_length {A} a k (l : list A) :
  a + k <= length l -> length (slice a (a + k) l) = k.
Proof. intros H. unfold slice. rewrite length_take, length_drop. lia. Qed.

(** The rows cut out of classes that are all large enough have one length. *)
Lemma rows_uniform a k target :
  (forall l, l < 10 -> a + k <= length (flatnonzero (target_eq target l))) ->
  Forall (fun r => length r = k)
    (map (fun idx => slice a (a + k) idx) (label_idx RandomState permutation target)).
Proof.
  intros Hsize. apply Forall_lookup_2. intros c r Hc.
  rewrite list_lookup_fmap in Hc.
  destruct (label_idx RandomState permutation target !! c) as [idx|] eqn:Hidx; [|discriminate].
  injection Hc as <-. apply slice_full_length.
  rewrite (label_idx_class_size _ _ _ Hidx). apply Hsize.
  eapply label_idx_lookup_lt. exact Hidx.
Qed.

(** A pool in closed form: a function of the labels and of the generator
    seeded with 42, and of nothing else *)
Lemma pool_closed_form (f : list nat -> list nat) target out :
  np_array_flatten (map f (label_idx RandomState permutation target)) = Ok out ->
  out = concat (map (fun l => f (permutation (RandomState 42)
                                   (flatnonzero (target_eq target l))).1) (seq 0 10)).
Proof.
  intros H. apply np_array_flatten_Ok in H as ->.
  unfold label_idx, label_idx_sorted. rewrite !map_map. reflexivity.
Qed.

(** A pool cut out of classes that are all large enough *)
Lemma pool_built a k target label idx :
  (forall l, l < 10 -> a + k <= length (flatnonzero (target_eq target l))) ->
  label_idx RandomState permutation target !! label = Some idx ->
  exists out,
    np_array_flatten
      (map (fun idx => slice a (a + k) idx) (label_idx RandomState permutation target)) = Ok out /\
    length out = 10 * k /\
    take k (drop (label * k) out) = slice a (a + k) idx /\
    length (slice a (a + k) idx) = k.
Proof.
  intros Hsize Hidx. pose proof (rows_uniform a k target Hsize) as Huni.
  eexists. split; [apply (np_array_flatten_of_uniform k), Huni|].
  split; [|split].
  - rewrite (concat_uniform_length _ _ Huni), length_map, label_idx_length. reflexivity.
  - apply (concat_uniform_block _ _ _ _ Huni).
    rewrite list_lookup_fmap, Hidx. reflexivity.
  - apply slice_full_length. rewrite (label_idx_class_size _ _ _ Hidx).
    apply Hsize. eapply label_idx_lookup_lt. exact Hidx.
Qed.

(** Both pools, for any sizes [n] and [m] *)
Lemma pools n m target label :
  label < 10 ->
  exists idx,
    label_idx RandomState permutation target !! label = Some idx /\
    idx = (permutation (RandomState 42) (flatnonzero (target_eq target label))).1 /\
    idx ≡ₚ flatnonzero (target_eq target label) /\
    (forall i, i ∈ idx <-> target !! i = Some label) /\
    map (fun idx => slice 0 n idx) (label_idx RandomState permutation target) !! label =
      Some (take n idx) /\
    map (fun idx => slice n (n + m) idx) (label_idx RandomState permutation target) !! label =
      Some (take m (drop n idx)) /\
    (forall i, i ∈ take n idx -> i ∉ take m (drop n idx)) /\
    (forall tr,
       np_array_flatten
         (map (fun idx => slice 0 n idx) (label_idx RandomState permutation target)) = Ok tr ->
       tr = concat (map (fun l => take n (permutation (RandomState 42)
                                            (flatnonzero (target_eq target l))).1) (seq 0 10)) /\
       NoDup tr) /\
    (forall va,
       np_array_flatten
         (map (fun idx => slice n (n + m) idx) (label_idx RandomState permutation target)) = Ok va ->
       va = concat (map (fun l => take m (drop n (permutation (RandomState 42)
                                            (flatnonzero (target_eq target l))).1)) (seq 0 10)) /\
       NoDup va) /\
    (forall tr va,
       np_array_flatten
         (map (fun idx => slice 0 n idx) (label_idx RandomState permutation target)) = Ok tr ->
       np_array_flatten
         (map (fun idx => slice n (n + m) idx) (label_idx RandomState permutation target)) = Ok va ->
       forall i, i ∈ tr -> i ∉ va) /\
    ((forall l, l < 10 -> n + m <= length (flatnonzero (target_eq target l))) ->
     exists tr va,
       np_array_flatten
         (map (fun idx => slice 0 n idx) (label_idx RandomState permutation target)) = Ok tr /\
       np_array_flatten
         (map (fun idx => slice n (n + m) idx) (label_idx RandomState permutation target)) = Ok va /\
       length tr = 10 * n /\ length va = 10 * m /\
       take n (drop (label * n) tr) = take n idx /\
       take m (drop (label * m) va) = take m (drop n idx) /\
       length (take n idx) = n /\ length (take m (drop n idx)) = m).
Proof.
  intros Hl.
  pose proof (label_idx_lookup RandomState permutation target label Hl) as Hidx.
  eexists. split; [exact Hidx|]. split; [reflexivity|].
  split; [apply permutation_shuffles|].
  split; [intros i; rewrite permutation_shuffles; apply elem_of_class_indices|].
  destruct (class_rows_disjoint RandomState permutation permutation_shuffles
              n m target label _ Hidx) as (Htr & Hva & Hdisj).
  split; [exact Htr|]. split; [exact Hva|]. split; [exact Hdisj|].
  split; [|split; [|split]].
  - intros tr Htr'. split.
    + rewrite (pool_closed_form _ _ _ Htr'). f_equal.
      apply map_ext. intros l. apply slice_from_start.
    + apply (pool_shape (fun idx => slice 0 n idx) n target tr); [| | |exact Htr'].
      * intros idx x. apply slice_sub.
      * intros idx. apply slice_NoDup.
      * intros idx. etransitivity; [apply slice_length | lia].
  - intros va Hva'. split.
    + rewrite (pool_closed_form _ _ _ Hva'). f_equal.
      apply map_ext. intros l. apply slice_next.
    + apply (pool_shape (fun idx => slice n (n + m) idx) m target va); [| | |exact Hva'].
      * intros idx x. apply slice_sub.
      * intros idx. apply slice_NoDup.
      * intros idx. etransitivity; [apply slice_length | lia].
  - intros tr va Htr' Hva' i.
    apply np_array_flatten_Ok in Htr' as ->. apply np_array_flatten_Ok in Hva' as ->.
    exact (pools_disjoint RandomState permutation permutation_shuffles n m target i).
  - intros Hsize.
    destruct (pool_built 0 n target label _
                ltac:(intros l Hl'; specialize (Hsize l Hl'); lia) Hidx)
      as (tr & Htr' & Hlt & Hbt & Hrt).
    destruct (pool_built n m target label _ Hsize Hidx) as (va & Hva' & Hlv & Hbv & Hrv).
    exists tr, va. split; [exact Htr'|]. split; [exact Hva'|].
    rewrite slice_from_start in Hbt, Hrt. rewrite slice_next in Hbv, Hrv. auto 10.
Qed.

(** C2: for every class label below 10, the per-class index list is the
    seed-42 shuffle of the positions of that label, hence a permutation of
    them; the train row is its first 4900 entries and the validation row
    the next 100, and the two are disjoint.  The arrays handed to the
    datasets, whenever they can be built, are the rows of the ten classes
    one after the other: an expression in the labels and the seed-42
    generator alone, so that running the selection again gives the same
    arrays; they hold no index twice and share none.  When every class has
    at least 5000 samples, as in CIFAR-10, both arrays are built, with
    4900 and 100 indices per class, and the block of a class in them is
    its row. *)
Theorem subsets_are_disjoint_slices_of_seeded_permutation (target : list nat) (label : nat) :
  label < 10 ->
  exists idx,
    label_idx RandomState permutation target !! label = Some idx /\
    idx = (permutation (RandomState 42) (flatnonzero (target_eq target label))).1 /\
    idx ≡ₚ flatnonzero (target_eq target label) /\
    (forall i, i ∈ idx <-> target !! i = Some label) /\
    train_rows RandomState permutation target !! label = Some (take 4900 idx) /\
    valid_rows RandomState permutation target !! label = Some (take 100 (drop 4900 idx)) /\
    (forall i, i ∈ take 4900 idx -> i ∉ take 100 (drop 4900 idx)) /\
    (forall tr,
       train_subset RandomState permutation target = Ok tr ->
       tr = concat (map (fun l => take 4900 (permutation (RandomState 42)
                                               (flatnonzero (target_eq target l))).1)
                      (seq 0 10)) /\
       NoDup tr) /\
    (forall va,
       valid_subset RandomState permutation target = Ok va ->
       va = concat (map (fun l => take 100 (drop 4900 (permutation (RandomState 42)
                                               (flatnonzero (target_eq target l))).1))
                      (seq 0 10)) /\
       NoDup va) /\
    (forall tr va,
       train_subset RandomState permutation target = Ok tr ->
       valid_subset RandomState permutation target = Ok va ->
       forall i, i ∈ tr -> i ∉ va) /\
    ((forall l, l < 10 -> 4900 + 100 <= length (flatnonzero (target_eq target l))) ->
     exists tr va,
       train_subset RandomState permutation target = Ok tr /\
       valid_subset RandomState permutation target = Ok va /\
       length tr = 10 * 4900 /\ length va = 10 * 100 /\
       take 4900 (drop (label * 4900) tr) = take 4900 idx /\
       take 100 (drop (label * 100) va) = take 100 (drop 4900 idx) /\
       length (take 4900 idx) = 4900 /\ length (take 100 (drop 4900 idx)) = 100).
Proof.
  change 4900 with n_train. change 100 with n_valid.
  exact (pools n_train n_valid target label).
Qed.

End SubsetShape.

Lemma flatnonzero_from_length_shift mask : forall i j,
  length (flatnonzero_from i mask) = length (flatnonzero_from j mask).
Proof.
  induction mask as [|b tl IH]; intros i j; [reflexivity|].
  cbn [flatnonzero_from]. rewrite !length_app, (IH (S i) (S j)).
  destruct b; reflexivity.
Qed.

Lemma flatnonzero_from_length_app m1 : forall i m2,
  length (flatnonzero_from i (m1 ++ m2)) =
  length (flatnonzero_from i m1) + length (flatnonzero_from i m2).
Proof.
  induction m1 as [|b tl IH]; intros i m2; [reflexivity|].
  cbn [app flatnonzero_from]. rewrite !length_app, IH.
  rewrite (flatnonzero_from_length_shift m2 (S i) i). lia.
Qed.

Lemma balanced_class_size k l :
  l < 10 -> length (flatnonzero (target_eq (concat (repeat (seq 0 10) k)) l)) = k.
Proof.
  intros Hl. unfold flatnonzero, target_eq. induction k as [|k IH]; [reflexivity|].
  cbn [repeat concat]. rewrite map_app, flatnonzero_from_length_app, IH.
  do 10 (destruct l as [|l]; [reflexivity|]). lia.
Qed.

Lemma balanced_permutation_shuffles g idx : (Balanced.permutation g idx).1 ≡ₚ idx.
Proof.
  unfold Balanced.permutation. cbn [fst]. rewrite rev_append_rev, app_nil_r.
  symmetry. apply Permutation_rev.
Qed.

Lemma subsets_are_disjoint_slices_of_seeded_permutation_witness :
  (forall l, l < 10 ->
     4900 + 100 <= length (flatnonzero (target_eq Balanced.target l))) /\
  exists idx,
    label_idx Balanced.RandomState Balanced.permutation Balanced.target !! 3 = Some idx /\
    idx = (Balanced.permutation (Balanced.RandomState 42)
             (flatnonzero (target_eq Balanced.target 3))).1 /\
    idx ≡ₚ flatnonzero (target_eq Balanced.target 3) /\
    (forall i, i ∈ idx <-> Balanced.target !! i = Some 3) /\
    train_rows Balanced.RandomState Balanced.permutation Balanced.target !! 3 =
      Some (take 4900 idx) /\
    valid_rows Balanced.RandomState Balanced.permutation Balanced.target !! 3 =
      Some (take 100 (drop 4900 idx)) /\
    (forall i, i ∈ take 4900 idx -> i ∉ take 100 (drop 4900 idx)) /\
    (forall tr,
       train_subset Balanced.RandomState Balanced.permutation Balanced.target = Ok tr ->
       tr = concat (map (fun l => take 4900 (Balanced.permutation (Balanced.RandomState 42)
                                               (flatnonzero (target_eq Balanced.target l))).1)
                      (seq 0 10)) /\
       NoDup tr) /\
    (forall va,
       valid_subset Balanced.RandomState Balanced.permutation Balanced.target = Ok va ->
       va = concat (map (fun l => take 100 (drop 4900
                                    (Balanced.permutation (Balanced.RandomState 42)
                                       (flatnonzero (target_eq Balanced.target l))).1))
                      (seq 0 10)) /\
       NoDup va) /\
    (forall tr va,
       train_subset Balanced.RandomState Balanced.permutation Balanced.target = Ok tr ->
       valid_subset Balanced.RandomState Balanced.permutation Balanced.target = Ok va ->
       forall i, i ∈ tr -> i ∉ va) /\
    ((forall l, l < 10 ->
        4900 + 100 <= length (flatnonzero (target_eq Balanced.target l))) ->
     exists tr va,
       train_subset Balanced.RandomState Balanced.permutation Balanced.target = Ok tr /\
       valid_subset Balanced.RandomState Balanced.permutation Balanced.target = Ok va /\
       length tr = 10 * 4900 /\ length va = 10 * 100 /\
       take 4900 (drop (3 * 4900) tr) = take 4900 idx /\
       take 100 (drop (3 * 100) va) = take 100 (drop 4900 idx) /\
       length (take 4900 idx) = 4900 /\ length (take 100 (drop 4900 idx)) = 100).
Proof.
  split.
  - intros l Hl. unfold Balanced.target. rewrite (balanced_class_size 5000 l Hl).
    change (4900 + 100) with 5000. apply le_n.
  - apply (subsets_are_disjoint_slices_of_seeded_permutation
             Balanced.RandomState Balanced.permutation).
    + exact balanced_permutation_shuffles.
    + lia.
Defined.

(* --------------------------------------------------------------------- *)
(** ** Failing calls, seen from the library *)
(* --------------------------------------------------------------------- *)

Lemma calls_app l1 l2 : calls (l1 ++ l2) = calls l1 + calls l2.
Proof. unfold calls. rewrite List.filter_app, length_app. reflexivity. Qed.

Section FailStop.

Context {Lib : Type} (L : Library Lib).

Lemma fs_bind {A B} (m : M (Lib * list (option exn)) A)
    (k : A -> M (Lib * list (option exn)) B) :
  fail_stop L m -> (forall a, fail_stop L (k a)) -> fail_stop L (bind m k).
Proof.
  intros Hm Hk w. destruct (Hm w) as [(new1 & Hh1 & Hc1 & Hd1) Hce1].
  destruct (out_res (m w)) as [a|e] eqn:E.
  - rewrite (bind_Ok m k w a E). cbn [out_res out_world out_log].
    destruct (Hk a (out_world (m w))) as [(new2 & Hh2 & Hc2 & Hd2) Hce2].
    assert (Forall (fun o => o = None) new1) as Hn1.
    { destruct Hd1 as [H | (oks & e & pre & ev & _ & _ & Hr & _)];
        [exact H | discriminate Hr]. }
    split.
    + exists (new1 ++ new2).
      split; [rewrite Hh2, Hh1, app_assoc; reflexivity|].
      split; [rewrite length_app, calls_app; congruence|].
      destruct Hd2 as [H | (oks & e & pre & ev & -> & Hoks & Hr & Hl & Hev)].
      * left. apply Forall_app; auto.
      * right. exists (new1 ++ oks), e, (out_log (m w) ++ pre), ev.
        split; [rewrite app_assoc; reflexivity|].
        split; [apply Forall_app; auto|].
        split; [exact Hr|].
        split; [rewrite Hl, app_assoc; reflexivity | exact Hev].
    + intros yhat y e Hin Hfail. apply elem_of_app in Hin as [Hin | Hin].
      * destruct (Hce1 yhat y e Hin Hfail) as [Hr _]. discriminate Hr.
      * destruct (Hce2 yhat y e Hin Hfail) as [Hr (pre & Hl)]. split; [exact Hr|].
        exists (out_log (m w) ++ pre). rewrite Hl, app_assoc. reflexivity.
  - rewrite (bind_Raise m k w e E). cbn [out_res out_world out_log]. split.
    + exists new1. split; [exact Hh1|]. split; [exact Hc1|].
      destruct Hd1 as [H | (oks & e0 & pre & ev & Hn & Hoks & Hr & Hl & Hev)];
        [left; exact H|].
      right. injection Hr as <-. exists oks, e, pre, ev. auto.
    + intros yhat y e0 Hin Hfail. destruct (Hce1 yhat y e0 Hin Hfail) as [Hr Hl].
      injection Hr as <-. auto.
Qed.

(** Steps that call nothing *)
Lemma fs_quiet {A} (m : M (Lib * list (option exn)) A) :
  (forall w, history (out_world (m w)) = history w /\
             calls (out_log (m w)) = 0 /\
             forall yhat y, EvCrossEntropy yhat y ∉ out_log (m w)) ->
  fail_stop L m.
Proof.
  intros H w. destruct (H w) as (Hh & Hc & Hce). split.
  - exists []. rewrite app_nil_r. split; [exact Hh|]. split; [symmetry; exact Hc|].
    left. constructor.
  - intros yhat y e Hin _. destruct (Hce yhat y Hin).
Qed.

Lemma fs_ret {A} (a : A) : fail_stop L (ret a).
Proof.
  apply fs_quiet. intros w. split; [reflexivity|]. split; [reflexivity|].
  intros yhat y Hin. inversion Hin.
Qed.

Lemma fs_get : fail_stop L get.
Proof.
  apply fs_quiet. intros w. split; [reflexivity|]. split; [reflexivity|].
  intros yhat y Hin. inversion Hin.
Qed.

Lemma fs_lift_result {A} (r : result A) : fail_stop L (lift_result r).
Proof.
  apply fs_quiet. intros w. destruct r; cbn.
  - split; [reflexivity|]. split; [reflexivity|]. intros yhat y Hin. inversion Hin.
  - split; [reflexivity|]. split; [reflexivity|]. intros yhat y Hin.
    apply list_elem_of_singleton in Hin. discriminate Hin.
Qed.

Lemma fs_emit ev :
  is_recorded_call ev = false -> (forall yhat y, ev <> EvCrossEntropy yhat y) ->
  fail_stop L (emit ev).
Proof.
  intros Hev Hce. apply fs_quiet. intros w. cbn.
  split; [reflexivity|]. split; [unfold calls; cbn; rewrite Hev; reflexivity|].
  intros yhat y Hin. apply list_elem_of_singleton in Hin. symmetry in Hin.
  exact (Hce yhat y Hin).
Qed.

Lemma fs_modify (f : World (Lib * list (option exn)) -> World (Lib * list (option exn))) :
  (forall w, lib (f w) = lib w) -> fail_stop L (modify f).
Proof.
  intros Hf. apply fs_quiet. intros w. cbn.
  split; [unfold history; rewrite Hf; reflexivity|]. split; [reflexivity|].
  intros yhat y Hin. inversion Hin.
Qed.

Lemma fs_lib_call {A} ev (g : Lib -> result A * Lib) :
  is_recorded_call ev = true ->
  fail_stop L (lib_call ev (watched g)).
Proof.
  intros Hev w. unfold lib_call, watched. cbn [fst snd].
  destruct (g (lib w).1).1 as [a|e] eqn:E; cbn [out_res out_world out_log]; split.
  - exists [None]. split; [reflexivity|].
    split; [unfold calls; cbn; rewrite Hev; reflexivity|]. left. repeat constructor.
  - intros yhat y e Hin _. apply list_elem_of_singleton in Hin. subst ev. discriminate Hev.
  - exists [Some e]. split; [reflexivity|].
    split; [unfold calls; cbn; rewrite Hev; reflexivity|]. right.
    exists [], e, [], ev. split; [reflexivity|]. split; [constructor|]. auto.
  - intros yhat y e' Hin _. apply elem_of_cons in Hin as [Hin | Hin].
    + subst ev. discriminate Hev.
    + apply list_elem_of_singleton in Hin. discriminate Hin.
Qed.

Lemma fs_cross_entropy_call yhat y :
  fail_stop L (lib_call (EvCrossEntropy yhat y) (fun l => (cross_entropy L yhat y, l))).
Proof.
  intros w. unfold lib_call. cbn [fst snd].
  destruct (cross_entropy L yhat y) as [v|e] eqn:E; cbn [out_res out_world out_log]; split.
  - exists []. rewrite app_nil_r. split; [reflexivity|]. split; [reflexivity|].
    left. constructor.
  - intros yhat' y' e Hin Hfail. apply list_elem_of_singleton in Hin.
    injection Hin as -> ->. congruence.
  - exists []. rewrite app_nil_r. split; [reflexivity|]. split; [reflexivity|].
    left. constructor.
  - intros yhat' y' e' Hin Hfail. apply elem_of_cons in Hin as [Hin | Hin].
    + injection Hin as -> ->. assert (e' = e) as -> by congruence.
      split; [reflexivity|]. exists []. reflexivity.
    + apply list_elem_of_singleton in Hin. discriminate Hin.
Qed.

Lemma fs_getitem d i : fail_stop L (getitem (watch L) d i).
Proof. apply (fs_lib_call (EvGetItem d i)). reflexivity. Qed.

Lemma fs_new c : fail_stop L (new (watch L) c).
Proof. apply (fs_lib_call (EvConstruct c)). reflexivity. Qed.

Lemma fs_model_eval : fail_stop L model_eval.
Proof.
  apply fs_bind; [apply fs_emit; [reflexivity | discriminate]|].
  intros _. apply fs_modify. reflexivity.
Qed.

Lemma fs_model_train : fail_stop L model_train.
Proof.
  apply fs_bind; [apply fs_emit; [reflexivity | discriminate]|].
  intros _. apply fs_modify. reflexivity.
Qed.

Lemma fs_model_call input : fail_stop L (model_call (watch L) input).
Proof.
  unfold model_call. apply fs_bind; [apply fs_get|]. intros w.
  apply fs_bind; [|intros; apply fs_ret].
  apply (fs_lib_call (EvForward (training w) (grad_enabled w) input)). reflexivity.
Qed.

Lemma fs_loss yhat y : fail_stop L (_loss (watch L) yhat y).
Proof.
  unfold _loss. apply fs_bind; [apply fs_get|]. intros w.
  apply fs_bind; [|intros; apply fs_ret].
  apply fs_cross_entropy_call.
Qed.

Lemma fs_no_grad {A} (body : M (Lib * list (option exn)) A) :
  fail_stop L body -> fail_stop L (no_grad body).
Proof.
  intros Hb w. unfold no_grad. cbn [out_res out_world out_log].
  exact (Hb (set_grad_enabled false w)).
Qed.

Lemma fs_run_attack_scalar a fm x y e :
  fail_stop L (run_attack_scalar (watch L) a fm x y e).
Proof.
  intros w. unfold run_attack_scalar. cbn [watch attack_scalar fst snd].
  destruct (attack_scalar L a fm x y e (unwatch w)).1.1 as [v|e'];
    cbn [out_res out_world out_log]; split.
  - exists [None]. split; [reflexivity|]. split; [reflexivity|]. left. repeat constructor.
  - intros yhat y' e0 Hin _. apply list_elem_of_singleton in Hin. discriminate Hin.
  - exists [Some e']. split; [reflexivity|]. split; [reflexivity|]. right.
    exists [], e', [], (EvAttack a fm x y (EpsScalar e)).
    split; [reflexivity|]. split; [constructor|]. auto.
  - intros yhat y' e0 Hin _. apply elem_of_cons in Hin as [Hin | Hin]; [discriminate Hin|].
    apply list_elem_of_singleton in Hin. discriminate Hin.
Qed.

Lemma fs_run_attack_array a fm x y es :
  fail_stop L (run_attack_array (watch L) a fm x y es).
Proof.
  intros w. unfold run_attack_array. cbn [watch attack_array fst snd].
  destruct (attack_array L a fm x y es (unwatch w)).1.1 as [v|e'];
    cbn [out_res out_world out_log]; split.
  - exists [None]. split; [reflexivity|]. split; [reflexivity|]. left. repeat constructor.
  - intros yhat y' e0 Hin _. apply list_elem_of_singleton in Hin. discriminate Hin.
  - exists [Some e']. split; [reflexivity|]. split; [reflexivity|]. right.
    exists [], e', [], (EvAttack a fm x y (EpsArray es)).
    split; [reflexivity|]. split; [constructor|]. auto.
  - intros yhat y' e0 Hin _. apply elem_of_cons in Hin as [Hin | Hin]; [discriminate Hin|].
    apply list_elem_of_singleton in Hin. discriminate Hin.
Qed.

Lemma fs_for_each {A S} (body : A -> S -> M (Lib * list (option exn)) S) (l : list A) :
  (forall a s, fail_stop L (body a s)) -> forall s, fail_stop L (for_each l s body).
Proof.
  intros Hb. induction l as [|a tl IH]; intros s; cbn [for_each].
  - apply fs_ret.
  - apply fs_bind; [apply Hb | intros; apply IH].
Qed.

Ltac fail_stop :=
  repeat first
    [ apply fs_ret | apply fs_get | apply fs_lift_result
    | apply fs_getitem | apply fs_new | apply fs_model_eval | apply fs_model_train
    | apply fs_model_call | apply fs_loss
    | apply fs_run_attack_scalar | apply fs_run_attack_array
    | apply fs_emit; [reflexivity | discriminate]
    | apply fs_modify; reflexivity
    | apply fs_no_grad
    | apply fs_for_each; intros ? ?
    | apply fs_bind; [|intros ?]
    | match goal with
      | |- fail_stop _ (match ?a with _ => _ end) => destruct a
      | |- fail_stop _ ((match ?a with _ => _ end) _) => destruct a
      end ].






End FailStop.

(* --------------------------------------------------------------------- *)
(** ** The recorder changes nothing *)
(* --------------------------------------------------------------------- *)

Section Simulation.

Context {Lib : Type} (L : Library Lib).

























End Simulation.


(* --------------------------------------------------------------------- *)
(** ** The test phase measures, then averages *)
(* --------------------------------------------------------------------- *)

Section Agree.

Context {Lib : Type}.

Lemma outcome_eta {A} (o : Outcome Lib A) :
  o = Build_Outcome (out_res o) (out_world o) (out_log o).
Proof. destruct o; reflexivity. Qed.

Lemma bind_assoc {A B C} (m : M Lib A) (k : A -> M Lib B) (k' : B -> M Lib C) w :
  bind (bind m k) k' w = bind m (fun a => bind (k a) k') w.
Proof.
  unfold bind. destruct (out_res (m w)) as [a|e]; cbn; [|reflexivity].
  destruct (out_res (k a (out_world (m w)))) as [b|e]; cbn; [|reflexivity].
  rewrite app_assoc. reflexivity.
Qed.

Lemma ag_refl {A} (m : M Lib A) : agree m m eq.
Proof.
  intros w v H. exists v. split; [|reflexivity].
  rewrite (outcome_eta (m w)) at 1. rewrite H. reflexivity.
Qed.

Lemma ag_ret {A B} (R : A -> B -> Prop) v1 v2 :
  R v1 v2 -> agree (Lib := Lib) (ret v1) (ret v2) R.
Proof. intros H w v Hv. injection Hv as <-. exists v2. auto. Qed.

Lemma ag_bind {A1 A2 B1 B2} (m1 : M Lib A1) (m2 : M Lib A2) (R : A1 -> A2 -> Prop)
    (k1 : A1 -> M Lib B1) (k2 : A2 -> M Lib B2) (R' : B1 -> B2 -> Prop) :
  agree m1 m2 R ->
  (forall v1 v2, R v1 v2 -> agree (k1 v1) (k2 v2) R') ->
  agree (bind m1 k1) (bind m2 k2) R'.
Proof.
  intros Hm Hk w b Hb.
  apply bind_Ok_inv in Hb as (a & Ha & Hka & Hw & Hl).
  destruct (Hm w a Ha) as (v2 & Hm2 & HR).
  destruct (Hk a v2 HR (out_world (m1 w)) b Hka) as (b2 & Hk2 & HR').
  exists b2. split; [|exact HR']. rewrite Hw, Hl.
  unfold bind at 1. rewrite Hm2. cbn [out_res out_world out_log].
  rewrite Hk2. reflexivity.
Qed.

(** A check of the first program that the second does not make *)
Lemma ag_skip_left {A B1 B2} (r : result A) (k1 : A -> M Lib B1) (m2 : M Lib B2) R :
  (forall a, r = Ok a -> agree (k1 a) m2 R) ->
  agree (bind (lift_result r) k1) m2 R.
Proof.
  intros H w v Hv. destruct r as [a|e]; [|discriminate Hv].
  exact (H a eq_refl w v Hv).
Qed.

Lemma ag_ret_left {A B1 B2} (v : A) (k1 : A -> M Lib B1) (m2 : M Lib B2) R :
  agree (k1 v) m2 R -> agree (bind (ret v) k1) m2 R.
Proof. intros H w b Hb. exact (H w b Hb). Qed.

Lemma ag_ret_right {A B1 B2} (v : A) (m1 : M Lib B1) (k2 : A -> M Lib B2) R :
  agree m1 (k2 v) R -> agree m1 (bind (ret v) k2) R.
Proof.
  intros H w b Hb. destruct (H w b Hb) as (v2 & E & HR).
  exists v2. split; [|exact HR]. unfold bind. cbn. rewrite E. reflexivity.
Qed.

Lemma ag_map_right {A1 A2 B2} (m1 : M Lib A1) (m2 : M Lib A2) (f : A2 -> B2)
    (R : A1 -> A2 -> Prop) (R' : A1 -> B2 -> Prop) :
  agree m1 m2 R ->
  (forall v1 v2, R v1 v2 -> R' v1 (f v2)) ->
  agree m1 (bind m2 (fun v => ret (f v))) R'.
Proof.
  intros Hm Hf w v1 Hv. destruct (Hm w v1 Hv) as (v2 & Hm2 & HR).
  exists (f v2). split; [|exact (Hf v1 v2 HR)].
  unfold bind. rewrite Hm2. cbn. rewrite app_nil_r. reflexivity.
Qed.

Lemma ag_assoc_left {A B C D} (m : M Lib A) (k : A -> M Lib B) (k' : B -> M Lib C)
    (m2 : M Lib D) R :
  agree (bind m (fun a => bind (k a) k')) m2 R -> agree (bind (bind m k) k') m2 R.
Proof.
  intros H w v Hv. rewrite bind_assoc in Hv |- *. exact (H w v Hv).
Qed.

Lemma ag_assoc_right {A B C D} (m : M Lib A) (k : A -> M Lib B) (k' : B -> M Lib C)
    (m1 : M Lib D) R :
  agree m1 (bind m (fun a => bind (k a) k')) R -> agree m1 (bind (bind m k) k') R.
Proof.
  intros H w v Hv. rewrite bind_assoc. exact (H w v Hv).
Qed.

Lemma ag_weaken {A B} (m1 : M Lib A) (m2 : M Lib B) (R R' : A -> B -> Prop) :
  agree m1 m2 R -> (forall v1 v2, R v1 v2 -> R' v1 v2) -> agree m1 m2 R'.
Proof.
  intros H HR w v Hv. destruct (H w v Hv) as (v2 & ? & ?). exists v2. auto.
Qed.

End Agree.

Section MeasureLoops.

Context {Lib : Type} (L : Library Lib).

(** The loop over the adversarial batches of one test batch *)
Lemma inner_loop_measures (y_test : list nat) (size : nat) (success : list (list bool))
    (adversarials : list (list (list (list (list Q))))) :
  forall i0 acc_adv success_adv,
    agree
      (for_each (zip (seq i0 (length adversarials)) adversarials) (acc_adv, success_adv)
         (fun '(ii, adv) '(acc_adv, success_adv) =>
            let* input := lift_result (preprocess adv) in
            let* yhat_adv := model_call L input in
            let* old := lift_result (list_index acc_adv ii) in
            let* a := lift_result (accuracy (value yhat_adv) y_test) in
            let acc_adv := <[ii := (old + a * of_nat size)%Q]> acc_adv in
            let* old := lift_result (list_index success_adv ii) in
            let* s := lift_result (list_index success ii) in
            let success_adv := <[ii := (old + of_nat (tensor_sum s))%Q]> success_adv in
            ret (acc_adv, success_adv)))
      (mapM (fun adv => measure_accuracy L adv y_test) adversarials)
      (fun st accs =>
         st.1 = update_sums acc_adv i0 (map (fun a => (a * of_nat size)%Q) accs) /\
         st.2 = update_sums success_adv i0
                  (map of_nat (map tensor_sum
                                 (take (length adversarials) (drop i0 success))))).
Proof.
  induction adversarials as [|adv tl IH]; intros i0 acc_adv success_adv.
  - cbn [length seq zip zip_with for_each mapM]. apply ag_ret. auto.
  - cbn [length seq zip zip_with for_each mapM]. cbv zeta.
    unfold measure_accuracy at 1.
    apply ag_assoc_left. apply ag_assoc_right.
    eapply ag_bind; [apply ag_refl|]. intros input ? <-.
    apply ag_assoc_left. apply ag_assoc_right.
    eapply ag_bind; [apply ag_refl|]. intros yhat_adv ? <-.
    apply ag_assoc_left. apply ag_skip_left. intros old Hold.
    apply ag_assoc_left.
    eapply ag_bind; [apply ag_refl|]. intros a ? <-.
    apply ag_assoc_left. apply ag_skip_left. intros old' Hold'.
    apply ag_assoc_left. apply ag_skip_left. intros s Hs.
    apply ag_ret_left.
    eapply ag_map_right; [apply IH|].
    intros [acc' succ'] accs [H1 H2]. cbn [fst snd] in *.
    apply list_index_Ok in Hold, Hold', Hs. split.
    + cbn [map update_sums]. rewrite Hold. exact H1.
    + rewrite (drop_S _ _ _ Hs). cbn [length take map update_sums].
      rewrite Hold'. exact H2.
Qed.

Ltac ag_norm :=
  repeat match goal with
         | |- agree (bind (bind _ _) _) _ _ => apply ag_assoc_left
         | |- agree _ (bind (bind _ _) _) _ => apply ag_assoc_right
         end.

Ltac ag_same := ag_norm; eapply ag_bind; [apply ag_refl|]; intros ? ? <-; cbv beta iota.

(** The loop over the batches of the test set *)
Lemma test_loop_measures (a : LinfPGD) (fm : FoolboxModel) (bs : list (nat * nat)) :
  forall st0,
    agree
      (for_each bs st0
         (fun '(batch_start, batch_end) '(n_total, acc_test, acc_adv, success_adv) =>
            let* '(x_test, y_test) := getitem L testset (IdxSlice batch_start batch_end) in
            let* input := lift_result (preprocess x_test) in
            let* yhat := model_call L input in
            let* a0 := lift_result (accuracy (value yhat) y_test) in
            let acc_test := (acc_test + a0 * of_nat (batch_end - batch_start))%Q in
            let* '(adversarials, _, success) :=
              run_attack_array L a fm x_test y_test epsilon_test in
            let* '(acc_adv, success_adv) :=
              for_each (enumerate adversarials) (acc_adv, success_adv)
                (fun '(ii, adv) '(acc_adv, success_adv) =>
                   let* input := lift_result (preprocess adv) in
                   let* yhat_adv := model_call L input in
                   let* old := lift_result (list_index acc_adv ii) in
                   let* a0 := lift_result (accuracy (value yhat_adv) y_test) in
                   let acc_adv :=
                     <[ii := (old + a0 * of_nat (batch_end - batch_start))%Q]> acc_adv in
                   let* old := lift_result (list_index success_adv ii) in
                   let* s := lift_result (list_index success ii) in
                   let success_adv :=
                     <[ii := (old + of_nat (tensor_sum s))%Q]> success_adv in
                   ret (acc_adv, success_adv)) in
            let n_total := n_total + (batch_end - batch_start) in
            ret (n_total, acc_test, acc_adv, success_adv)))
      (mapM (measure_batch L a fm) bs)
      (fun st stats => st = foldl accumulate st0 stats).
Proof.
  induction bs as [|[batch_start batch_end] tl IH];
    intros [[[n_total acc_test] acc_adv] success_adv].
  - cbn [for_each mapM]. apply ag_ret. reflexivity.
  - cbn [for_each mapM]. cbv zeta. unfold measure_batch at 1. cbn [fst snd].
    ag_norm. eapply ag_bind; [apply ag_refl|].
    intros [x_test y_test] ? <-. cbv beta iota.
    unfold measure_accuracy at 1.
    ag_same. ag_same. ag_same.
    ag_norm. eapply ag_bind; [apply ag_refl|].
    intros [[adversarials clipped] success] ? <-. cbv beta iota.
    ag_norm. eapply ag_bind.
    + unfold enumerate.
      apply (inner_loop_measures y_test (batch_end - batch_start) success adversarials 0).
    + intros [acc_adv' success_adv'] accs [H1 H2]. cbn [fst snd] in H1, H2.
      apply ag_ret_left. apply ag_ret_right.
      eapply ag_map_right; [apply IH|].
      intros st stats ->. cbn [foldl]. f_equal.
      unfold accumulate. cbn [fst snd bs_size bs_clean bs_adv bs_success].
      rewrite H1, H2. reflexivity.
Qed.

(** The accumulation is a run of the measurements, and its four sums are
    those of the measurements. *)
Lemma test_sums_measures problem :
  agree (test_sums L problem) (measure L problem)
    (fun st stats =>
       st = foldl accumulate
              (0, 0%Q, np_zeros (length epsilon_test),
               np_zeros (length (np_zeros (length epsilon_test)))) stats).
Proof.
  unfold test_sums, measure. cbv zeta.
  ag_same. ag_same. ag_same. ag_same. ag_same.
  apply test_loop_measures.
Qed.

End MeasureLoops.

Lemma update_sums_length incs : forall acc i0, length (update_sums acc i0 incs) = length acc.
Proof.
  induction incs as [|d tl IH]; intros acc i0; cbn [update_sums]; [reflexivity|].
  rewrite IH. destruct (acc !! i0); [apply length_insert | reflexivity].
Qed.

Lemma update_sums_lookup incs : forall acc i0 ii,
  update_sums acc i0 incs !! ii =
    match acc !! ii with
    | None => None
    | Some v =>
        Some (if decide (i0 <= ii)
              then match incs !! (ii - i0) with Some d => (v + d)%Q | None => v end
              else v)
    end.
Proof.
  induction incs as [|d tl IH]; intros acc i0 ii; cbn [update_sums].
  - destruct (acc !! ii); [|reflexivity]. destruct (decide (i0 <= ii)); reflexivity.
  - rewrite IH. destruct (acc !! i0) as [old|] eqn:Hold.
    + destruct (decide (i0 = ii)) as [<- | Hne].
      * rewrite list_lookup_insert_eq by (eapply lookup_lt_Some; exact Hold).
        rewrite Hold. destruct (decide (S i0 <= i0)); [lia|].
        destruct (decide (i0 <= i0)); [|lia]. rewrite Nat.sub_diag. reflexivity.
      * rewrite list_lookup_insert_ne by exact Hne.
        destruct (acc !! ii) as [v|]; [|reflexivity].
        destruct (decide (S i0 <= ii)), (decide (i0 <= ii)); try lia; [|reflexivity].
        replace (ii - i0) with (S (ii - S i0)) by lia. reflexivity.
    + destruct (acc !! ii) as [v|] eqn:Hv; [|reflexivity].
      apply lookup_lt_Some in Hv. apply lookup_ge_None in Hold.
      destruct (decide (S i0 <= ii)); [lia|]. destruct (decide (i0 <= ii)); [lia|].
      reflexivity.
Qed.

Lemma update_sums_lookup_0 incs acc ii :
  update_sums acc 0 incs !! ii =
    match acc !! ii with
    | None => None
    | Some v => Some (match incs !! ii with Some d => (v + d)%Q | None => v end)
    end.
Proof.
  rewrite update_sums_lookup. destruct (acc !! ii); [|reflexivity].
  destruct (decide (0 <= ii)); [|lia]. rewrite Nat.sub_0_r. reflexivity.
Qed.

(** The accumulators after all batches, entry by entry *)
Lemma accumulate_all stats : forall st,
  (foldl accumulate st stats).1.1.1 = foldl (fun n b => n + bs_size b) st.1.1.1 stats /\
  (foldl accumulate st stats).1.1.2 =
    foldl (fun s b => (s + bs_clean b * of_nat (bs_size b))%Q) st.1.1.2 stats /\
  length (foldl accumulate st stats).1.2 = length st.1.2 /\
  length (foldl accumulate st stats).2 = length st.2 /\
  (forall ii v, st.1.2 !! ii = Some v ->
     (foldl accumulate st stats).1.2 !! ii =
       Some (foldl (fun s b => match bs_adv b !! ii with
                               | Some a => (s + a * of_nat (bs_size b))%Q
                               | None => s
                               end) v stats)) /\
  (forall ii v, st.2 !! ii = Some v ->
     (foldl accumulate st stats).2 !! ii =
       Some (foldl (fun s b => match bs_success b !! ii with
                               | Some c => (s + of_nat c)%Q
                               | None => s
                               end) v stats)).
Proof.
  induction stats as [|b tl IH]; intros st; cbn [foldl].
  - auto 10.
  - destruct (IH (accumulate st b)) as (H1 & H2 & H3 & H4 & H5 & H6).
    unfold accumulate in H1, H2, H3, H4, H5, H6. cbn [fst snd] in H1, H2, H3, H4, H5, H6.
    rewrite update_sums_length in H3, H4.
    split; [exact H1|]. split; [exact H2|]. split; [exact H3|]. split; [exact H4|].
    split.
    + intros ii v Hv. apply H5. rewrite update_sums_lookup_0, Hv, list_lookup_fmap.
      destruct (bs_adv b !! ii); reflexivity.
    + intros ii v Hv. apply H6. rewrite update_sums_lookup_0, Hv, list_lookup_fmap.
      destruct (bs_success b !! ii); reflexivity.
Qed.

Lemma sums_by_magnitude (l : list Q) (f : nat -> Q) k :
  length l = k -> (forall ii, ii < k -> l !! ii = Some (f ii)) -> l = map f (seq 0 k).
Proof.
  intros Hlen Hl. apply list_eq. intros ii. rewrite list_lookup_fmap.
  destruct (decide (ii < k)) as [Hlt | Hge].
  - rewrite (Hl ii Hlt), lookup_seq_lt by exact Hlt. reflexivity.
  - rewrite lookup_ge_None_2 by lia. rewrite lookup_seq_ge by lia. reflexivity.
Qed.

(** Started from zero, the accumulators end at the sums of the
    measurements. *)
Lemma sums_of_measurements stats :
  foldl accumulate
    (0, 0%Q, np_zeros (length epsilon_test),
     np_zeros (length (np_zeros (length epsilon_test)))) stats =
  (stats_total stats, clean_sum stats,
   map (fun ii => adv_sum ii stats) (seq 0 (length epsilon_test)),
   map (fun ii => success_sum ii stats) (seq 0 (length epsilon_test))).
Proof.
  pose proof (accumulate_all stats
                (0, 0%Q, np_zeros (length epsilon_test),
                 np_zeros (length (np_zeros (length epsilon_test)))))
    as (H1 & H2 & H3 & H4 & H5 & H6).
  destruct (foldl accumulate _ stats) as [[[n a] adv] succ].
  cbn [fst snd] in H1, H2, H3, H4, H5, H6.
  unfold np_zeros in H3, H4, H5, H6. rewrite ?length_replicate in H3, H4, H5, H6.
  f_equal; [f_equal; [f_equal|]|].
  - exact H1.
  - exact H2.
  - apply sums_by_magnitude; [exact H3|]. intros ii Hii.
    apply H5. apply lookup_replicate_2. exact Hii.
  - apply sums_by_magnitude; [exact H4|]. intros ii Hii.
    apply H6. apply lookup_replicate_2. exact Hii.
Qed.

Lemma test_sums_total {Lib} (L : Library Lib) problem w st :
  out_res (test_sums L problem w) = Ok st -> st.1.1.1 = dataset_len L testset.
Proof.
  intros H.
  assert (sat (always (fun ev => is_print ev = false)) (test_sums L problem)
            (fun st => st.1.1.1 = dataset_len L testset /\
                       length st.1.2 = length epsilon_test /\
                       length st.2 = length epsilon_test)) as Hs.
  { apply (test_sums_sat (always (fun ev => is_print ev = false))
             (fun ev => is_print ev = false));
      first [ apply always_nil | apply always_app | apply always_event
            | apply always_raise; reflexivity | reflexivity ]. }
  destruct (Hs w) as [_ Hpost]. exact (proj1 (Hpost st H)).
Qed.

(** C6: the sweep has 7 evenly spaced magnitudes from 0.01 to 0.06, and
    every attack of the test phase is run over that sweep.  A test phase
    that returns has done what the measurements do: it has built its
    objects, read every batch of the test set, measured the accuracy of
    the model on it, attacked it over the sweep and measured the accuracy
    on each adversarial batch; the samples measured are the whole test
    set; and what it reports and prints, after the measurements, is one
    clean accuracy, and for every magnitude one adversarial accuracy and
    one success rate: the sums over the batches of the accuracies
    weighted by the batch sizes, and of the numbers of successful
    attacks, divided by the size of the test set. *)
Theorem test_reports_one_value_per_magnitude {Lib} (L : Library Lib) problem :
  (length epsilon_test = 7 /\
   last epsilon_test = Some 0.06%Q /\
   forall i e, epsilon_test !! i = Some e ->
     (e == 0.01 + of_nat i * ((0.06 - 0.01) / 6))%Q) /\
  (forall w, Forall sweep_event (out_log (test L problem w))) /\
  (forall w report,
     out_res (test L problem w) = Ok report ->
     exists stats log,
       runs (measure L problem) w (Ok stats) (out_world (test L problem w)) log /\
       stats_total stats = dataset_len L testset /\
       1 <= dataset_len L testset /\
       report = report_of stats /\
       length (report_acc_adv report) = length epsilon_test /\
       length (report_success_adv report) = length epsilon_test /\
       out_log (test L problem w) =
         log ++
         [EvPrint LineTestHeader;
          EvPrint (LineTestAccuracy (100 * report_acc_test report)%Q);
          EvPrint (LineAdversarialAccuracy
                     (map (fun v => (100 * v)%Q) (report_acc_adv report)));
          EvPrint (LineAdversarialSuccess
                     (map (fun v => (100 * v)%Q) (report_success_adv report)))] /\
       prints (out_log (test L problem w)) =
         [LineTestHeader;
          LineTestAccuracy (100 * report_acc_test report)%Q;
          LineAdversarialAccuracy (map (fun v => (100 * v)%Q) (report_acc_adv report));
          LineAdversarialSuccess (map (fun v => (100 * v)%Q) (report_success_adv report))]).
Proof.
  split; [|split].
  - split; [exact epsilon_test_length|]. split; [reflexivity|].
    exact epsilon_test_evenly_spaced.
  - intros w. apply (test_sweeps L problem w).
  - intros w report Hok. unfold test in Hok |- *.
    apply bind_Ok_inv in Hok as (st & Hst & Hk & Hw & Hl).
    destruct (test_sums_measures L problem w st Hst) as (stats & Hm & Hstate).
    rewrite sums_of_measurements in Hstate.
    pose proof (test_sums_total L problem w st Hst) as Hn.
    pose proof (test_sums_silent L problem w) as Hsilent.
    rewrite Hw, Hl. clear Hw Hl.
    subst st. cbn [fst snd] in Hn. cbv beta iota in Hk |- *.
    destruct (float_div_int (clean_sum stats) (stats_total stats)) as [q|e] eqn:Hq;
      [|discriminate Hk].
    apply float_div_int_Ok in Hq as [Hn0 ->].
    cbn in Hk. injection Hk as <-.
    exists stats, (out_log (test_sums L problem w)).
    split; [exact Hm|]. split; [exact Hn|]. split; [lia|].
    split; [reflexivity|]. split; [reflexivity|]. split; [reflexivity|].
    split; [reflexivity|].
    rewrite prints_app, Hsilent. reflexivity.
Qed.

Lemma test_reports_one_value_per_magnitude_witness :
  out_res (test Toy.library Toy.problem (Toy.world 100)) =
    Ok {| report_acc_test := 4 # 6;
          report_acc_adv := [4 # 6; 4 # 6; 4 # 6; 4 # 6; 4 # 6; 4 # 6; 4 # 6];
          report_success_adv := [2 # 3; 2 # 3; 2 # 3; 2 # 3; 2 # 3; 2 # 3; 2 # 3] |} /\
  exists stats log,
    runs (measure Toy.library Toy.problem) (Toy.world 100) (Ok stats)
      (out_world (test Toy.library Toy.problem (Toy.world 100))) log /\
    stats_total stats = dataset_len Toy.library testset /\
    {| report_acc_test := 4 # 6;
       report_acc_adv := [4 # 6; 4 # 6; 4 # 6; 4 # 6; 4 # 6; 4 # 6; 4 # 6];
       report_success_adv := [2 # 3; 2 # 3; 2 # 3; 2 # 3; 2 # 3; 2 # 3; 2 # 3] |} =
      report_of stats /\
    length (prints (out_log (test Toy.library Toy.problem (Toy.world 100)))) = 4.
Proof.
  assert (H : out_res (test Toy.library Toy.problem (Toy.world 100)) =
    Ok {| report_acc_test := 4 # 6;
          report_acc_adv := [4 # 6; 4 # 6; 4 # 6; 4 # 6; 4 # 6; 4 # 6; 4 # 6];
          report_success_adv := [2 # 3; 2 # 3; 2 # 3; 2 # 3; 2 # 3; 2 # 3; 2 # 3] |})
    by (vm_compute; reflexivity).
  split; [exact H|].
  destruct (test_reports_one_value_per_magnitude Toy.library Toy.problem)
    as (_ & _ & Hrun).
  destruct (Hrun _ _ H) as (stats & log & Hr & Hn & _ & Hrep & _ & _ & _ & Hp).
  exists stats, log. split; [exact Hr|]. split; [exact Hn|]. split; [exact Hrep|].
  rewrite Hp. reflexivity.
Defined.

